(** * amused: the control endpoint (control.c)

    A shallow embedding of the control socket handler of the amused music
    daemon: the connection table, the playlist transaction, the accept
    back-pressure and the per-message dispatch of [control_dispatch_imsg].

    Integers of the C code ([int], [ssize_t], [int64_t]) are [Z]; no
    arithmetic of control.c can overflow (the only operations are
    comparisons, [!] and bit tests).  The TAILQ of connections is a [list]
    in queue order, the event core's fd table is a [gmap] keyed by fd. *)

From Stdlib Require Import ZArith Lia.
From Stdlib.Strings Require Import Byte.
From stdpp Require Import gmap strings list.

Open Scope Z_scope.

(** ** amused.h: message types and wire structures *)

(** The [enum imsg_type] of amused.h.  control.c names the [IMSG_CTL_*]
    constants below and the three player orders; every other value of the
    32-bit header field is [IMSG_OTHER]. *)
Inductive imsg_type : Type :=
| IMSG_RESUME | IMSG_PAUSE | IMSG_STOP
| IMSG_CTL_PLAY | IMSG_CTL_TOGGLE_PLAY | IMSG_CTL_PAUSE | IMSG_CTL_STOP
| IMSG_CTL_FLUSH | IMSG_CTL_SHOW | IMSG_CTL_STATUS
| IMSG_CTL_NEXT | IMSG_CTL_PREV | IMSG_CTL_JUMP
| IMSG_CTL_MODE | IMSG_CTL_BEGIN | IMSG_CTL_ADD | IMSG_CTL_COMMIT
| IMSG_CTL_MONITOR | IMSG_CTL_SEEK
| IMSG_CTL_ERR
| IMSG_OTHER (code : Z).

Global Instance imsg_type_eq_dec : EqDecision imsg_type.
Proof. solve_decision. Defined.

(** [enum play_state] (playlist.h). *)
Inductive play_state_t : Type := STATE_STOPPED | STATE_PLAYING | STATE_PAUSED.

Global Instance play_state_eq_dec : EqDecision play_state_t.
Proof. solve_decision. Defined.

(** [struct player_mode]: one request code per mode. *)
Record player_mode : Type := mk_player_mode {
  pm_repeat_one : Z;
  pm_repeat_all : Z;
  pm_consume : Z
}.

(** [struct player_seek]. *)
Record player_seek : Type := mk_player_seek {
  seek_offset : Z;
  seek_relative : Z;
  seek_percent : Z
}.

(** [struct player_event], the payload of a monitor message. *)
Record player_event : Type := mk_player_event {
  pe_event : imsg_type;
  pe_position : Z;
  pe_duration : Z;
  pe_mode : player_mode
}.

(** A received frame, as [imsg_get] hands it to the dispatcher:
    [imsg.hdr.type], [imsg.hdr.pid] and the [IMSG_DATA_SIZE] bytes at
    [imsg.data]. *)
Record imsg : Type := mk_imsg {
  hdr_type : imsg_type;
  hdr_pid : Z;
  imsg_data : list byte
}.

Definition IMSG_DATA_SIZE (m : imsg) : nat := length (imsg_data m).

(** The data argument of a composed message. *)
Inductive payload : Type :=
| P_null                         (* NULL, 0 *)
| P_event (e : player_event)     (* &ev, sizeof(ev) *)
| P_text (t : string)            (* a C string *)
| P_raw (b : list byte).         (* relayed bytes *)

(** A frame queued for writing: the arguments of [imsg_compose_event]
    after the [imsgev]. *)
Record out_imsg : Type := mk_out {
  o_type : imsg_type;
  o_peerid : Z;
  o_pid : Z;
  o_fd : Z;
  o_data : payload
}.

(** ** System constants *)

Definition POLLIN : Z := 1.
Definition POLLOUT : Z := 4.

Inductive errno_t : Type :=
| EAGAIN | EINTR | ECONNABORTED | ENFILE | EMFILE | E_OTHER (code : Z).

Definition EWOULDBLOCK : errno_t := EAGAIN.

Global Instance errno_eq_dec : EqDecision errno_t.
Proof. solve_decision. Defined.

Record timeval : Type := mk_timeval { tv_sec : Z; tv_usec : Z }.

(** ** The state of the main process seen from control.c *)

(** [control_state]: the listening socket, the scratch playlist of the
    transaction and the fd of the connection that owns it ([-1]: none). *)
Record control_state_t : Type := mk_control_state {
  cs_fd : Z;
  cs_play : list string;
  cs_tx : Z
}.

(** [struct imsgev] with the [imsgbuf] it embeds: the fd, the pid, the
    queue of frames waiting to be written and the poll interest. *)
Record imsgev : Type := mk_imsgev {
  ibuf_fd : Z;
  ibuf_pid : Z;
  ibuf_w : list out_imsg;
  iev_events : Z
}.

Record ctl_conn : Type := mk_ctl_conn {
  monitor : Z;       (* 1 if client is in monitor mode *)
  iev : imsgev
}.

(** The globals of main.c and playlist.c that control.c reads or writes,
    and the queue of orders to the player worker. *)
Record main_st : Type := mk_main {
  playlist : list string;
  play_off : Z;
  play_state : play_state_t;
  repeat_one : Z;
  repeat_all : Z;
  consume : Z;
  current_position : Z;
  current_duration : Z;
  player_w : list out_imsg
}.

(** The callbacks control.c registers with the event core. *)
Inductive handler : Type :=
| H_control_accept | H_control_dispatch_imsg | H_enable_accept.

Global Instance handler_eq_dec : EqDecision handler.
Proof. solve_decision. Defined.

(** The event core (ev.c): registered fds with interest set and callback,
    and its single one-shot timer. *)
Record ev_st : Type := mk_ev {
  ev_fds : gmap Z (Z * handler);
  ev_tmr : option (timeval * handler)
}.

Record state : Type := mk_state {
  control_state : control_state_t;
  ctl_conns : list ctl_conn;
  main : main_st;
  evs : ev_st;
  errno : errno_t;
  logged : list string
}.

(** The static initialisers: [control_state = {.fd = -1, .tx = -1}], an
    empty TAILQ, nothing registered. *)
Definition boot (m : main_st) : state :=
  mk_state (mk_control_state (-1) [] (-1)) [] m (mk_ev ∅ None) (E_OTHER 0) [].

(** *** Field updates *)

Definition set_control_state (f : control_state_t → control_state_t) (s : state) : state :=
  mk_state (f (control_state s)) (ctl_conns s) (main s) (evs s) (errno s) (logged s).
Definition set_ctl_conns (f : list ctl_conn → list ctl_conn) (s : state) : state :=
  mk_state (control_state s) (f (ctl_conns s)) (main s) (evs s) (errno s) (logged s).
Definition set_main (f : main_st → main_st) (s : state) : state :=
  mk_state (control_state s) (ctl_conns s) (f (main s)) (evs s) (errno s) (logged s).
Definition set_evs (f : ev_st → ev_st) (s : state) : state :=
  mk_state (control_state s) (ctl_conns s) (main s) (f (evs s)) (errno s) (logged s).
Definition set_errno (e : errno_t) (s : state) : state :=
  mk_state (control_state s) (ctl_conns s) (main s) (evs s) e (logged s).

Definition set_cs_fd (v : Z) (c : control_state_t) : control_state_t :=
  mk_control_state v (cs_play c) (cs_tx c).
Definition set_cs_play (p : list string) (c : control_state_t) : control_state_t :=
  mk_control_state (cs_fd c) p (cs_tx c).
Definition set_cs_tx (v : Z) (c : control_state_t) : control_state_t :=
  mk_control_state (cs_fd c) (cs_play c) v.

Definition set_playlist (p : list string) (m : main_st) : main_st :=
  mk_main p (play_off m) (play_state m) (repeat_one m) (repeat_all m)
    (consume m) (current_position m) (current_duration m) (player_w m).
Definition set_play_state (v : play_state_t) (m : main_st) : main_st :=
  mk_main (playlist m) (play_off m) v (repeat_one m) (repeat_all m)
    (consume m) (current_position m) (current_duration m) (player_w m).
Definition set_play_off (v : Z) (m : main_st) : main_st :=
  mk_main (playlist m) v (play_state m) (repeat_one m) (repeat_all m)
    (consume m) (current_position m) (current_duration m) (player_w m).
Definition set_modes (r1 ra co : Z) (m : main_st) : main_st :=
  mk_main (playlist m) (play_off m) (play_state m) r1 ra co
    (current_position m) (current_duration m) (player_w m).
Definition set_player_w (q : list out_imsg) (m : main_st) : main_st :=
  mk_main (playlist m) (play_off m) (play_state m) (repeat_one m) (repeat_all m)
    (consume m) (current_position m) (current_duration m) q.

Definition set_monitor (v : Z) (c : ctl_conn) : ctl_conn :=
  mk_ctl_conn v (iev c).
Definition set_iev (f : imsgev → imsgev) (c : ctl_conn) : ctl_conn :=
  mk_ctl_conn (monitor c) (f (iev c)).

Definition conn_fd (c : ctl_conn) : Z := ibuf_fd (iev c).
Definition conn_w (c : ctl_conn) : list out_imsg := ibuf_w (iev c).

(** [log_warn], [log_warnx], [log_debug]: the message is recorded. *)
Definition log_msg (t : string) (s : state) : state :=
  mk_state (control_state s) (ctl_conns s) (main s) (evs s) (errno s)
    (logged s ++ [t]).

(** ** What control.c takes from other files *)

(** The wire layout, from amused.h and the platform: the sizes the
    dispatcher compares [IMSG_DATA_SIZE] with, the reading of
    a payload of the right size as the structure that [memcpy] fills, and
    the request codes of [struct player_mode].  [new_mode] tests
    [MODE_UNDEF] and [MODE_TOGGLE] only; [MODE_SET] and [MODE_UNSET] name
    the codes a client sends to switch a mode on and off. *)
Class Abi : Type := {
  sizeof_mode : nat;
  sizeof_off : nat;
  sizeof_seek : nat;
  mode_of_bytes : list byte → player_mode;
  off_of_bytes : list byte → Z;
  seek_of_bytes : list byte → player_seek;
  MODE_UNDEF : Z;
  MODE_TOGGLE : Z;
  MODE_SET : Z;
  MODE_UNSET : Z
}.

(** The entry points of main.c and playlist.c that the dispatcher calls
    for the commands outside the transaction protocol.  They are taken as
    given: each one maps the state of the process to the state after the
    call; the [Z] argument is the fd of the connection whose [imsgev] the
    C function receives.  [enqueue_reply] is what [main_enqueue] queues on
    the requesting connection. *)
Class MainOps : Type := {
  main_playlist_resume : state → state;
  main_playlist_advance : state → state;
  main_playlist_previous : state → state;
  main_playlist_jump : Z → imsg → state → state;
  main_send_playlist : Z → state → state;
  main_send_status : Z → state → state;
  main_seek : player_seek → state → state;
  playlist_truncate : state → state;
  enqueue_reply : imsg → list out_imsg
}.

(** A NUL-terminated string inside a payload. *)
Fixpoint until_nul (b : list byte) : list byte :=
  match b with
  | [] => []
  | x :: r => if Byte.eqb x x00 then [] else x :: until_nul r
  end.

Definition cstring (b : list byte) : string :=
  String.string_of_list_byte (until_nul b).

(** *** The connection table *)

(** [control_connbyfd]: the first connection of the queue with this fd,
    [None] for the NULL that TAILQ_FOREACH leaves at the end. *)
Fixpoint control_connbyfd (fd : Z) (l : list ctl_conn) : option ctl_conn :=
  match l with
  | [] => None
  | c :: r => if decide (conn_fd c = fd) then Some c else control_connbyfd fd r
  end.

Fixpoint control_connbypid (pid : Z) (l : list ctl_conn) : option ctl_conn :=
  match l with
  | [] => None
  | c :: r =>
      if decide (ibuf_pid (iev c) = pid) then Some c else control_connbypid pid r
  end.

(** A write through the pointer [control_connbyfd] returned. *)
Fixpoint conn_update (fd : Z) (f : ctl_conn → ctl_conn) (l : list ctl_conn)
  : list ctl_conn :=
  match l with
  | [] => []
  | c :: r => if decide (conn_fd c = fd) then f c :: r else c :: conn_update fd f r
  end.

Fixpoint conn_update_pid (pid : Z) (f : ctl_conn → ctl_conn) (l : list ctl_conn)
  : list ctl_conn :=
  match l with
  | [] => []
  | c :: r =>
      if decide (ibuf_pid (iev c) = pid) then f c :: r
      else c :: conn_update_pid pid f r
  end.

(** TAILQ_REMOVE of that connection. *)
Fixpoint conn_remove (fd : Z) (l : list ctl_conn) : list ctl_conn :=
  match l with
  | [] => []
  | c :: r => if decide (conn_fd c = fd) then r else c :: conn_remove fd r
  end.

(** *** Framed IPC and event core *)

(** Modelled from the spec: [imsg_compose_event] of main.c is missing; the
    spec's compose "enqueues a message on the per-connection output
    buffer". *)
Definition imsg_compose_event (type : imsg_type) (peerid pid fd : Z)
    (data : payload) (i : imsgev) : imsgev :=
  mk_imsgev (ibuf_fd i) (ibuf_pid i)
    (ibuf_w i ++ [mk_out type peerid pid fd data]) (iev_events i).

(** [imsg_compose_event(&c->iev, ...)] for the connection with this fd. *)
Definition compose_on (cfd : Z) (type : imsg_type) (peerid pid fd : Z)
    (data : payload) (s : state) : state :=
  set_ctl_conns
    (conn_update cfd (set_iev (imsg_compose_event type peerid pid fd data))) s.

(** Modelled from the spec: [main_senderr] of main.c is missing; a
    transactional error is "returned as an Error frame on the originating
    connection". *)
Definition main_senderr (cfd : Z) (msg : string) (s : state) : state :=
  compose_on cfd IMSG_CTL_ERR 0 0 (-1) (P_text msg) s.

(** Modelled from the spec: [main_send_player] of main.c is missing;
    "player-bound messages are enqueued on output buffers", here the queue
    of the player socket. *)
Definition main_send_player (type : imsg_type) (fd : Z) (data : payload)
    (s : state) : state :=
  set_main (λ m, set_player_w (player_w m ++ [mk_out type 0 0 fd data]) m) s.

(** Modelled from the spec: ev.c is missing; the event core "registers
    fds with interest sets", and "supports one-shot timers".  [ev_add]
    registers or re-registers an fd, [ev_del] detaches it, [ev_timer] arms
    the timer or, called with NULL, disarms it. *)
Definition ev_add (fd events : Z) (h : handler) (s : state) : state :=
  set_evs (λ e, mk_ev (<[fd := (events, h)]> (ev_fds e)) (ev_tmr e)) s.

Definition ev_del (fd : Z) (s : state) : state :=
  set_evs (λ e, mk_ev (delete fd (ev_fds e)) (ev_tmr e)) s.

Definition ev_timer (t : option (timeval * handler)) (s : state) : state :=
  set_evs (λ e, mk_ev (ev_fds e) t) s.

Definition ev_timer_pending (s : state) : bool :=
  bool_decide (is_Some (ev_tmr (evs s))).

(** Modelled from the spec: [imsg_event_add] of main.c is missing; queued
    frames are drained "when the respective fd becomes writable", so the
    connection is registered for reading, and for writing while its queue
    is not empty. *)
Definition imsg_event_add (cfd : Z) (s : state) : state :=
  match control_connbyfd cfd (ctl_conns s) with
  | None => s
  | Some c =>
      let events := if decide (conn_w c = []) then POLLIN
                    else Z.lor POLLIN POLLOUT in
      ev_add cfd events H_control_dispatch_imsg
        (set_ctl_conns
           (conn_update cfd
              (set_iev (λ i, mk_imsgev (ibuf_fd i) (ibuf_pid i) (ibuf_w i) events)))
           s)
  end.

(** *** Playlists *)

(** Modelled from the spec: [playlist_free] of playlist.c is missing; the
    "scratch playlist [is] dropped". *)
Definition playlist_free (p : list string) : list string := [].

(** Modelled from the spec: [playlist_swap] of playlist.c is missing; it
    "splices transaction scratch into live playlist at offset semantics
    (negative = append, non-negative = replace-from-index)", the latter
    read as the design notes do: "replace from index to end".  For the
    cursor the data model of the spec applies: "append never invalidates
    the cursor; truncation to entries <= cursor resets cursor to -1 and
    forces stop".  A negative offset appends and keeps the cursor and the
    play state; another offset cuts the live playlist at that index
    first, and when the entry under the cursor is cut away (the offset is
    at or below the cursor) the cursor becomes -1 and the play state
    Stopped. *)
Definition playlist_swap (p : list string) (off : Z) (m : main_st) : main_st :=
  if decide (off < 0) then set_playlist (playlist m ++ p) m
  else
    let m' := set_playlist (take (Z.to_nat off) (playlist m) ++ p) m in
    if decide (off ≤ play_off m) then
      set_play_state STATE_STOPPED (set_play_off (-1) m')
    else m'.

(** Frames queued on the connection with this fd. *)
Definition reply_on (cfd : Z) (frames : list out_imsg) (s : state) : state :=
  set_ctl_conns
    (conn_update cfd
       (set_iev (λ i, mk_imsgev (ibuf_fd i) (ibuf_pid i)
                        (ibuf_w i ++ frames) (iev_events i)))) s.

(** Modelled from the spec: [playlist_enqueue] is declared in playlist.h,
    its body in playlist.c is missing; an Add outside a transaction is to
    "append directly to live playlist". *)
Definition playlist_enqueue (path : string) (m : main_st) : main_st :=
  set_playlist (playlist m ++ [path]) m.

(** Modelled from the spec: [main_enqueue] of main.c is missing; for an
    Add, "if a transaction is open: append path to transaction scratch
    [...]; else append directly to live playlist".  [px] is the scratch
    playlist passed by pointer; the result is the scratch after the call.
    What it answers to the client is [enqueue_reply]. *)
Definition main_enqueue `{MainOps} (tx : bool) (px : list string) (cfd : Z)
    (m : imsg) (s : state) : list string * state :=
  let path := cstring (imsg_data m) in
  if tx then (px ++ [path], reply_on cfd (enqueue_reply m) s)
  else (px, reply_on cfd (enqueue_reply m) (set_main (playlist_enqueue path) s)).

(** ** What the operating system answers *)

(** One complete frame pulled by [imsg_get], or its [-1] for a frame that
    cannot be parsed. *)
Inductive frame : Type := Frame (m : imsg) | Corrupt.

(** The results of the system and library calls of one callback: the
    value returned and, where the call sets it, [errno]. *)
Record os_io : Type := mk_io {
  io_accept : Z * option errno_t;     (* accept4 *)
  io_peer_pid : Z;                    (* pid recorded for the new client *)
  io_calloc : bool;                   (* calloc returned non-NULL *)
  io_read : Z * option errno_t;       (* imsg_read *)
  io_write : Z * option errno_t;      (* msgbuf_write *)
  io_sent : nat;                      (* frames msgbuf_write wrote out *)
  io_frames : list frame              (* what imsg_get yields, in order *)
}.

Definition sets_errno (r : Z * option errno_t) (s : state) : state :=
  match r.2 with Some e => set_errno e s | None => s end.

(** A process either goes on in a new state or dies in [fatalx]. *)
Inductive outcome : Type :=
| Running (ret : Z) (s : state)
| Fatal (msg : string).

(** ** control.c *)

Section Control.
Context `{!Abi, !MainOps}.

(** [enable_accept]: the arguments are ignored. *)
Definition enable_accept (s : state) : state :=
  ev_add (cs_fd (control_state s)) POLLIN H_control_accept s.

(** [control_listen]; [listen_ret] is what listen(2) returns. *)
Definition control_listen (fd : Z) (listen_ret : Z) (s : state) : outcome :=
  if decide (cs_fd (control_state s) ≠ -1) then
    Fatal "control_listen: received unexpected controlsock"
  else
    let s1 := set_control_state (set_cs_fd fd) s in
    if decide (listen_ret = -1) then
      Running (-1) (log_msg "control_listen: listen" s1)
    else Running 0 (enable_accept s1).

Definition evtpause : timeval := mk_timeval 1 0.

(** [control_accept]. *)
Definition control_accept (listenfd : Z) (io : os_io) (s : state) : state :=
  let connfd := (io_accept io).1 in
  if decide (connfd = -1) then
    let s1 := sets_errno (io_accept io) s in
    if decide (errno s1 = ENFILE ∨ errno s1 = EMFILE) then
      ev_timer (Some (evtpause, H_enable_accept))
        (ev_del (cs_fd (control_state s1)) s1)
    else if decide (errno s1 ≠ EWOULDBLOCK ∧ errno s1 ≠ EINTR ∧
                    errno s1 ≠ ECONNABORTED) then
      log_msg "control_accept: accept4" s1
    else s1
  else if negb (io_calloc io) then
    log_msg "control_accept: calloc" s
  else
    let c := mk_ctl_conn 0 (mk_imsgev connfd (io_peer_pid io) [] POLLIN) in
    set_ctl_conns (λ l, l ++ [c])
      (ev_add connfd POLLIN H_control_dispatch_imsg s).

(** [control_close]. *)
Definition control_close (fd : Z) (s : state) : state :=
  match control_connbyfd fd (ctl_conns s) with
  | None => log_msg "control_close: fd not found" s
  | Some c =>
      (* abort the transaction if running by this user *)
      let s1 :=
        if decide (cs_tx (control_state s) ≠ -1 ∧
                   conn_fd c = cs_tx (control_state s)) then
          set_control_state
            (λ cs, set_cs_tx (-1) (set_cs_play (playlist_free (cs_play cs)) cs)) s
        else s in
      let s2 := set_ctl_conns (conn_remove fd) s1 in
      let s3 := ev_del (conn_fd c) s2 in
      (* Some file descriptors are available again. *)
      if ev_timer_pending s3 then
        ev_add (cs_fd (control_state s3)) POLLIN H_control_accept
          (ev_timer None s3)
      else s3
  end.

(** [control_notify]. *)
Definition notify_event (type : imsg_type) (m : main_st) : player_event :=
  mk_player_event type (current_position m) (current_duration m)
    (mk_player_mode (repeat_one m) (repeat_all m) (consume m)).

Definition notify_conn (ev : player_event) (c : ctl_conn) : ctl_conn :=
  if decide (monitor c = 0) then c
  else set_iev (imsg_compose_event IMSG_CTL_MONITOR 0 0 (-1) (P_event ev)) c.

Definition control_notify (type : imsg_type) (s : state) : state :=
  set_ctl_conns (map (notify_conn (notify_event type (main s)))) s.

(** C's [!val]. *)
Definition lnot (v : Z) : Z := if decide (v = 0) then 1 else 0.

(** [new_mode]. *)
Definition new_mode (val newval : Z) : Z :=
  if decide (newval = MODE_UNDEF) then val
  else if decide (newval = MODE_TOGGLE) then lnot val
  else lnot (lnot newval).

(** The body of the [switch] of [control_dispatch_imsg] for one frame
    [m]; [fd] is [c->iev.ibuf.fd] of the connection [c] that
    [control_connbyfd(fd)] found, and a write to [c] is a write to the
    first connection of the table with that fd. *)
Definition dispatch_case (fd : Z) (m : imsg) (s : state) : state :=
  let tx := cs_tx (control_state s) in
  match hdr_type m with
  | IMSG_CTL_PLAY =>
      control_notify IMSG_CTL_PLAY
        match play_state (main s) with
        | STATE_STOPPED => main_playlist_resume s
        | STATE_PLAYING => s
        | STATE_PAUSED =>
            main_send_player IMSG_RESUME (-1) P_null
              (set_main (set_play_state STATE_PLAYING) s)
        end
  | IMSG_CTL_TOGGLE_PLAY =>
      match play_state (main s) with
      | STATE_STOPPED => main_playlist_resume (control_notify IMSG_CTL_PLAY s)
      | STATE_PLAYING =>
          main_send_player IMSG_PAUSE (-1) P_null
            (set_main (set_play_state STATE_PAUSED)
               (control_notify IMSG_CTL_PAUSE s))
      | STATE_PAUSED =>
          main_send_player IMSG_RESUME (-1) P_null
            (set_main (set_play_state STATE_PLAYING)
               (control_notify IMSG_CTL_PLAY s))
      end
  | IMSG_CTL_PAUSE =>
      if decide (play_state (main s) ≠ STATE_PLAYING) then s
      else
        control_notify IMSG_CTL_PAUSE
          (main_send_player IMSG_PAUSE (-1) P_null
             (set_main (set_play_state STATE_PAUSED) s))
  | IMSG_CTL_STOP =>
      if decide (play_state (main s) = STATE_STOPPED) then s
      else
        control_notify IMSG_CTL_STOP
          (main_send_player IMSG_STOP (-1) P_null
             (set_main (set_play_state STATE_STOPPED) s))
  | IMSG_CTL_FLUSH => control_notify IMSG_CTL_COMMIT (playlist_truncate s)
  | IMSG_CTL_SHOW => main_send_playlist fd s
  | IMSG_CTL_STATUS => main_send_status fd s
  | IMSG_CTL_NEXT =>
      main_playlist_advance
        (main_send_player IMSG_STOP (-1) P_null (control_notify IMSG_CTL_NEXT s))
  | IMSG_CTL_PREV =>
      main_playlist_previous
        (main_send_player IMSG_STOP (-1) P_null (control_notify IMSG_CTL_PREV s))
  | IMSG_CTL_JUMP => main_playlist_jump fd m s
  | IMSG_CTL_MODE =>
      if decide (IMSG_DATA_SIZE m ≠ sizeof_mode) then
        log_msg "control_dispatch_imsg: got wrong size" s
      else
        let mode := mode_of_bytes (imsg_data m) in
        control_notify IMSG_CTL_MODE
          (set_main
             (λ ms,
                let co := new_mode (consume ms) (pm_consume mode) in
                let ra := new_mode (repeat_all ms) (pm_repeat_all mode) in
                let r1 := new_mode (repeat_one ms) (pm_repeat_one mode) in
                set_modes r1 ra co ms) s)
  | IMSG_CTL_BEGIN =>
      if decide (tx ≠ -1) then main_senderr fd "locked" s
      else
        compose_on fd IMSG_CTL_BEGIN 0 0 (-1) P_null
          (set_control_state (set_cs_tx fd) s)
  | IMSG_CTL_ADD =>
      if decide (tx ≠ -1 ∧ tx ≠ fd) then main_senderr fd "locked" s
      else
        let '(px, s1) :=
          main_enqueue (bool_decide (tx ≠ -1)) (cs_play (control_state s)) fd m s in
        let s2 := set_control_state (set_cs_play px) s1 in
        if decide (cs_tx (control_state s2) = -1) then
          control_notify IMSG_CTL_ADD s2
        else s2
  | IMSG_CTL_COMMIT =>
      if decide (tx ≠ fd) then main_senderr fd "locked" s
      else if decide (IMSG_DATA_SIZE m ≠ sizeof_off) then
        main_senderr fd "wrong size" s
      else
        let off := off_of_bytes (imsg_data m) in
        let s1 := set_main (playlist_swap (cs_play (control_state s)) off) s in
        let s2 := set_control_state (set_cs_play []) s1 in
        let s3 := set_control_state (set_cs_tx (-1)) s2 in
        control_notify IMSG_CTL_COMMIT
          (compose_on fd IMSG_CTL_COMMIT 0 0 (-1) P_null s3)
  | IMSG_CTL_MONITOR => set_ctl_conns (conn_update fd (set_monitor 1)) s
  | IMSG_CTL_SEEK =>
      if decide (IMSG_DATA_SIZE m ≠ sizeof_seek) then
        main_senderr fd "wrong size" s
      else main_seek (seek_of_bytes (imsg_data m)) s
  | _ => log_msg "control_dispatch_imsg: error handling imsg" s
  end.

(** The [for (;;)] loop over [imsg_get]: a frame that cannot be parsed
    closes the connection and returns; when no frame is left the loop is
    left and [imsg_event_add] re-registers the connection. *)
Fixpoint dispatch_loop (fd : Z) (frames : list frame) (s : state) : state :=
  match frames with
  | [] => imsg_event_add fd s
  | Corrupt :: _ => control_close fd s
  | Frame m :: rest => dispatch_loop fd rest (dispatch_case fd m s)
  end.

(** [msgbuf_write] on success: the frames written leave the queue. *)
Definition msgbuf_sent (fd : Z) (io : os_io) (s : state) : state :=
  if decide (0 < (io_write io).1) then
    set_ctl_conns
      (conn_update fd
         (set_iev (λ i, mk_imsgev (ibuf_fd i) (ibuf_pid i)
                          (drop (io_sent io) (ibuf_w i)) (iev_events i)))) s
  else s.

(** [control_dispatch_imsg]. *)
Definition control_dispatch_imsg (fd event : Z) (io : os_io) (s : state) : state :=
  match control_connbyfd fd (ctl_conns s) with
  | None => log_msg "control_dispatch_imsg: fd not found" s
  | Some c =>
      let pollin := bool_decide (Z.land event POLLIN ≠ 0) in
      let pollout := bool_decide (Z.land event POLLOUT ≠ 0) in
      let n := (io_read io).1 in
      let s1 := if pollin then sets_errno (io_read io) s else s in
      if pollin &&
         bool_decide ((n = -1 ∧ errno s1 ≠ EAGAIN) ∨ n = 0) then
        control_close fd s1
      else
        let w := (io_write io).1 in
        let s2 := if pollout then msgbuf_sent fd io (sets_errno (io_write io) s1)
                  else s1 in
        if pollout && bool_decide (w ≤ 0 ∧ errno s2 ≠ EAGAIN) then
          control_close fd s2
        else dispatch_loop fd (io_frames io) s2
  end.

(** [control_imsg_relay]. *)
Definition control_imsg_relay (m : imsg) (s : state) : state :=
  match control_connbypid (hdr_pid m) (ctl_conns s) with
  | None => s
  | Some c =>
      set_ctl_conns
        (conn_update_pid (hdr_pid m)
           (set_iev (imsg_compose_event (hdr_type m) 0 (hdr_pid m) (-1)
                       (P_raw (imsg_data m))))) s
  end.

End Control.

(** ** The event loop of the main process *)

Definition conn_fds (s : state) : list Z := map conn_fd (ctl_conns s).

(** [s'] differs from [s] in nothing control.c owns: same [control_state],
    same connections by fd, same timer, same registration of the
    listening socket. *)
Definition ctl_same (s s' : state) : Prop :=
  control_state s' = control_state s ∧
  conn_fds s' = conn_fds s ∧
  ev_tmr (evs s') = ev_tmr (evs s) ∧
  ev_fds (evs s') !! cs_fd (control_state s)
    = ev_fds (evs s) !! cs_fd (control_state s).

(** The same, but for the transaction fields of [control_state]. *)
Definition ev_same (s s' : state) : Prop :=
  cs_fd (control_state s') = cs_fd (control_state s) ∧
  conn_fds s' = conn_fds s ∧
  ev_tmr (evs s') = ev_tmr (evs s) ∧
  ev_fds (evs s') !! cs_fd (control_state s)
    = ev_fds (evs s) !! cs_fd (control_state s).

Section Loop.
Context `{!Abi, !MainOps}.

(** What can happen to the daemon once the control socket listens: an fd
    of the event core is ready, the timer expires, or main.c acts on its
    own (a player event changes its globals, is broadcast with
    [control_notify] or relayed with [control_imsg_relay]). *)
Inductive event : Type :=
| EvReady (fd revents : Z) (io : os_io)
| EvTimeout (io : os_io)
| EvMain (g : main_st → main_st)
| EvNotify (type : imsg_type)
| EvRelay (m : imsg).

Definition run_handler (h : handler) (fd revents : Z) (io : os_io) (s : state)
  : state :=
  match h with
  | H_control_accept => control_accept fd io s
  | H_control_dispatch_imsg => control_dispatch_imsg fd revents io s
  | H_enable_accept => enable_accept s
  end.

(** One turn of the loop.  A ready fd runs the callback it is registered
    with; the timer is one-shot: it is disarmed, then its callback runs. *)
Definition step (e : event) (s : state) : state :=
  match e with
  | EvReady fd revents io =>
      match ev_fds (evs s) !! fd with
      | Some (_, h) => run_handler h fd revents io s
      | None => s
      end
  | EvTimeout io =>
      match ev_tmr (evs s) with
      | Some (_, h) => run_handler h (-1) 0 io (ev_timer None s)
      | None => s
      end
  | EvMain g => set_main g s
  | EvNotify type => control_notify type s
  | EvRelay m => control_imsg_relay m s
  end.

(** What the operating system guarantees of accept4: the descriptor it
    returns is non-negative and is none of the descriptors the process
    holds open. *)
Definition accept_fresh (s : state) (io : os_io) : Prop :=
  let connfd := (io_accept io).1 in
  connfd = -1 ∨
  (0 ≤ connfd ∧ connfd ≠ cs_fd (control_state s) ∧ connfd ∉ conn_fds s).

Definition os_ok (s : state) (e : event) : Prop :=
  match e with
  | EvReady _ _ io | EvTimeout io => accept_fresh s io
  | _ => True
  end.

(** The states of a daemon that listens on [lfd]. *)
Inductive reachable (lfd : Z) : state → Prop :=
| reach_listen m r s :
    control_listen lfd r (boot m) = Running 0 s → reachable lfd s
| reach_step s e :
    reachable lfd s → os_ok s e → reachable lfd (step e s).

(** What is assumed of the entry points of main.c: they have no access to
    [control_state] (its type has no name outside control.c), they do not
    add or remove connections, and they leave the timer and the
    registration of the listening socket alone. *)
Definition keeps_control (f : state → state) : Prop :=
  ∀ s, ctl_same s (f s).

Class MainOpsFrame : Prop := {
  resume_keeps : keeps_control main_playlist_resume;
  advance_keeps : keeps_control main_playlist_advance;
  previous_keeps : keeps_control main_playlist_previous;
  jump_keeps : ∀ fd m, keeps_control (main_playlist_jump fd m);
  send_playlist_keeps : ∀ fd, keeps_control (main_send_playlist fd);
  send_status_keeps : ∀ fd, keeps_control (main_send_status fd);
  seek_keeps : ∀ k, keeps_control (main_seek k);
  truncate_keeps : keeps_control playlist_truncate
}.

End Loop.

(** ** A concrete platform

    A little-endian LP64 layout with 4-byte [int]s, used to run the
    dispatcher on explicit inputs. *)

Fixpoint le_unsigned (b : list byte) : Z :=
  match b with
  | [] => 0
  | x :: r => Z.of_N (Byte.to_N x) + 256 * le_unsigned r
  end.

(** A [w]-byte little-endian two's complement integer. *)
Definition le_signed (w : nat) (b : list byte) : Z :=
  let u := le_unsigned (take w b) in
  let m := 2 ^ (8 * Z.of_nat w) in
  if decide (u < m / 2) then u else u - m.

Definition lp64_mode (b : list byte) : player_mode :=
  mk_player_mode (le_signed 4 b) (le_signed 4 (drop 4 b)) (le_signed 4 (drop 8 b)).

Definition lp64_seek (b : list byte) : player_seek :=
  mk_player_seek (le_signed 8 b) (le_signed 4 (drop 8 b)) (le_signed 4 (drop 12 b)).

Definition lp64 : Abi := {|
  sizeof_mode := 12;
  sizeof_off := 8;
  sizeof_seek := 16;
  mode_of_bytes := lp64_mode;
  off_of_bytes := le_signed 8;
  seek_of_bytes := lp64_seek;
  MODE_UNDEF := -1;
  MODE_TOGGLE := -2;
  MODE_SET := 1;
  MODE_UNSET := 0
|}.

(** Collaborators that do nothing, to run the transaction protocol alone. *)
Definition idle_main : MainOps := {|
  main_playlist_resume := id;
  main_playlist_advance := id;
  main_playlist_previous := id;
  main_playlist_jump := λ _ _, id;
  main_send_playlist := λ _, id;
  main_send_status := λ _, id;
  main_seek := λ _, id;
  playlist_truncate := id;
  enqueue_reply := λ m, [mk_out IMSG_CTL_ADD 0 0 (-1) (P_raw (imsg_data m))]
|}.

(** ** Vocabulary of the properties *)

(** The frames waiting on the connection with this fd. *)
Definition wq (fd : Z) (s : state) : option (list out_imsg) :=
  conn_w <$> control_connbyfd fd (ctl_conns s).

Definition err_frame (msg : string) : out_imsg :=
  mk_out IMSG_CTL_ERR 0 0 (-1) (P_text msg).

(** An acknowledgement: the command's type with an empty payload. *)
Definition ack_frame (type : imsg_type) : out_imsg :=
  mk_out type 0 0 (-1) P_null.

Definition monitor_frame (ev : player_event) : out_imsg :=
  mk_out IMSG_CTL_MONITOR 0 0 (-1) (P_event ev).

(** The transaction: its owner and its scratch playlist. *)
Definition tx_owner (s : state) : Z := cs_tx (control_state s).
Definition tx_scratch (s : state) : list string := cs_play (control_state s).
Definition tx_open (s : state) : Prop := tx_owner s ≠ -1.

Definition transactional (t : imsg_type) : Prop :=
  t = IMSG_CTL_BEGIN ∨ t = IMSG_CTL_ADD ∨ t = IMSG_CTL_COMMIT.

(** The listening socket is in the readable set of the event core. *)
Definition listener_attached (s : state) : Prop :=
  ev_fds (evs s) !! cs_fd (control_state s) = Some (POLLIN, H_control_accept).

Definition accept_paused (s : state) : Prop :=
  ev_tmr (evs s) = Some (evtpause, H_enable_accept).

(** What a broadcast adds to a queue. *)
Definition heard (ev : player_event) (c : ctl_conn) : list out_imsg :=
  if decide (monitor c = 0) then [] else [monitor_frame ev].

(** A connection after a broadcast of [ev]: one more frame if it
    monitors, the same record if not. *)
Definition notified (ev : player_event) (c c' : ctl_conn) : Prop :=
  if decide (monitor c = 0) then c' = c
  else c' = mk_ctl_conn (monitor c)
              (mk_imsgev (ibuf_fd (iev c)) (ibuf_pid (iev c))
                 (ibuf_w (iev c) ++ [monitor_frame ev]) (iev_events (iev c))).

(** The messages of one connection handled one after the other. *)
Definition run_cases `{!Abi, !MainOps} (fd : Z) (ms : list imsg) (s : state)
  : state :=
  foldl (λ s m, dispatch_case fd m s) s ms.

(** Commands of several connections, each with the fd of its sender,
    handled in the order the dispatcher takes them. *)
Definition run_mixed `{!Abi, !MainOps} (l : list (Z * imsg)) (s : state)
  : state :=
  foldl (λ s xm, dispatch_case xm.1 xm.2 s) s l.

(** A Commit of [fd] with a payload of the size of an offset. *)
Definition commits `{!Abi} (fd : Z) (xm : Z * imsg) : Prop :=
  xm.1 = fd ∧ hdr_type xm.2 = IMSG_CTL_COMMIT ∧
  IMSG_DATA_SIZE xm.2 = sizeof_off.

(** The paths of the Adds that [fd] sends in such a run, in order. *)
Definition paths_added (fd : Z) (l : list (Z * imsg)) : list string :=
  map (λ xm, cstring (imsg_data xm.2))
    (filter (λ xm, xm.1 = fd ∧ hdr_type xm.2 = IMSG_CTL_ADD) l).

(** The cursor of the live playlist is -1 or the index of an entry. *)
Definition cursor_valid (m : main_st) : Prop :=
  play_off m = -1 ∨ 0 ≤ play_off m < Z.of_nat (length (playlist m)).

(** What holds of the control endpoint in every state of a daemon that
    listens on [lfd]. *)
Record control_inv (lfd : Z) (s : state) : Prop := mk_control_inv {
  inv_lfd : cs_fd (control_state s) = lfd;
  inv_fds : Forall (λ fd, 0 ≤ fd ∧ fd ≠ lfd) (conn_fds s);
  inv_nodup : NoDup (conn_fds s);
  inv_owner : tx_owner s = -1 ∨ tx_owner s ∈ conn_fds s;
  inv_scratch : tx_owner s = -1 → tx_scratch s = [];
  inv_timer : ev_tmr (evs s) = None ∨ accept_paused s;
  inv_listener : listener_attached s ∨ accept_paused s
}.

(** The branches of [control_dispatch_imsg] in which a transactional
    command is refused, with the text of the error. *)
Inductive tx_fails `{!Abi} (fd : Z) (m : imsg) (s : state) : string → Prop :=
| begin_locked :
    hdr_type m = IMSG_CTL_BEGIN → tx_open s → tx_fails fd m s "locked"
| add_locked :
    hdr_type m = IMSG_CTL_ADD → tx_open s → tx_owner s ≠ fd →
    tx_fails fd m s "locked"
| commit_locked :
    hdr_type m = IMSG_CTL_COMMIT → tx_owner s ≠ fd → tx_fails fd m s "locked"
| commit_wrong_size :
    hdr_type m = IMSG_CTL_COMMIT → tx_owner s = fd →
    IMSG_DATA_SIZE m ≠ sizeof_off → tx_fails fd m s "wrong size".

(** What [new_mode] relies on in amused.h: the request codes are distinct
    from the two it tests, and "off" is the integer zero, "on" is not
    (the last line of [new_mode] returns [!!newval]). *)
Definition mode_codes_ok `{!Abi} : Prop :=
  MODE_UNSET = 0 ∧ MODE_SET ≠ 0 ∧ MODE_TOGGLE ≠ MODE_UNDEF ∧
  MODE_SET ≠ MODE_UNDEF ∧ MODE_SET ≠ MODE_TOGGLE ∧
  MODE_UNSET ≠ MODE_UNDEF ∧ MODE_UNSET ≠ MODE_TOGGLE.

(** A Mode request that leaves the three modes alone. *)
Definition leave_all `{!Abi} : player_mode :=
  mk_player_mode MODE_UNDEF MODE_UNDEF MODE_UNDEF.

(** The splice the spec gives to Commit: a negative offset appends the
    scratch playlist, another one replaces the live playlist from that
    index on. *)
Definition spliced (live scratch : list string) (off : Z) : list string :=
  if decide (off < 0) then live ++ scratch
  else take (Z.to_nat off) live ++ scratch.




(** ** A session to run the model on *)

Section Session.
#[local] Existing Instance lp64.
#[local] Existing Instance idle_main.

Definition ex_main : main_st :=
  mk_main ["/a.ogg"] (-1) STATE_STOPPED 0 0 0 0 0 [].

(** accept4 returns [connfd]. *)
Definition ex_accept (connfd pid : Z) : os_io :=
  mk_io (connfd, None) pid true (0, None) (0, None) 0 [].

(** accept4 fails with [e]. *)
Definition ex_accept_fails (e : errno_t) : os_io :=
  mk_io (-1, Some e) 0 true (0, None) (0, None) 0 [].

(** A read that brings these frames. *)
Definition ex_read (frames : list frame) : os_io :=
  mk_io (-1, None) 0 true (1, None) (0, None) 0 frames.

(** The daemon listens on fd 3. *)
Definition ex_listening : state :=
  enable_accept (set_control_state (set_cs_fd 3) (boot ex_main)).

(** Two clients connect, on fds 5 and 6. *)
Definition ex_two_clients : state :=
  step (EvReady 3 POLLIN (ex_accept 6 101))
    (step (EvReady 3 POLLIN (ex_accept 5 100)) ex_listening).

Definition ex_begin : imsg := mk_imsg IMSG_CTL_BEGIN 100 [].
Definition ex_add_x : imsg := mk_imsg IMSG_CTL_ADD 100 ["/"; "x"; x00]%byte.
Definition ex_add_y : imsg := mk_imsg IMSG_CTL_ADD 100 ["/"; "y"; x00]%byte.
Definition ex_commit_append : imsg :=
  mk_imsg IMSG_CTL_COMMIT 100 [xff; xff; xff; xff; xff; xff; xff; xff].
Definition ex_commit_short : imsg := mk_imsg IMSG_CTL_COMMIT 100 [xff].
Definition ex_pause : imsg := mk_imsg IMSG_CTL_PAUSE 100 [].

(** Mode requests: toggle repeat_one, set repeat_all, leave consume; and
    one without payload. *)
Definition ex_mode : imsg :=
  mk_imsg IMSG_CTL_MODE 100
    [xfe; xff; xff; xff; x01; x00; x00; x00; xff; xff; xff; xff].
Definition ex_unknown : imsg := mk_imsg (IMSG_OTHER 4242) 100 [].

(** Client 5 monitors and holds the transaction. *)
Definition ex_in_transaction : state :=
  step (EvReady 5 POLLIN
          (ex_read [Frame (mk_imsg IMSG_CTL_MONITOR 100 []); Frame ex_begin]))
    ex_two_clients.

(** The records of the two clients after accept, and of client 5 once it
    monitors and holds the transaction. *)
Definition ex_conn5 : ctl_conn := mk_ctl_conn 0 (mk_imsgev 5 100 [] POLLIN).
Definition ex_conn6 : ctl_conn := mk_ctl_conn 0 (mk_imsgev 6 101 [] POLLIN).
Definition ex_owner5 : ctl_conn :=
  mk_ctl_conn 1
    (mk_imsgev 5 100 [ack_frame IMSG_CTL_BEGIN] (Z.lor POLLIN POLLOUT)).

End Session.

(** ** control.c: [control_init] *)

(** The system calls [control_init] makes, with their arguments. *)
Inductive syscall : Type :=
| Sys_socket
| Sys_getfl (fd : Z)
| Sys_setfl (fd flags : Z)
| Sys_setfd (fd flag : Z)
| Sys_unlink (path : string)
| Sys_umask (mask : Z)
| Sys_bind (fd : Z) (sun_path : string)
| Sys_chmod (path : string) (mode : Z)
| Sys_close (fd : Z).

Global Instance syscall_eq_dec : EqDecision syscall.
Proof. solve_decision. Defined.

(** What the calls return: the descriptor from socket, the flags from
    fcntl(F_GETFL), the results of the other two fcntl, of unlink with the
    errno it leaves, the mask that was in force (returned by the first
    umask), the results of bind and chmod. *)
Record init_io : Type := mk_init_io {
  ii_socket : Z;
  ii_getfl : Z;
  ii_setfl : Z;
  ii_setfd : Z;
  ii_unlink : Z * errno_t;
  ii_umask : Z;
  ii_bind : Z;
  ii_chmod : Z
}.

(** [control_init] returns with the calls it made and what it logged, or
    dies in [fatal]. *)
Inductive init_result : Type :=
| Init_return (ret : Z) (calls : list syscall) (log : list string)
| Init_fatal (msg : string) (calls : list syscall).

Definition ENOENT : errno_t := E_OTHER 2.
Definition O_NONBLOCK : Z := 4.
Definition FD_CLOEXEC : Z := 1.

(** The permission bits of sys/stat.h. *)
Definition S_IRUSR : Z := 256.
Definition S_IWUSR : Z := 128.
Definition S_IXUSR : Z := 64.
Definition S_IRGRP : Z := 32.
Definition S_IWGRP : Z := 16.
Definition S_IXGRP : Z := 8.
Definition S_IROTH : Z := 4.
Definition S_IWOTH : Z := 2.
Definition S_IXOTH : Z := 1.

Definition init_umask : Z :=
  Z.lor S_IXUSR (Z.lor S_IXGRP (Z.lor S_IWOTH (Z.lor S_IROTH S_IXOTH))).
Definition init_mode : Z :=
  Z.lor S_IRUSR (Z.lor S_IWUSR (Z.lor S_IRGRP S_IWGRP)).

(** [strlcpy(dst, src, size)]: at most [size - 1] characters are copied. *)
Definition strlcpy (size : nat) (src : string) : string :=
  String.substring 0 (size - 1) src.

(** [control_init]; [sun_path_size] is [sizeof(sun.sun_path)]. *)
Definition control_init (sun_path_size : nat) (path : string) (io : init_io)
  : init_result :=
  let fd := ii_socket io in
  if decide (fd = -1) then
    Init_return (-1) [Sys_socket] ["control_init: socket"]
  else
    let flags := ii_getfl io in
    if decide (flags = -1) then
      Init_fatal "fcntl(O_NONBLOCK)" [Sys_socket; Sys_getfl fd]
    else if decide (ii_setfl io = -1) then
      Init_fatal "fcntl(O_NONBLOCK)"
        [Sys_socket; Sys_getfl fd; Sys_setfl fd (Z.lor flags O_NONBLOCK)]
    else if decide (ii_setfd io = -1) then
      Init_fatal "fcntl(CLOEXEC)"
        [Sys_socket; Sys_getfl fd; Sys_setfl fd (Z.lor flags O_NONBLOCK);
         Sys_setfd fd FD_CLOEXEC]
    else
      let t1 := [Sys_socket; Sys_getfl fd;
                 Sys_setfl fd (Z.lor flags O_NONBLOCK);
                 Sys_setfd fd FD_CLOEXEC; Sys_unlink path] in
      if decide ((ii_unlink io).1 = -1 ∧ (ii_unlink io).2 ≠ ENOENT) then
        Init_return (-1) (t1 ++ [Sys_close fd]) ["control_init: unlink"]
      else
        let t2 := t1 ++ [Sys_umask init_umask;
                         Sys_bind fd (strlcpy sun_path_size path)] in
        if decide (ii_bind io = -1) then
          Init_return (-1) (t2 ++ [Sys_close fd; Sys_umask (ii_umask io)])
            ["control_init: bind"]
        else
          let t3 := t2 ++ [Sys_umask (ii_umask io);
                           Sys_chmod path init_mode] in
          if decide (ii_chmod io = -1) then
            Init_return (-1) (t3 ++ [Sys_close fd; Sys_unlink path])
              ["control_init: chmod"]
          else Init_return fd t3 [].

(** The umask calls of a run, in order. *)
Definition umask_calls (calls : list syscall) : list Z :=
  omap (λ c, match c with Sys_umask m => Some m | _ => None end) calls.

(** ** The FLAC write callback ([writecb]) *)

Inductive write_status : Type :=
| WRITE_STATUS_CONTINUE | WRITE_STATUS_ABORT.

(** The static [buf], the index [len] and the blocks handed to
    [sio_write] so far. *)
Record pcm_out : Type := mk_pcm {
  pcm_buf : list Z;
  pcm_len : nat;
  pcm_written : list (list Z)
}.

(** [buf[i] = v]; a store outside the array has no meaning in C. *)
Definition store (i : nat) (v : Z) (buf : list Z) : option (list Z) :=
  if decide (i < length buf)%nat then Some (<[i := v]> buf) else None.

(** The four bytes stored for the sample pair [(l, r)]. *)
Definition sample_bytes (l r : Z) : list Z :=
  [Z.land l 255; Z.land (Z.shiftr l 8) 255;
   Z.land r 255; Z.land (Z.shiftr r 8) 255].

(** One turn of the [for] loop: the flush when [len + 4 >= sizeof(buf)],
    then the four stores. *)
Definition writecb_body (l r : Z) (st : pcm_out) : option pcm_out :=
  let st1 :=
    if decide (length (pcm_buf st) ≤ pcm_len st + 4)%nat then
      mk_pcm (pcm_buf st) 0
        (pcm_written st ++ [take (pcm_len st) (pcm_buf st)])
    else st in
  let len := pcm_len st1 in
  b1 ← store len (Z.land l 255) (pcm_buf st1);
  b2 ← store (len + 1) (Z.land (Z.shiftr l 8) 255) b1;
  b3 ← store (len + 2) (Z.land r 255) b2;
  b4 ← store (len + 3) (Z.land (Z.shiftr r 8) 255) b3;
  Some (mk_pcm b4 (len + 4) (pcm_written st1)).

(** The loop from index [i] for [n] more samples; [ch0] and [ch1] are
    [buffer[0]] and [buffer[1]], read at [i]. *)
Fixpoint writecb_loop (ch0 ch1 : list Z) (n i : nat) (st : pcm_out)
  : option pcm_out :=
  match n with
  | O => Some st
  | S n' =>
      l ← ch0 !! i;
      r ← ch1 !! i;
      st' ← writecb_body l r st;
      writecb_loop ch0 ch1 n' (S i) st'
  end.

(** [writecb]: the status returned, [buf] after the call and the blocks
    written with [sio_write]; [shouldstop] is what [player_shouldstop()]
    answers, [blocksize] is [frame->header.blocksize]. *)
Definition writecb (shouldstop : bool) (blocksize : nat) (ch0 ch1 buf : list Z)
  : option (write_status * list Z * list (list Z)) :=
  if shouldstop then Some (WRITE_STATUS_ABORT, buf, [])
  else
    st ← writecb_loop ch0 ch1 blocksize 0 (mk_pcm buf 0 []);
    Some (WRITE_STATUS_CONTINUE, pcm_buf st,
          if decide (pcm_len st ≠ 0%nat) then
            pcm_written st ++ [take (pcm_len st) (pcm_buf st)]
          else pcm_written st).

(** The sample pairs of a block, as the device is to hear them. *)
Fixpoint interleave (ch0 ch1 : list Z) : list Z :=
  match ch0, ch1 with
  | l :: ch0', r :: ch1' => sample_bytes l r ++ interleave ch0' ch1'
  | _, _ => []
  end.

(** A little-endian 16-bit two's complement sample. *)
Definition s16_of_bytes (lo hi : Z) : Z :=
  let u := lo + 256 * hi in
  if decide (u < 32768) then u else u - 65536.

(** ** The Ogg Vorbis player ([play_oggvorbis]) *)

Inductive ogg_call : Type :=
| Og_fdopen (fd : Z)
| Og_open
| Og_info
| Og_setup (bits rate channels : Z)
| Og_read
| Og_play (n : Z)
| Og_clear
| Og_fclose
| Og_warnx.

Global Instance ogg_call_eq_dec : EqDecision ogg_call.
Proof. solve_decision. Defined.

(** What the collaborators answer: whether [fdopen] gives a stream, the
    result of [ov_open_callbacks], the rate and channels of [ov_info], the
    result of [player_setup], the successive results of [ov_read] and of
    [play] (by call number). *)
Record ogg_io : Type := mk_ogg_io {
  og_fdopen : bool;
  og_open : Z;
  og_rate : Z;
  og_channels : Z;
  og_setup : Z;
  og_reads : list Z;
  og_play : nat → Z
}.

Inductive ogg_result : Type :=
| Ogg_return (ret : Z) (calls : list ogg_call)
| Ogg_exit (code : Z) (msg : string) (calls : list ogg_call).

(** The [while (!eof)] loop; [k] counts the calls of [play].  The [ret]
    of the loop is a [long] declared inside it: the [ret = 1] before
    [break] is lost when the loop is left.  [None]: the answers of
    [ov_read] run out before the loop ends. *)
Fixpoint ogg_loop (reads : list Z) (k : nat) (play : nat → Z)
    (calls : list ogg_call) : option (list ogg_call) :=
  match reads with
  | [] => None
  | r :: rest =>
      if decide (r = 0) then Some (calls ++ [Og_read])
      else if decide (0 < r) then
        if decide (play k = 0) then Some (calls ++ [Og_read; Og_play r])
        else ogg_loop rest (S k) play (calls ++ [Og_read; Og_play r])
      else ogg_loop rest k play (calls ++ [Og_read])
  end.

(** [play_oggvorbis]. *)
Definition play_oggvorbis (fd : Z) (io : ogg_io) : option ogg_result :=
  if negb (og_fdopen io) then Some (Ogg_exit 1 "fdopen" [Og_fdopen fd])
  else if decide (og_open io < 0) then
    Some (Ogg_return (-1) [Og_fdopen fd; Og_open; Og_warnx; Og_fclose])
  else if decide (og_setup io = -1) then
    Some (Ogg_exit 1 "player_setrate"
            [Og_fdopen fd; Og_open; Og_info;
             Og_setup 16 (og_rate io) (og_channels io)])
  else
    calls ← ogg_loop (og_reads io) 0 (og_play io)
               [Og_fdopen fd; Og_open; Og_info;
                Og_setup 16 (og_rate io) (og_channels io)];
    Some (Ogg_return 0 (calls ++ [Og_clear; Og_fclose])).

(** The sizes [play] was called with, in order. *)
Definition played (calls : list ogg_call) : list Z :=
  omap (λ c, match c with Og_play n => Some n | _ => None end) calls.

Definition reads_made (calls : list ogg_call) : nat :=
  length (filter (λ c, c = Og_read) calls).


(** Everything [writecb] has produced so far: the blocks written and the
    bytes waiting in [buf]. *)
Definition pcm_stream (st : pcm_out) : list Z :=
  concat (pcm_written st) ++ take (pcm_len st) (pcm_buf st).

(** A block of whole sample pairs that does not fill [buf]. *)
Definition whole_frames (size : nat) (block : list Z) : Prop :=
  block ≠ [] ∧ (length block mod 4 = 0)%nat ∧ (length block < size)%nat.

(** What a 16-bit little-endian device makes of a byte stream, and the
    16-bit value of a decoded sample. *)
Fixpoint s16_decode (bytes : list Z) : list Z :=
  match bytes with
  | lo :: hi :: rest => s16_of_bytes lo hi :: s16_decode rest
  | _ => []
  end.

Definition wrap16 (v : Z) : Z :=
  let u := v mod 65536 in if decide (u < 32768) then u else u - 65536.

(** Left and right samples in turn. *)
Fixpoint alternate (ch0 ch1 : list Z) : list Z :=
  match ch0, ch1 with
  | l :: ch0', r :: ch1' => l :: r :: alternate ch0' ch1'
  | _, _ => []
  end.

(** The calls of one turn of the decoding loop that goes on: a read, and
    the block played if the read brought one. *)
Definition ogg_turn (r : Z) : list ogg_call :=
  if decide (0 < r) then [Og_read; Og_play r] else [Og_read].

(** The calls before the decoding loop of a stream that opened. *)
Definition ogg_prologue (fd : Z) (io : ogg_io) : list ogg_call :=
  [Og_fdopen fd; Og_open; Og_info; Og_setup 16 (og_rate io) (og_channels io)].

(** The reads that brought a block. *)
Definition positive_reads (reads : list Z) : list Z :=
  filter (λ r, 0 < r) reads.

(** The descriptors closed in a run of [control_init]. *)
Definition close_calls (calls : list syscall) : list Z :=
  omap (λ c, match c with Sys_close fd => Some fd | _ => None end) calls.

(** The names given to bind. *)
Definition bind_calls (calls : list syscall) : list string :=
  omap (λ c, match c with Sys_bind _ p => Some p | _ => None end) calls.

(** The three modes are C truth values. *)
Definition boolean_modes (m : main_st) : Prop :=
  (repeat_one m = 0 ∨ repeat_one m = 1) ∧
  (repeat_all m = 0 ∨ repeat_all m = 1) ∧
  (consume m = 0 ∨ consume m = 1).

(** The player order a toggle sends and the event it announces, by the
    play state it finds. *)
Definition toggle_order (p : play_state_t) : imsg_type :=
  match p with STATE_PLAYING => IMSG_PAUSE | _ => IMSG_RESUME end.
Definition toggle_event (p : play_state_t) : imsg_type :=
  match p with STATE_PLAYING => IMSG_CTL_PAUSE | _ => IMSG_CTL_PLAY end.
Definition toggled (p : play_state_t) : play_state_t :=
  match p with STATE_PLAYING => STATE_PAUSED | _ => STATE_PLAYING end.

(** ** Example runs *)

Section Runs.
#[local] Existing Instance lp64.
#[local] Existing Instance idle_main.

(** Three decoded stereo samples and an output buffer of eight bytes. *)
Definition ex_left : list Z := [1; -2; 300].
Definition ex_right : list Z := [-1; 32767; -32768].
Definition ex_pcm_buf : list Z := [0; 0; 0; 0; 0; 0; 0; 0].

(** An Ogg stream of two blocks with a hole between them; one that
    libvorbisfile does not open; and a longer one whose second block the
    player refuses. *)
Definition ex_ogg : ogg_io :=
  mk_ogg_io true 0 44100 2 0 [4096; -3; 2048; 0] (λ _, 1).
Definition ex_ogg_unopened : ogg_io :=
  mk_ogg_io true (-132) 0 0 0 [] (λ _, 1).
Definition ex_ogg_refused : ogg_io :=
  mk_ogg_io true 0 44100 2 0 [4096; -3; 2048; 512; 0]
    (λ k, if decide (k = 1%nat) then 0 else 1).

(** [control_init] on a fresh path: unlink finds nothing; and the same
    with a bind that fails. *)
Definition ex_sock : string := "/tmp/amused-1000".
Definition ex_init_ok : init_io := mk_init_io 3 2 0 0 (-1, ENOENT) 18 0 0.
Definition ex_init_bind_fails : init_io :=
  mk_init_io 3 2 0 0 (-1, ENOENT) 18 (-1) 0.

(** The daemon plays the first track, 42 s into its 180 s, with
    repeat_all on, while client 5 monitors and holds the transaction. *)
Definition ex_playing_monitored : state :=
  set_main (λ m, mk_main (playlist m) 0 STATE_PLAYING 0 1 0 42 180 (player_w m))
    ex_in_transaction.

(** While client 5 holds the transaction: client 6 tries Begin, client 5
    adds "/x", client 6 asks for the playlist, client 5 adds "/y". *)
Definition ex_show : imsg := mk_imsg IMSG_CTL_SHOW 101 [].
Definition ex_interleaved : list (Z * imsg) :=
  [(6, ex_begin); (5, ex_add_x); (6, ex_show); (5, ex_add_y)].

(** The two clients while accepting is paused. *)
Definition ex_paused_accept : state :=
  control_accept 3 (ex_accept_fails EMFILE) ex_two_clients.

Definition ex_stop : imsg := mk_imsg IMSG_CTL_STOP 101 [].
Definition ex_play : imsg := mk_imsg IMSG_CTL_PLAY 101 [].
Definition ex_toggle : imsg := mk_imsg IMSG_CTL_TOGGLE_PLAY 101 [].
Definition ex_monitor : imsg := mk_imsg IMSG_CTL_MONITOR 101 [].

(** End of file on a connection that still has a frame buffered. *)
Definition ex_eof : os_io :=
  mk_io (-1, None) 0 true (0, None) (0, None) 0 [Frame ex_begin].

End Runs.

(** * Properties *)

(** ** The connection table *)

Section Table.
Implicit Types (l : list ctl_conn) (c : ctl_conn) (f : ctl_conn → ctl_conn).

Lemma connbyfd_Some fd l c :
  control_connbyfd fd l = Some c → conn_fd c = fd ∧ c ∈ l.
Proof.
  induction l as [|x l IH]; cbn; [done|].
  case_decide as Hx.
  - intros [= ->]. split; [done | apply list_elem_of_here].
  - intros Hc. destruct (IH Hc). split; [done | by apply list_elem_of_further].
Qed.

Lemma connbyfd_None fd l :
  control_connbyfd fd l = None ↔ fd ∉ map conn_fd l.
Proof.
  induction l as [|x l IH]; cbn.
  - split; [intros _; apply not_elem_of_nil | done].
  - case_decide as Hx.
    + split; [done|]. intros Hn. exfalso. apply Hn. rewrite Hx. apply list_elem_of_here.
    + rewrite IH, not_elem_of_cons. split; [|by intros [_ ?]].
      intros Hn. split; [congruence | done].
Qed.

Lemma connbyfd_is_Some fd l :
  fd ∈ map conn_fd l → is_Some (control_connbyfd fd l).
Proof.
  intros Hin. destruct (control_connbyfd fd l) eqn:E; [by eexists|].
  by apply connbyfd_None in E.
Qed.

Lemma connbyfd_update_eq fd f l :
  (∀ c, conn_fd (f c) = conn_fd c) →
  control_connbyfd fd (conn_update fd f l) = f <$> control_connbyfd fd l.
Proof.
  intros Hf. induction l as [|x l IH]; cbn; [done|].
  case_decide as Hx; cbn.
  - by rewrite Hf, decide_True.
  - by rewrite decide_False.
Qed.

Lemma connbyfd_update_ne fd fd' f l :
  (∀ c, conn_fd (f c) = conn_fd c) → fd' ≠ fd →
  control_connbyfd fd' (conn_update fd f l) = control_connbyfd fd' l.
Proof.
  intros Hf Hne. induction l as [|x l IH]; cbn; [done|].
  case_decide as Hx; cbn.
  - rewrite Hf. by rewrite !decide_False by congruence.
  - by rewrite IH.
Qed.

Lemma conn_fds_update fd f l :
  (∀ c, conn_fd (f c) = conn_fd c) →
  map conn_fd (conn_update fd f l) = map conn_fd l.
Proof.
  intros Hf. induction l as [|x l IH]; cbn; [done|].
  case_decide; cbn; [by rewrite Hf | by rewrite IH].
Qed.

Lemma conn_fds_update_pid pid f l :
  (∀ c, conn_fd (f c) = conn_fd c) →
  map conn_fd (conn_update_pid pid f l) = map conn_fd l.
Proof.
  intros Hf. induction l as [|x l IH]; cbn; [done|].
  case_decide; cbn; [by rewrite Hf | by rewrite IH].
Qed.

Lemma conn_fds_map (g : ctl_conn → ctl_conn) l :
  (∀ c, conn_fd (g c) = conn_fd c) → map conn_fd (map g l) = map conn_fd l.
Proof.
  intros Hg. induction l as [|x l IH]; cbn; [done|]. by rewrite Hg, IH.
Qed.

Lemma connbyfd_map fd (g : ctl_conn → ctl_conn) l :
  (∀ c, conn_fd (g c) = conn_fd c) →
  control_connbyfd fd (map g l) = g <$> control_connbyfd fd l.
Proof.
  intros Hg. induction l as [|x l IH]; cbn; [done|].
  rewrite Hg. by case_decide.
Qed.

(** Elsewhere in the table nothing moves. *)
Lemma conn_update_other fd f l c :
  c ∈ l → conn_fd c ≠ fd → c ∈ conn_update fd f l.
Proof.
  intros Hin Hne. induction l as [|x l IH]; cbn; [done|].
  apply elem_of_cons in Hin as [->|Hin].
  - rewrite decide_False by done. apply list_elem_of_here.
  - case_decide; apply list_elem_of_further; [done | by apply IH].
Qed.

Lemma conn_remove_fds fd l :
  NoDup (map conn_fd l) →
  NoDup (map conn_fd (conn_remove fd l)) ∧
  (fd ∉ map conn_fd (conn_remove fd l)) ∧
  (∀ x, x ∈ map conn_fd (conn_remove fd l) ↔ (x ∈ map conn_fd l ∧ x ≠ fd)).
Proof.
  induction l as [|c l IH]; cbn.
  - intros _. split; [constructor|]. split; [apply not_elem_of_nil|].
    intros x. split.
    + by intros ?%not_elem_of_nil.
    + by intros [?%not_elem_of_nil _].
  - intros [Hc Hl]%NoDup_cons. case_decide as Hfd.
    + subst fd. split; [done|]. split; [done|].
      intros x. rewrite elem_of_cons. split.
      * intros Hx. split; [by right|]. by intros ->.
      * intros [[->|Hx] Hne]; done.
    + destruct (IH Hl) as (Hnd & Hnot & Hiff). cbn. split; [|split].
      * apply NoDup_cons. split; [|done]. rewrite Hiff. by intros [? _].
      * rewrite not_elem_of_cons. split; [congruence | done].
      * intros x. rewrite !elem_of_cons, Hiff. split.
        -- intros [->|[Hx Hne]]; [split; [by left | congruence]|].
           split; [by right | done].
        -- intros [[->|Hx] Hne]; [by left | by right].
Qed.


End Table.

(** ** What a call leaves alone *)

Section Frames.
Context `{!Abi, !MainOps}.
Implicit Types (s : state).

Lemma ctl_same_refl s : ctl_same s s.
Proof. by repeat split. Qed.

Lemma ctl_same_trans s1 s2 s3 :
  ctl_same s1 s2 → ctl_same s2 s3 → ctl_same s1 s3.
Proof.
  intros (Hc & Hf & Ht & Hl) (Hc' & Hf' & Ht' & Hl').
  rewrite Hc in Hl'. repeat split; congruence.
Qed.

Lemma ctl_ev_same s s' : ctl_same s s' → ev_same s s'.
Proof. intros (Hc & Hf & Ht & Hl). repeat split; congruence. Qed.

Lemma ev_same_refl s : ev_same s s.
Proof. by repeat split. Qed.

Lemma ev_same_trans s1 s2 s3 :
  ev_same s1 s2 → ev_same s2 s3 → ev_same s1 s3.
Proof.
  intros (Hc & Hf & Ht & Hl) (Hc' & Hf' & Ht' & Hl').
  rewrite Hc in Hl'. repeat split; congruence.
Qed.

Lemma set_iev_fd g c :
  (∀ i, ibuf_fd (g i) = ibuf_fd i) → conn_fd (set_iev g c) = conn_fd c.
Proof. intros Hg. unfold conn_fd. cbn. apply Hg. Qed.

Lemma conns_same s (g : list ctl_conn → list ctl_conn) :
  map conn_fd (g (ctl_conns s)) = map conn_fd (ctl_conns s) →
  ctl_same s (set_ctl_conns g s).
Proof. intros Hg. by repeat split. Qed.

Lemma update_same s fd f :
  (∀ c, conn_fd (f c) = conn_fd c) →
  ctl_same s (set_ctl_conns (conn_update fd f) s).
Proof. intros Hf. apply conns_same. by apply conn_fds_update. Qed.

Lemma compose_on_same s cfd type peerid pid fd data :
  ctl_same s (compose_on cfd type peerid pid fd data s).
Proof. apply update_same. by intros []. Qed.

Lemma main_senderr_same s fd msg : ctl_same s (main_senderr fd msg s).
Proof. apply compose_on_same. Qed.

Lemma set_main_same s g : ctl_same s (set_main g s).
Proof. by repeat split. Qed.

Lemma main_send_player_same s type fd data :
  ctl_same s (main_send_player type fd data s).
Proof. apply set_main_same. Qed.

Lemma log_msg_same s t : ctl_same s (log_msg t s).
Proof. by repeat split. Qed.

Lemma sets_errno_same s r : ctl_same s (sets_errno r s).
Proof. unfold sets_errno. destruct r.2; by repeat split. Qed.

Lemma notify_conn_fd ev c : conn_fd (notify_conn ev c) = conn_fd c.
Proof. unfold notify_conn. by case_decide. Qed.

Lemma control_notify_same s type : ctl_same s (control_notify type s).
Proof. apply conns_same. apply conn_fds_map, notify_conn_fd. Qed.

Lemma control_imsg_relay_same s m : ctl_same s (control_imsg_relay m s).
Proof.
  unfold control_imsg_relay. destruct (control_connbypid _ _).
  - apply conns_same, conn_fds_update_pid. by intros [].
  - apply ctl_same_refl.
Qed.

End Frames.

(** ** One message *)

Section Dispatch.
Context `{!Abi, !MainOps}.
Implicit Types (s : state) (m : imsg) (fd : Z).

(** The three transactional commands call nothing but the collaborators
    modelled above; their cases read as follows. *)
Lemma dispatch_begin fd m s :
  hdr_type m = IMSG_CTL_BEGIN →
  dispatch_case fd m s =
    if decide (tx_owner s ≠ -1) then main_senderr fd "locked" s
    else compose_on fd IMSG_CTL_BEGIN 0 0 (-1) P_null
           (set_control_state (set_cs_tx fd) s).
Proof. intros Hm. unfold dispatch_case. by rewrite Hm. Qed.

Lemma dispatch_add fd m s :
  hdr_type m = IMSG_CTL_ADD →
  dispatch_case fd m s =
    if decide (tx_owner s ≠ -1 ∧ tx_owner s ≠ fd) then main_senderr fd "locked" s
    else
      let r := main_enqueue (bool_decide (tx_owner s ≠ -1)) (tx_scratch s) fd m s in
      let s2 := set_control_state (set_cs_play r.1) r.2 in
      if decide (tx_owner s2 = -1) then control_notify IMSG_CTL_ADD s2 else s2.
Proof.
  intros Hm. unfold dispatch_case, tx_owner, tx_scratch. rewrite Hm.
  case_decide; [done|]. by destruct (main_enqueue _ _ _ _ _).
Qed.

Lemma dispatch_commit fd m s :
  hdr_type m = IMSG_CTL_COMMIT →
  dispatch_case fd m s =
    if decide (tx_owner s ≠ fd) then main_senderr fd "locked" s
    else if decide (IMSG_DATA_SIZE m ≠ sizeof_off) then
      main_senderr fd "wrong size" s
    else
      control_notify IMSG_CTL_COMMIT
        (compose_on fd IMSG_CTL_COMMIT 0 0 (-1) P_null
           (set_control_state (set_cs_tx (-1))
              (set_control_state (set_cs_play [])
                 (set_main
                    (playlist_swap (tx_scratch s) (off_of_bytes (imsg_data m)))
                    s)))).
Proof. intros Hm. unfold dispatch_case. by rewrite Hm. Qed.

(** *** Output queues *)

Lemma wq_compose_on fd c type peerid pid ofd data s :
  control_connbyfd fd (ctl_conns s) = Some c →
  wq fd (compose_on fd type peerid pid ofd data s)
    = Some (conn_w c ++ [mk_out type peerid pid ofd data]).
Proof.
  intros Hc. unfold wq, compose_on. cbn.
  rewrite connbyfd_update_eq by (by intros []). by rewrite Hc.
Qed.

Lemma wq_compose_on_ne fd fd' type peerid pid ofd data s :
  fd' ≠ fd → wq fd' (compose_on fd type peerid pid ofd data s) = wq fd' s.
Proof.
  intros Hne. unfold wq, compose_on. cbn.
  rewrite connbyfd_update_ne; [done | by intros [] | done].
Qed.

Lemma wq_senderr fd c msg s :
  control_connbyfd fd (ctl_conns s) = Some c →
  wq fd (main_senderr fd msg s) = Some (conn_w c ++ [err_frame msg]).
Proof. apply wq_compose_on. Qed.

Lemma conn_w_notify ev c : conn_w (notify_conn ev c) = conn_w c ++ heard ev c.
Proof.
  unfold notify_conn, heard. case_decide; [by rewrite app_nil_r | done].
Qed.

Lemma wq_notify fd type s :
  wq fd (control_notify type s)
    = (λ c, conn_w c ++ heard (notify_event type (main s)) c)
        <$> control_connbyfd fd (ctl_conns s).
Proof.
  unfold wq, control_notify. cbn.
  rewrite connbyfd_map by apply notify_conn_fd.
  destruct (control_connbyfd fd (ctl_conns s)); cbn; [|done].
  by rewrite conn_w_notify.
Qed.

Lemma connbyfd_notify fd type s :
  control_connbyfd fd (ctl_conns (control_notify type s))
    = notify_conn (notify_event type (main s))
        <$> control_connbyfd fd (ctl_conns s).
Proof. cbn. apply connbyfd_map, notify_conn_fd. Qed.

(** *** [main_enqueue] *)

Lemma main_enqueue_fst tx px fd m s :
  (main_enqueue tx px fd m s).1
    = if tx then px ++ [cstring (imsg_data m)] else px.
Proof. unfold main_enqueue. by destruct tx. Qed.

Lemma main_enqueue_same tx px fd m s :
  ctl_same s (main_enqueue tx px fd m s).2.
Proof.
  unfold main_enqueue, reply_on. destruct tx; cbn.
  - apply update_same. by intros [].
  - eapply ctl_same_trans; [apply set_main_same|].
    apply update_same. by intros [].
Qed.

Lemma main_enqueue_main tx px fd m s :
  main (main_enqueue tx px fd m s).2
    = if tx then main s
      else playlist_enqueue (cstring (imsg_data m)) (main s).
Proof. unfold main_enqueue. by destruct tx. Qed.

Lemma reply_on_same fd frames s : ctl_same s (reply_on fd frames s).
Proof. apply update_same. by intros []. Qed.

Lemma wq_reply_on fd c frames s :
  control_connbyfd fd (ctl_conns s) = Some c →
  wq fd (reply_on fd frames s) = Some (conn_w c ++ frames).
Proof.
  intros Hc. unfold wq, reply_on. cbn.
  rewrite connbyfd_update_eq by (by intros []). by rewrite Hc.
Qed.

Lemma wq_reply_on_ne fd fd' frames s :
  fd' ≠ fd → wq fd' (reply_on fd frames s) = wq fd' s.
Proof.
  intros Hne. unfold wq, reply_on. cbn.
  rewrite connbyfd_update_ne; [done | by intros [] | done].
Qed.

(** An Add outside a transaction goes to the live playlist and is
    broadcast; an Add of the owner goes to the scratch playlist. *)
Lemma dispatch_add_closed fd m s :
  hdr_type m = IMSG_CTL_ADD → tx_owner s = -1 →
  dispatch_case fd m s =
    control_notify IMSG_CTL_ADD
      (set_control_state (set_cs_play (tx_scratch s))
         (reply_on fd (enqueue_reply m)
            (set_main (playlist_enqueue (cstring (imsg_data m))) s))).
Proof.
  intros Hm Ho. rewrite dispatch_add by done.
  rewrite decide_False by (by intros [? _]).
  rewrite bool_decide_eq_false_2 by (by intros ?). cbn.
  by rewrite decide_True.
Qed.

Lemma dispatch_add_owner fd m s :
  hdr_type m = IMSG_CTL_ADD → tx_owner s ≠ -1 → tx_owner s = fd →
  dispatch_case fd m s =
    set_control_state (set_cs_play (tx_scratch s ++ [cstring (imsg_data m)]))
      (reply_on fd (enqueue_reply m) s).
Proof.
  intros Hm Ho Hfd. rewrite dispatch_add by done.
  rewrite decide_False by (by intros [_ ?]).
  rewrite bool_decide_eq_true_2 by done. cbn.
  by rewrite decide_False.
Qed.

Lemma main_enqueue_wq_ne tx px fd fd' m s :
  fd' ≠ fd → wq fd' (main_enqueue tx px fd m s).2 = wq fd' s.
Proof.
  intros Hne. unfold main_enqueue, reply_on, wq.
  destruct tx; cbn; (rewrite connbyfd_update_ne; [done | by intros [] | done]).
Qed.

End Dispatch.

(** ** The transaction lock *)

Section Lock.
Context `{!Abi, !MainOps}.
Implicit Types (s : state) (m : imsg) (fd : Z).

(** A refused command is answered with [main_senderr] and nothing else. *)
Lemma tx_fails_senderr fd m s msg :
  tx_fails fd m s msg → dispatch_case fd m s = main_senderr fd msg s.
Proof.
  unfold tx_open. intros [Hm Ho|Hm Ho Hne|Hm Hne|Hm Ho Hsz].
  - rewrite dispatch_begin by done. by rewrite decide_True.
  - rewrite dispatch_add by done. by rewrite decide_True.
  - rewrite dispatch_commit by done. by rewrite decide_True.
  - rewrite dispatch_commit by done.
    rewrite decide_False by (by intros []). by rewrite decide_True.
Qed.

(** The refusals are all there is to refuse: a transactional command that
    is not refused is a Begin with no transaction open, an Add with none
    open or from the owner, or the owner's Commit with a payload of the
    size of an offset. *)
Lemma tx_fails_or_accepted fd m s :
  transactional (hdr_type m) →
  (∃ msg, tx_fails fd m s msg) ∨
  (hdr_type m = IMSG_CTL_BEGIN ∧ ¬ tx_open s) ∨
  (hdr_type m = IMSG_CTL_ADD ∧ (¬ tx_open s ∨ tx_owner s = fd)) ∨
  (hdr_type m = IMSG_CTL_COMMIT ∧ tx_owner s = fd ∧
   IMSG_DATA_SIZE m = sizeof_off).
Proof.
  intros [Hm|[Hm|Hm]].
  - destruct (decide (tx_open s)) as [Ho|Ho].
    + left. exists "locked". by constructor.
    + right. left. done.
  - destruct (decide (tx_open s)) as [Ho|Ho];
      [destruct (decide (tx_owner s = fd)) as [Hfd|Hfd]|].
    + right. right. left. split; [done | by right].
    + left. exists "locked". by apply add_locked.
    + right. right. left. split; [done | by left].
  - destruct (decide (tx_owner s = fd)) as [Hfd|Hfd];
      [destruct (decide (IMSG_DATA_SIZE m = sizeof_off)) as [Hsz|Hsz]|].
    + right. right. right. done.
    + left. exists "wrong size". by apply commit_wrong_size.
    + left. exists "locked". by apply commit_locked.
Qed.

(** C10: Begin is not reentrant.  While a transaction is open a Begin
    from any connection, its owner included, is answered with the error
    "locked"; the owner and the scratch playlist of the transaction (and
    the rest of the daemon's state) stay as they were. *)
Theorem begin_not_reentrant fd c m s :
  control_connbyfd fd (ctl_conns s) = Some c →
  hdr_type m = IMSG_CTL_BEGIN →
  tx_open s →
  wq fd (dispatch_case fd m s) = Some (conn_w c ++ [err_frame "locked"]) ∧
  tx_owner (dispatch_case fd m s) = tx_owner s ∧
  tx_scratch (dispatch_case fd m s) = tx_scratch s ∧
  main (dispatch_case fd m s) = main s.
Proof.
  intros Hc Hm Ho.
  rewrite (tx_fails_senderr fd m s "locked") by by constructor.
  split; [by apply wq_senderr | done].
Qed.

(** C5: transactional errors are atomic.  When a Begin, an Add or a
    Commit is refused with "locked", or a Commit with "wrong size", one
    Error frame with that text is queued on the connection that sent the
    command, and the owner and the scratch playlist of the transaction are
    what they were before. *)
Theorem tx_error_preserves_transaction fd c m s msg :
  control_connbyfd fd (ctl_conns s) = Some c →
  tx_fails fd m s msg →
  wq fd (dispatch_case fd m s) = Some (conn_w c ++ [err_frame msg]) ∧
  tx_owner (dispatch_case fd m s) = tx_owner s ∧
  tx_scratch (dispatch_case fd m s) = tx_scratch s.
Proof.
  intros Hc Hf. rewrite (tx_fails_senderr fd m s msg Hf).
  split; [by apply wq_senderr | done].
Qed.

End Lock.

(** ** Broadcasts *)

Section Broadcast.
Context `{!Abi, !MainOps}.
Implicit Types (s : state) (m : imsg) (fd : Z).

Lemma notify_conn_notified ev c : notified ev c (notify_conn ev c).
Proof.
  unfold notified, notify_conn. destruct c as [mon [cfd pid w e]]. cbn.
  by case_decide.
Qed.

Lemma notified_queue ev c c' :
  notified ev c c' →
  conn_w c' = conn_w c ++ heard ev c ∧ conn_fd c' = conn_fd c ∧
  monitor c' = monitor c.
Proof.
  unfold notified, heard. case_decide; intros ->; [|done].
  by rewrite app_nil_r.
Qed.

(** C7: a broadcast of event type [type] puts exactly one monitor message
    on every connection whose monitor flag is set, with the payload
    (type, current position, current duration, repeat_one, repeat_all,
    consume), and leaves every other connection, and the rest of the
    state, as it was. *)
Theorem control_notify_monitors type s :
  Forall2
    (notified
       (mk_player_event type (current_position (main s))
          (current_duration (main s))
          (mk_player_mode (repeat_one (main s)) (repeat_all (main s))
             (consume (main s)))))
    (ctl_conns s) (ctl_conns (control_notify type s)) ∧
  control_state (control_notify type s) = control_state s ∧
  main (control_notify type s) = main s ∧
  evs (control_notify type s) = evs s.
Proof.
  split; [|done]. cbn. unfold notify_event.
  induction (ctl_conns s) as [|c l IH]; cbn; constructor; [|done].
  apply notify_conn_notified.
Qed.

Lemma notified_lookup ev (l l' : list ctl_conn) x :
  Forall2 (notified ev) l l' →
  conn_w <$> control_connbyfd x l'
    = (λ c, conn_w c ++ heard ev c) <$> control_connbyfd x l.
Proof.
  induction 1 as [|c c' l l' Hc _ IH]; cbn; [done|].
  destruct (notified_queue ev c c' Hc) as (Hw & Hfd & _).
  rewrite Hfd. case_decide; cbn; [by rewrite Hw | done].
Qed.

(** C9: Pause acts if and only if the daemon is playing.  When playing,
    the play state becomes Paused, one Pause order is queued for the
    player worker and every monitoring connection gets one Monitor frame
    whose event is Pause with the current position, duration and modes;
    when stopped or paused the state is not changed at all: nothing is
    sent to the worker and nothing is broadcast. *)
Theorem pause_only_when_playing fd m s :
  hdr_type m = IMSG_CTL_PAUSE →
  (play_state (main s) = STATE_PLAYING →
     play_state (main (dispatch_case fd m s)) = STATE_PAUSED ∧
     player_w (main (dispatch_case fd m s))
       = player_w (main s) ++ [mk_out IMSG_PAUSE 0 0 (-1) P_null] ∧
     Forall2
       (notified
          (mk_player_event IMSG_CTL_PAUSE (current_position (main s))
             (current_duration (main s))
             (mk_player_mode (repeat_one (main s)) (repeat_all (main s))
                (consume (main s)))))
       (ctl_conns s) (ctl_conns (dispatch_case fd m s))) ∧
  (play_state (main s) ≠ STATE_PLAYING → dispatch_case fd m s = s).
Proof.
  intros Hm. unfold dispatch_case. rewrite Hm. split; intros Hp.
  - rewrite decide_False by (by intros []).
    split; [done|]. split; [done|]. cbn.
    induction (ctl_conns s) as [|c l IH]; cbn; constructor; [|done].
    apply notify_conn_notified.
  - by rewrite decide_True.
Qed.

End Broadcast.

(** ** Closing a connection *)

Section Close.
Context `{!Abi, !MainOps}.
Implicit Types (s : state) (fd : Z).

Lemma control_close_main fd s : main (control_close fd s) = main s.
Proof.
  unfold control_close. destruct (control_connbyfd fd (ctl_conns s)); [|done].
  case_decide; by destruct (ev_timer_pending _).
Qed.

Lemma control_close_control_state fd c s :
  control_connbyfd fd (ctl_conns s) = Some c →
  control_state (control_close fd s) =
    if decide (tx_open s ∧ fd = tx_owner s) then
      mk_control_state (cs_fd (control_state s)) [] (-1)
    else control_state s.
Proof.
  intros Hc. unfold control_close, tx_open, tx_owner. rewrite Hc.
  destruct (connbyfd_Some _ _ _ Hc) as [-> _].
  case_decide; by destruct (ev_timer_pending _).
Qed.

(** C3: closing the connection that owns the open transaction aborts it:
    the scratch playlist is dropped and the owner is reset to [-1]; the
    live playlist (and every other global of main) is not touched.
    Closing a connection that does not own the transaction leaves the
    owner and the scratch playlist as they were. *)
Theorem control_close_aborts_transaction fd c s :
  control_connbyfd fd (ctl_conns s) = Some c →
  (tx_open s → fd = tx_owner s →
     tx_owner (control_close fd s) = -1 ∧ tx_scratch (control_close fd s) = []) ∧
  (fd ≠ tx_owner s →
     tx_owner (control_close fd s) = tx_owner s ∧
     tx_scratch (control_close fd s) = tx_scratch s) ∧
  playlist (main (control_close fd s)) = playlist (main s) ∧
  main (control_close fd s) = main s.
Proof.
  intros Hc. rewrite control_close_main.
  pose proof (control_close_control_state fd c s Hc) as Hcs.
  unfold tx_owner, tx_scratch in *.
  split; [|split; [|done]].
  - intros Ho Hfd. rewrite Hcs. by rewrite decide_True.
  - intros Hne. rewrite Hcs. by rewrite decide_False by (by intros [_ ?]).
Qed.

End Close.

(** ** Playback modes *)

Section Modes.
Context `{!Abi, !MainOps}.
Implicit Types (s : state) (m : imsg) (fd : Z).

Lemma new_mode_leave v : new_mode v MODE_UNDEF = v.
Proof. unfold new_mode. by rewrite decide_True. Qed.

Lemma new_mode_toggle v :
  MODE_TOGGLE ≠ MODE_UNDEF → new_mode v MODE_TOGGLE = lnot v.
Proof.
  intros Hne. unfold new_mode. rewrite decide_False by done.
  by rewrite decide_True.
Qed.

Lemma new_mode_other v w :
  w ≠ MODE_UNDEF → w ≠ MODE_TOGGLE →
  new_mode v w = if decide (w = 0) then 0 else 1.
Proof.
  intros H1 H2. unfold new_mode, lnot. rewrite !decide_False by done.
  destruct (decide (w = 0)); by case_decide.
Qed.

(** The result of [new_mode] is a C truth value unless the request is
    Leave. *)
Lemma new_mode_bool v w : w ≠ MODE_UNDEF → new_mode v w = 0 ∨ new_mode v w = 1.
Proof.
  intros Hne. unfold new_mode, lnot. rewrite decide_False by done.
  repeat case_decide; auto.
Qed.

Lemma set_modes_same ms :
  set_modes (repeat_one ms) (repeat_all ms) (consume ms) ms = ms.
Proof. by destruct ms. Qed.

(** C6: the Mode command merges the request into the three modes, each
    field by itself: Leave keeps the current value, Set gives 1, Unset
    gives 0, Toggle negates it.  A request that is Leave for the three
    fields changes no global of main, and after the merge the mode change
    is broadcast: every monitoring connection gets one Monitor frame whose
    event is Mode with the current position and duration and the three
    merged modes. *)
Theorem mode_merge_rule fd m s :
  mode_codes_ok →
  hdr_type m = IMSG_CTL_MODE →
  IMSG_DATA_SIZE m = sizeof_mode →
  (∀ v, new_mode v MODE_UNDEF = v ∧ new_mode v MODE_SET = 1 ∧
        new_mode v MODE_UNSET = 0 ∧
        new_mode v MODE_TOGGLE = (if decide (v = 0) then 1 else 0)) ∧
  repeat_one (main (dispatch_case fd m s))
    = new_mode (repeat_one (main s)) (pm_repeat_one (mode_of_bytes (imsg_data m))) ∧
  repeat_all (main (dispatch_case fd m s))
    = new_mode (repeat_all (main s)) (pm_repeat_all (mode_of_bytes (imsg_data m))) ∧
  consume (main (dispatch_case fd m s))
    = new_mode (consume (main s)) (pm_consume (mode_of_bytes (imsg_data m))) ∧
  (mode_of_bytes (imsg_data m) = leave_all →
     main (dispatch_case fd m s) = main s) ∧
  Forall2
    (notified
       (mk_player_event IMSG_CTL_MODE (current_position (main s))
          (current_duration (main s))
          (mk_player_mode
             (new_mode (repeat_one (main s))
                (pm_repeat_one (mode_of_bytes (imsg_data m))))
             (new_mode (repeat_all (main s))
                (pm_repeat_all (mode_of_bytes (imsg_data m))))
             (new_mode (consume (main s))
                (pm_consume (mode_of_bytes (imsg_data m)))))))
    (ctl_conns s) (ctl_conns (dispatch_case fd m s)).
Proof.
  intros (Hoff & Hon & Htu & Hsu & Hst & Huu & Hut) Hm Hsz.
  split.
  { intros v. rewrite new_mode_leave, new_mode_toggle by done.
    rewrite !new_mode_other by done.
    rewrite (decide_False (P := MODE_SET = 0)) by done.
    by rewrite (decide_True (P := MODE_UNSET = 0)) by done. }
  unfold dispatch_case. rewrite Hm.
  rewrite decide_False by (by intros []).
  split; [done|]. split; [done|]. split; [done|]. split.
  - intros ->. cbn. rewrite !new_mode_leave. apply set_modes_same.
  - cbn. induction (ctl_conns s) as [|c l IH]; cbn; constructor; [|done].
    apply notify_conn_notified.
Qed.

End Modes.

(** ** The invariant of the control endpoint *)

Section Invariant.
Context `{!Abi, !MainOps, !MainOpsFrame}.
Implicit Types (s : state) (m : imsg) (fd lfd : Z).

Ltac same_step :=
  first
    [ apply control_notify_same | apply main_send_player_same
    | apply set_main_same | apply log_msg_same | apply main_senderr_same
    | apply compose_on_same | apply sets_errno_same
    | apply resume_keeps | apply advance_keeps | apply previous_keeps
    | apply jump_keeps | apply send_playlist_keeps | apply send_status_keeps
    | apply seek_keeps | apply truncate_keeps ].

Ltac same_chain :=
  repeat first
    [ apply ctl_same_refl | same_step | eapply ctl_same_trans; [| same_step ] ].

(** Outside the transaction protocol a command changes nothing that
    control.c owns. *)
Lemma dispatch_case_same fd m s :
  ¬ transactional (hdr_type m) → ctl_same s (dispatch_case fd m s).
Proof.
  unfold transactional, dispatch_case. intros Hnt.
  destruct (hdr_type m); try (exfalso; naive_solver);
    repeat case_decide; same_chain.
  - destruct (play_state (main s)); same_chain.
  - destruct (play_state (main s)); same_chain.
  - apply update_same. by intros [].
Qed.

(** What a command can do to the transaction: leave it, open it for the
    sender, or close it with an empty scratch playlist. *)
Lemma dispatch_case_tx fd m s :
  (tx_owner (dispatch_case fd m s) = tx_owner s ∧
     (tx_owner s = -1 → tx_scratch (dispatch_case fd m s) = tx_scratch s)) ∨
  (tx_owner s = -1 ∧ tx_owner (dispatch_case fd m s) = fd) ∨
  (tx_owner (dispatch_case fd m s) = -1 ∧ tx_scratch (dispatch_case fd m s) = []).
Proof.
  destruct (decide (transactional (hdr_type m))) as [[Hm|[Hm|Hm]]|Hnt].
  - rewrite dispatch_begin by done. case_decide as Ho.
    + left. done.
    + right. left. done.
  - left. destruct (decide (tx_owner s ≠ -1 ∧ tx_owner s ≠ fd)) as [Hl|Hl].
    + rewrite dispatch_add by done. by rewrite decide_True.
    + destruct (decide (tx_owner s = -1)) as [Hc|Hc].
      * by rewrite dispatch_add_closed.
      * rewrite dispatch_add_owner; [done | done | done |].
        destruct (decide (tx_owner s = fd)); [done|]. naive_solver.
  - rewrite dispatch_commit by done. repeat case_decide; [by left | by left|].
    right. right. done.
  - left. destruct (dispatch_case_same fd m s Hnt) as (Hcs & _).
    unfold tx_owner, tx_scratch. by rewrite Hcs.
Qed.

Lemma dispatch_case_ev_same fd m s : ev_same s (dispatch_case fd m s).
Proof.
  destruct (decide (transactional (hdr_type m))) as [[Hm|[Hm|Hm]]|Hnt].
  - rewrite dispatch_begin by done. case_decide.
    + apply ctl_ev_same, main_senderr_same.
    + eapply ev_same_trans; [|apply ctl_ev_same, compose_on_same].
      by repeat split.
  - destruct (decide (tx_owner s ≠ -1 ∧ tx_owner s ≠ fd)) as [Hl|Hl].
    + rewrite dispatch_add by done. rewrite decide_True by done.
      apply ctl_ev_same, main_senderr_same.
    + destruct (decide (tx_owner s = -1)) as [Hc|Hc].
      * rewrite dispatch_add_closed by done.
        eapply ev_same_trans; [|apply ctl_ev_same, control_notify_same].
        eapply (ev_same_trans _ (reply_on fd (enqueue_reply m)
                  (set_main (playlist_enqueue (cstring (imsg_data m))) s)));
          [|by repeat split].
        apply ctl_ev_same. eapply ctl_same_trans; [apply set_main_same|].
        apply reply_on_same.
      * rewrite dispatch_add_owner;
          [| done | done | destruct (decide (tx_owner s = fd)); naive_solver].
        eapply (ev_same_trans _ (reply_on fd (enqueue_reply m) s));
          [|by repeat split].
        apply ctl_ev_same, reply_on_same.
  - rewrite dispatch_commit by done. repeat case_decide.
    + apply ctl_ev_same, main_senderr_same.
    + apply ctl_ev_same, main_senderr_same.
    + eapply ev_same_trans; [|apply ctl_ev_same, control_notify_same].
      eapply ev_same_trans; [|apply ctl_ev_same, compose_on_same].
      by repeat split.
  - by apply ctl_ev_same, dispatch_case_same.
Qed.

Lemma control_inv_transfer lfd s s' :
  control_inv lfd s → ev_same s s' →
  (tx_owner s' = -1 ∨ tx_owner s' ∈ conn_fds s') →
  (tx_owner s' = -1 → tx_scratch s' = []) →
  control_inv lfd s'.
Proof.
  intros [Hl Hf Hn Ho Hs Ht Hli] (Hfd & Hfds & Htm & Hlk) Ho' Hs'.
  unfold listener_attached, accept_paused in *.
  split; unfold listener_attached, accept_paused; try done;
    rewrite ?Hfds, ?Htm, ?Hfd; try done.
  by rewrite Hlk.
Qed.

Lemma control_inv_same lfd s s' :
  control_inv lfd s → ctl_same s s' → control_inv lfd s'.
Proof.
  intros Hi Hsame. pose proof Hsame as (Hcs & Hfds & _).
  apply (control_inv_transfer lfd s s' Hi (ctl_ev_same _ _ Hsame));
    unfold tx_owner, tx_scratch; rewrite Hcs, ?Hfds; apply Hi.
Qed.

Lemma dispatch_case_inv lfd fd m s :
  control_inv lfd s → fd ∈ conn_fds s →
  control_inv lfd (dispatch_case fd m s) ∧ fd ∈ conn_fds (dispatch_case fd m s).
Proof.
  intros Hi Hfd.
  pose proof (dispatch_case_ev_same fd m s) as Hev.
  pose proof Hev as (_ & Hfds & _).
  split; [|by rewrite Hfds].
  apply (control_inv_transfer lfd s _ Hi Hev); rewrite ?Hfds.
  - destruct (dispatch_case_tx fd m s) as [[-> _]|[[_ ->]|[-> _]]];
      [apply Hi | by right | by left].
  - destruct (dispatch_case_tx fd m s) as [[Ho Hs]|[[_ Ho]|[_ Hs]]].
    + rewrite Ho. intros Hc. rewrite Hs by done. by apply (inv_scratch _ _ Hi).
    + rewrite Ho. intros ->. exfalso.
      pose proof (inv_fds _ _ Hi) as Hall. rewrite Forall_forall in Hall.
      apply Hall in Hfd. lia.
    + done.
Qed.

End Invariant.

Section InvariantSteps.
Context `{!Abi, !MainOps, !MainOpsFrame}.
Implicit Types (s : state) (m : imsg) (fd lfd : Z).

Lemma control_close_conns fd c s :
  control_connbyfd fd (ctl_conns s) = Some c →
  ctl_conns (control_close fd s) = conn_remove fd (ctl_conns s).
Proof.
  intros Hc. unfold control_close. rewrite Hc.
  case_decide; by destruct (ev_timer_pending _).
Qed.

Lemma control_close_evs fd c s :
  control_connbyfd fd (ctl_conns s) = Some c →
  evs (control_close fd s) =
    match ev_tmr (evs s) with
    | Some _ =>
        mk_ev (<[cs_fd (control_state s) := (POLLIN, H_control_accept)]>
                 (delete fd (ev_fds (evs s)))) None
    | None => mk_ev (delete fd (ev_fds (evs s))) None
    end.
Proof.
  intros Hc. unfold control_close. rewrite Hc.
  destruct (connbyfd_Some _ _ _ Hc) as [-> _].
  unfold ev_timer_pending.
  case_decide; cbn; destruct (ev_tmr (evs s)) eqn:Ht; cbn;
    rewrite ?bool_decide_eq_true_2 by (by eexists);
    rewrite ?bool_decide_eq_false_2 by (by intros [? ?]); cbn; by rewrite ?Ht.
Qed.

Lemma control_close_inv lfd fd s :
  control_inv lfd s → control_inv lfd (control_close fd s).
Proof.
  intros Hi. destruct (control_connbyfd fd (ctl_conns s)) as [c|] eqn:Hc.
  2:{ unfold control_close. rewrite Hc.
      apply (control_inv_same lfd s); [done | apply log_msg_same]. }
  pose proof (control_close_conns fd c s Hc) as Hconns.
  pose proof (control_close_evs fd c s Hc) as Hevs.
  pose proof (control_close_control_state fd c s Hc) as Hcs.
  destruct Hi as [Hl Hf Hn Ho Hs Ht Hli].
  destruct (conn_remove_fds fd (ctl_conns s) Hn) as (Hn' & Hnot & Hiff).
  assert (fd ≠ lfd) as Hfd.
  { destruct (connbyfd_Some _ _ _ Hc) as [<- Hin].
    rewrite Forall_forall in Hf. apply (Hf (conn_fd c)).
    unfold conn_fds. apply list_elem_of_fmap. by exists c. }
  assert (cs_fd (control_state (control_close fd s)) = cs_fd (control_state s))
    as Hcsfd by (rewrite Hcs; by case_decide).
  split; unfold conn_fds, tx_owner, tx_scratch, listener_attached, accept_paused;
    rewrite ?Hcsfd, ?Hconns, ?Hevs.
  - done.
  - rewrite Forall_forall in Hf. apply Forall_forall.
    intros x [Hx _]%Hiff. by apply Hf.
  - done.
  - rewrite Hcs. case_decide as Hd; [by left|]. cbn.
    destruct Ho as [Ho|Ho]; [by left|]. right. apply Hiff. split; [done|].
    intros <-. apply Hd. split; [|done].
    unfold tx_open. intros Hm1. rewrite Forall_forall in Hf.
    apply Hf in Ho. unfold tx_owner in *. lia.
  - rewrite Hcs. case_decide; [done|]. apply Hs.
  - left. by destruct (ev_tmr (evs s)).
  - left. destruct (ev_tmr (evs s)) as [t|] eqn:Htm; cbn.
    + apply lookup_insert_eq.
    + rewrite lookup_delete_ne by congruence.
      destruct Hli as [Hli|Hli]; [done|].
      unfold accept_paused in Hli. congruence.
Qed.

Lemma control_inv_evs lfd s s' :
  control_inv lfd s →
  control_state s' = control_state s → conn_fds s' = conn_fds s →
  ev_tmr (evs s') = None ∨ accept_paused s' →
  listener_attached s' ∨ accept_paused s' →
  control_inv lfd s'.
Proof.
  intros [Hl Hf Hn Ho Hs Ht Hli] Hcs Hfds Ht' Hli'.
  split; unfold tx_owner, tx_scratch in *; rewrite ?Hcs, ?Hfds; done.
Qed.

Lemma control_inv_fd_ne lfd fd s :
  control_inv lfd s → fd ∈ conn_fds s → fd ≠ cs_fd (control_state s) ∧ 0 ≤ fd.
Proof.
  intros Hi Hin. pose proof (inv_fds _ _ Hi) as Hf.
  rewrite Forall_forall in Hf. apply Hf in Hin.
  rewrite (inv_lfd _ _ Hi). lia.
Qed.

Lemma imsg_event_add_same fd s :
  fd ≠ cs_fd (control_state s) → ctl_same s (imsg_event_add fd s).
Proof.
  intros Hne. unfold imsg_event_add.
  destruct (control_connbyfd fd (ctl_conns s)); [|apply ctl_same_refl].
  repeat split; cbn.
  - unfold conn_fds. cbn. apply conn_fds_update. by intros [].
  - by rewrite lookup_insert_ne.
Qed.

Lemma msgbuf_sent_same fd io s : ctl_same s (msgbuf_sent fd io s).
Proof.
  unfold msgbuf_sent. case_decide; [|apply ctl_same_refl].
  apply update_same. by intros [].
Qed.

Lemma dispatch_loop_inv lfd fd frames s :
  control_inv lfd s → fd ∈ conn_fds s →
  control_inv lfd (dispatch_loop fd frames s).
Proof.
  revert s. induction frames as [|[m|] frames IH]; intros s Hi Hfd; cbn.
  - apply (control_inv_same lfd s); [done|].
    apply imsg_event_add_same. by eapply control_inv_fd_ne.
  - destruct (dispatch_case_inv lfd fd m s Hi Hfd). by apply IH.
  - by apply control_close_inv.
Qed.

Lemma control_dispatch_imsg_inv lfd fd event io s :
  control_inv lfd s → control_inv lfd (control_dispatch_imsg fd event io s).
Proof.
  intros Hi. unfold control_dispatch_imsg.
  destruct (control_connbyfd fd (ctl_conns s)) as [c|] eqn:Hc.
  2:{ apply (control_inv_same lfd s); [done | apply log_msg_same]. }
  assert (fd ∈ conn_fds s) as Hfd.
  { destruct (connbyfd_Some _ _ _ Hc) as [<- Hin].
    unfold conn_fds. apply list_elem_of_fmap. by exists c. }
  set (s1 := if bool_decide (Z.land event POLLIN ≠ 0)
             then sets_errno (io_read io) s else s).
  assert (ctl_same s s1) as Hs1.
  { subst s1. case_bool_decide; [apply sets_errno_same | apply ctl_same_refl]. }
  destruct (_ && _); [by eapply control_close_inv, control_inv_same|].
  set (s2 := if bool_decide (Z.land event POLLOUT ≠ 0)
             then msgbuf_sent fd io (sets_errno (io_write io) s1) else s1).
  assert (ctl_same s1 s2) as Hs2.
  { subst s2. case_bool_decide; [|apply ctl_same_refl].
    eapply ctl_same_trans; [apply sets_errno_same | apply msgbuf_sent_same]. }
  pose proof (ctl_same_trans _ _ _ Hs1 Hs2) as H12.
  destruct (_ && _); [by eapply control_close_inv, control_inv_same|].
  apply dispatch_loop_inv; [by eapply control_inv_same|].
  destruct H12 as (_ & -> & _). done.
Qed.

Lemma enable_accept_inv lfd s :
  control_inv lfd s → control_inv lfd (enable_accept s).
Proof.
  intros Hi. apply (control_inv_evs lfd s); [done | done | done | apply Hi |].
  left. unfold listener_attached, enable_accept. cbn. apply lookup_insert_eq.
Qed.

Lemma control_accept_inv lfd listenfd io s :
  control_inv lfd s → accept_fresh s io →
  control_inv lfd (control_accept listenfd io s).
Proof.
  intros Hi Hfresh. unfold control_accept.
  case_decide as Hconn.
  - pose proof (sets_errno_same s (io_accept io)) as Hs1.
    pose proof (control_inv_same lfd s _ Hi Hs1) as Hi1.
    repeat case_decide.
    + apply (control_inv_evs lfd _ _ Hi1); [done | done | by right | by right].
    + apply (control_inv_same lfd _ _ Hi1), log_msg_same.
    + done.
  - destruct Hfresh as [?|(Hpos & Hne & Hnew)]; [done|].
    destruct (io_calloc io); cbn.
    2:{ apply (control_inv_same lfd s); [done | apply log_msg_same]. }
    destruct Hi as [Hl Hf Hn Ho Hs Ht Hli].
    split; unfold conn_fds, tx_owner, tx_scratch, listener_attached,
             accept_paused in *; cbn.
    + done.
    + rewrite map_app. apply Forall_app. split; [done|].
      cbn. apply Forall_singleton. unfold conn_fd. cbn. split; [done | congruence].
    + rewrite map_app. apply NoDup_app. split; [done|]. split.
      * intros x Hx Hx'. cbn in Hx'. apply list_elem_of_singleton in Hx'.
        unfold conn_fd in Hx'. cbn in Hx'. by subst x.
      * apply NoDup_singleton.
    + destruct Ho as [Ho|Ho]; [by left|]. right. rewrite map_app.
      apply elem_of_app. by left.
    + done.
    + done.
    + destruct Hli as [Hli|Hli]; [|by right]. left.
      by rewrite lookup_insert_ne.
Qed.

Lemma run_handler_inv lfd h fd revents io s :
  control_inv lfd s → accept_fresh s io →
  control_inv lfd (run_handler h fd revents io s).
Proof.
  intros Hi Hfresh. destruct h; cbn.
  - by apply control_accept_inv.
  - by apply control_dispatch_imsg_inv.
  - by apply enable_accept_inv.
Qed.

Lemma step_inv lfd e s :
  control_inv lfd s → os_ok s e → control_inv lfd (step e s).
Proof.
  intros Hi Hok. destruct e as [fd revents io|io|g|type|m]; cbn.
  - destruct (ev_fds (evs s) !! fd) as [[? h]|]; [|done].
    by apply run_handler_inv.
  - destruct (inv_timer _ _ Hi) as [Ht|Ht]; unfold accept_paused in Ht;
      rewrite Ht; [done|]. cbn.
    apply (control_inv_evs lfd s); [done | done | done | by left |].
    left. unfold listener_attached. cbn. apply lookup_insert_eq.
  - apply (control_inv_same lfd s); [done | apply set_main_same].
  - apply (control_inv_same lfd s); [done | apply control_notify_same].
  - apply (control_inv_same lfd s); [done | apply control_imsg_relay_same].
Qed.

Lemma control_listen_inv lfd r (m0 : main_st) s :
  control_listen lfd r (boot m0) = Running 0 s → control_inv lfd s.
Proof.
  unfold control_listen. cbn. case_decide; [done|].
  case_decide; [done|]. intros [= <-].
  split; unfold conn_fds, tx_owner, tx_scratch, listener_attached,
           accept_paused; cbn.
  - done.
  - constructor.
  - constructor.
  - by left.
  - done.
  - by left.
  - left. apply lookup_insert_eq.
Qed.

(** In every state of a running daemon the invariant holds. *)
Lemma reachable_inv lfd s : reachable lfd s → control_inv lfd s.
Proof.
  induction 1 as [m0 r s Hl | s e _ IH Hok].
  - by eapply control_listen_inv.
  - by apply step_inv.
Qed.

End InvariantSteps.

(** ** One transaction, one owner *)

Section Owner.
Context `{!Abi, !MainOps, !MainOpsFrame}.
Implicit Types (s : state) (m : imsg) (fd lfd : Z).

Lemma conn_fd_inj (l : list ctl_conn) c c' :
  NoDup (map conn_fd l) → c ∈ l → c' ∈ l → conn_fd c = conn_fd c' → c = c'.
Proof.
  induction l as [|x l IH]; cbn; [by intros _ ?%not_elem_of_nil|].
  intros [Hx Hl]%NoDup_cons [->|Hc]%elem_of_cons [->|Hc']%elem_of_cons Heq.
  - done.
  - exfalso. apply Hx. rewrite Heq. apply list_elem_of_fmap. by exists c'.
  - exfalso. apply Hx. rewrite <- Heq. apply list_elem_of_fmap. by exists c.
  - by apply IH.
Qed.

(** C1: at most one transaction is open at a time (there is one owner
    field), and in every state of a running daemon an open transaction is
    owned by exactly one connection of the table.  A Begin succeeds (the
    owner becomes the fd of the sender, which is sent a Begin
    acknowledgement) if and only if no transaction is open.  While one is
    open, a Begin, Add or Commit of a connection that is not the owner is
    answered with the error "locked" and leaves the owner and the scratch
    playlist as they were. *)
Theorem transaction_single_owner lfd s :
  reachable lfd s →
  (tx_open s →
     ∃ c, c ∈ ctl_conns s ∧ conn_fd c = tx_owner s ∧
          ∀ c', c' ∈ ctl_conns s → conn_fd c' = tx_owner s → c' = c) ∧
  (∀ fd c m,
     control_connbyfd fd (ctl_conns s) = Some c →
     hdr_type m = IMSG_CTL_BEGIN →
     (tx_owner (dispatch_case fd m s) = fd ∧
      wq fd (dispatch_case fd m s)
        = Some (conn_w c ++ [ack_frame IMSG_CTL_BEGIN]))
     ↔ ¬ tx_open s) ∧
  (∀ fd c m,
     control_connbyfd fd (ctl_conns s) = Some c →
     transactional (hdr_type m) →
     tx_open s → fd ≠ tx_owner s →
     wq fd (dispatch_case fd m s) = Some (conn_w c ++ [err_frame "locked"]) ∧
     tx_owner (dispatch_case fd m s) = tx_owner s ∧
     tx_scratch (dispatch_case fd m s) = tx_scratch s).
Proof.
  intros Hi%reachable_inv. split; [|split].
  - intros Hopen. destruct (inv_owner _ _ Hi) as [?|Hin]; [done|].
    unfold conn_fds in Hin. apply list_elem_of_fmap in Hin as (c & Hfd & Hc).
    exists c. split; [done|]. split; [done|]. intros c' Hc' Hfd'.
    apply (conn_fd_inj (ctl_conns s)); [apply Hi | done | done | congruence].
  - intros fd c m Hc Hm. rewrite dispatch_begin by done. unfold tx_open.
    case_decide as Ho.
    + split; [|done]. intros [_ Hw]. rewrite (wq_senderr fd c) in Hw by done.
      by apply (inj Some), app_inv_head in Hw.
    + split; [by intros _ ?|]. intros _. split; [done|].
      by apply wq_compose_on.
  - intros fd c m Hc Hm Hopen Hne.
    assert (tx_fails fd m s "locked") as Hf.
    { destruct Hm as [Hm|[Hm|Hm]]; [by constructor | by constructor |].
      apply commit_locked; [done | congruence]. }
    rewrite (tx_fails_senderr fd m s "locked" Hf).
    split; [by apply wq_senderr | done].
Qed.

End Owner.

(** ** Accept under descriptor exhaustion *)

Section Backpressure.
Context `{!Abi, !MainOps, !MainOpsFrame}.
Implicit Types (s : state) (fd lfd : Z).

Lemma control_accept_exhausted listenfd io s :
  (io_accept io).1 = -1 →
  (io_accept io).2 = Some ENFILE ∨ (io_accept io).2 = Some EMFILE →
  control_accept listenfd io s =
    ev_timer (Some (evtpause, H_enable_accept))
      (ev_del (cs_fd (control_state s)) (sets_errno (io_accept io) s)).
Proof.
  intros Hret Herr. unfold control_accept. rewrite decide_True by done.
  assert (errno (sets_errno (io_accept io) s) = ENFILE ∨
          errno (sets_errno (io_accept io) s) = EMFILE) as He
    by (unfold sets_errno; destruct Herr as [-> | ->]; cbn; auto).
  rewrite decide_True by done.
  unfold sets_errno. by destruct (io_accept io).2.
Qed.

(** C8: when accept fails with ENFILE or EMFILE the listening socket is
    taken out of the readable set and the one-shot timer is armed for one
    second with [enable_accept], which puts the socket back for reading
    when the timer expires; the failure queues nothing on any client
    connection.  In every state of a running daemon the listening socket
    is either in the readable set or waiting for that timer, so it is
    never detached for good. *)
Theorem accept_backpressure lfd s :
  reachable lfd s →
  (∀ io,
     (io_accept io).1 = -1 →
     (io_accept io).2 = Some ENFILE ∨ (io_accept io).2 = Some EMFILE →
     ev_fds (evs (control_accept lfd io s)) !! lfd = None ∧
     ev_tmr (evs (control_accept lfd io s))
       = Some (mk_timeval 1 0, H_enable_accept) ∧
     ctl_conns (control_accept lfd io s) = ctl_conns s ∧
     ∀ io',
       listener_attached (step (EvTimeout io') (control_accept lfd io s)) ∧
       ev_tmr (evs (step (EvTimeout io') (control_accept lfd io s))) = None) ∧
  (listener_attached s ∨ accept_paused s) ∧
  (accept_paused s → ∀ io, listener_attached (step (EvTimeout io) s)).
Proof.
  intros Hi%reachable_inv. split; [|split].
  - intros io Hret Herr. rewrite control_accept_exhausted by done.
    rewrite <- (inv_lfd _ _ Hi).
    assert (cs_fd (control_state (sets_errno (io_accept io) s))
            = cs_fd (control_state s)) as Hfd
      by (unfold sets_errno; by destruct (io_accept io).2).
    split; [|split; [|split]].
    + cbn. apply lookup_delete_eq.
    + done.
    + cbn. unfold sets_errno. by destruct (io_accept io).2.
    + intros io'. unfold listener_attached. cbn. split; [|done].
      rewrite Hfd. apply lookup_insert_eq.
  - apply Hi.
  - intros Hp io. unfold accept_paused in Hp. unfold listener_attached.
    cbn. rewrite Hp. cbn. apply lookup_insert_eq.
Qed.

End Backpressure.

(** ** Begin, Add, Commit *)

Section Atomic.
Context `{!Abi, !MainOps, !MainOpsFrame}.
Implicit Types (s : state) (m : imsg) (fd lfd : Z).

Lemma run_cases_cons fd m ms s :
  run_cases fd (m :: ms) s = run_cases fd ms (dispatch_case fd m s).
Proof. done. Qed.

Lemma connbyfd_reply_on_ne fd fd' frames s :
  fd' ≠ fd →
  control_connbyfd fd' (ctl_conns (reply_on fd frames s))
    = control_connbyfd fd' (ctl_conns s).
Proof. intros Hne. cbn. apply connbyfd_update_ne; [by intros [] | done]. Qed.

Lemma run_mixed_snoc (l : list (Z * imsg)) xm s :
  run_mixed (l ++ [xm]) s = dispatch_case xm.1 xm.2 (run_mixed l s).
Proof. unfold run_mixed. by rewrite foldl_app. Qed.

Lemma paths_added_one fd x m :
  paths_added fd [(x, m)]
    = if decide (x = fd ∧ hdr_type m = IMSG_CTL_ADD)
      then [cstring (imsg_data m)] else [].
Proof. unfold paths_added. rewrite filter_cons. cbn. by case_decide. Qed.

Lemma paths_added_app fd (l1 l2 : list (Z * imsg)) :
  paths_added fd (l1 ++ l2) = paths_added fd l1 ++ paths_added fd l2.
Proof. unfold paths_added. by rewrite filter_app, map_app. Qed.

(** One command while [fd] holds the transaction, unless it is the Commit
    that ends it: the owner stays, and the scratch playlist grows by the
    path of an Add of the owner and by nothing else. *)
Lemma mixed_step fd x m s :
  tx_owner s = fd → fd ≠ -1 → ¬ commits fd (x, m) →
  tx_owner (dispatch_case x m s) = fd ∧
  tx_scratch (dispatch_case x m s) = tx_scratch s ++ paths_added fd [(x, m)] ∧
  (transactional (hdr_type m) → main (dispatch_case x m s) = main s).
Proof.
  intros Ho Hfd Hnc. rewrite paths_added_one.
  assert (tx_open s) as Hopen by (unfold tx_open; congruence).
  destruct (decide (transactional (hdr_type m))) as [[Hm|[Hm|Hm]]|Hnt].
  - rewrite (tx_fails_senderr x m s "locked") by (by apply begin_locked).
    rewrite decide_False by (intros [_ ?]; congruence).
    by rewrite app_nil_r.
  - destruct (decide (x = fd)) as [->|Hx].
    + rewrite dispatch_add_owner; [|done|congruence|done].
      by rewrite decide_True.
    + rewrite (tx_fails_senderr x m s "locked")
        by (apply add_locked; [done | done | congruence]).
      rewrite decide_False by (by intros [? _]). by rewrite app_nil_r.
  - rewrite decide_False by (intros [_ ?]; congruence). rewrite app_nil_r.
    destruct (decide (tx_owner s = x)) as [Hx|Hx].
    + rewrite (tx_fails_senderr x m s "wrong size"); [done|].
      apply commit_wrong_size; [done | done|].
      intros Hsz. apply Hnc. split; [cbn; congruence | done].
    + by rewrite (tx_fails_senderr x m s "locked") by (by apply commit_locked).
  - rewrite decide_False
      by (intros [_ Hm]; apply Hnt; right; left; exact Hm).
    rewrite app_nil_r.
    destruct (dispatch_case_same x m s Hnt) as (Hcs & _).
    unfold tx_owner, tx_scratch. rewrite Hcs. by split; [|split].
Qed.

Lemma mixed_run fd (l : list (Z * imsg)) s :
  tx_owner s = fd → fd ≠ -1 → Forall (λ xm, ¬ commits fd xm) l →
  tx_owner (run_mixed l s) = fd ∧
  tx_scratch (run_mixed l s) = tx_scratch s ++ paths_added fd l ∧
  (Forall (λ xm, transactional (hdr_type xm.2)) l →
   main (run_mixed l s) = main s).
Proof.
  intros Ho Hfd Hl. revert s Ho.
  induction Hl as [|[x m] l Hxm _ IH]; intros s Ho.
  - cbn. by rewrite app_nil_r.
  - destruct (mixed_step fd x m s Ho Hfd Hxm) as (Ho1 & Hs1 & Hm1).
    destruct (IH (dispatch_case x m s) Ho1) as (Ho2 & Hs2 & Hm2).
    change (run_mixed ((x, m) :: l) s) with (run_mixed l (dispatch_case x m s)).
    split; [done|]. split.
    + rewrite Hs2, Hs1, <- app_assoc. f_equal.
      by rewrite <- paths_added_app.
    + intros [Hx Hrest]%Forall_cons. by rewrite Hm2, Hm1.
Qed.

Lemma playlist_swap_spliced (p : list string) off mn :
  playlist (playlist_swap p off mn) = spliced (playlist mn) p off ∧
  (cursor_valid mn → cursor_valid (playlist_swap p off mn)).
Proof.
  unfold playlist_swap, spliced, cursor_valid.
  destruct (decide (off < 0)) as [Hneg|Hpos]; cbn.
  - split; [done|]. rewrite length_app. lia.
  - destruct (decide (off ≤ play_off mn)) as [Hcut|Hkeep]; cbn.
    + split; [done|]. by left.
    + split; [done|]. rewrite length_app, length_take. lia.
Qed.

(** C2: a transaction is atomic for its observers.  Take any state in
    which [fd] holds the open transaction and any sequence of commands of
    any connections, interleaved in any way, in which [fd] does not yet
    commit.  Every Add of the owner in it, wherever it stands, appends its
    path to the scratch playlist and changes neither a global of main (the
    live playlist among them) nor the record of any other connection, so
    nothing is broadcast or replied to an observer; if the other commands
    too are transactional (and so refused) main is literally what it was
    at the start.  Through the whole run the owner stays and the scratch
    playlist is the one at the start followed by the paths of the owner's
    Adds in order.  A Commit of the owner with a payload of the size of an
    offset then puts that whole scratch playlist into the live one in one
    step (appended for a negative offset, replacing the entries from the
    offset on otherwise), keeps the cursor valid, closes the transaction
    with an empty scratch playlist, queues the acknowledgement on the
    owner's connection and, on every monitoring connection, one Monitor
    frame whose event is Commit with the current position, duration and
    modes. *)
Theorem transaction_atomic fd s (l : list (Z * imsg)) mc :
  tx_open s → tx_owner s = fd →
  Forall (λ xm, ¬ commits fd xm) l →
  hdr_type mc = IMSG_CTL_COMMIT →
  IMSG_DATA_SIZE mc = sizeof_off →
  (∀ l1 m l2, l = l1 ++ (fd, m) :: l2 → hdr_type m = IMSG_CTL_ADD →
     main (run_mixed (l1 ++ [(fd, m)]) s) = main (run_mixed l1 s) ∧
     tx_scratch (run_mixed (l1 ++ [(fd, m)]) s)
       = tx_scratch (run_mixed l1 s) ++ [cstring (imsg_data m)] ∧
     ∀ x, x ≠ fd →
       control_connbyfd x (ctl_conns (run_mixed (l1 ++ [(fd, m)]) s))
         = control_connbyfd x (ctl_conns (run_mixed l1 s))) ∧
  (Forall (λ xm, transactional (hdr_type xm.2)) l →
   main (run_mixed l s) = main s) ∧
  tx_owner (run_mixed l s) = fd ∧
  tx_scratch (run_mixed l s) = tx_scratch s ++ paths_added fd l ∧
  playlist (main (dispatch_case fd mc (run_mixed l s)))
    = spliced (playlist (main (run_mixed l s)))
        (tx_scratch s ++ paths_added fd l) (off_of_bytes (imsg_data mc)) ∧
  (cursor_valid (main (run_mixed l s)) →
   cursor_valid (main (dispatch_case fd mc (run_mixed l s)))) ∧
  tx_owner (dispatch_case fd mc (run_mixed l s)) = -1 ∧
  tx_scratch (dispatch_case fd mc (run_mixed l s)) = [] ∧
  (∀ x,
     wq x (dispatch_case fd mc (run_mixed l s))
       = (λ c, conn_w c ++
               (if decide (x = fd) then [ack_frame IMSG_CTL_COMMIT] else []) ++
               heard
                 (mk_player_event IMSG_CTL_COMMIT
                    (current_position (main (run_mixed l s)))
                    (current_duration (main (run_mixed l s)))
                    (mk_player_mode (repeat_one (main (run_mixed l s)))
                       (repeat_all (main (run_mixed l s)))
                       (consume (main (run_mixed l s))))) c)
           <$> control_connbyfd x (ctl_conns (run_mixed l s))).
Proof.
  intros Hopen Ho Hl Hmc Hsz.
  assert (fd ≠ -1) as Hfd by (unfold tx_open in Hopen; congruence).
  destruct (mixed_run fd l s Ho Hfd Hl) as (Ho1 & Hs1 & Hm1).
  split.
  { intros l1 m l2 -> Hm.
    apply Forall_app in Hl as [Hl1 _].
    destruct (mixed_run fd l1 s Ho Hfd Hl1) as (Hoa & _ & _).
    rewrite run_mixed_snoc. cbn [fst snd].
    rewrite dispatch_add_owner; [|done|congruence|done].
    split; [done|]. split; [done|].
    intros x Hx. by apply connbyfd_reply_on_ne. }
  split; [done|]. split; [done|]. split; [done|].
  set (s1 := run_mixed l s) in *.
  rewrite dispatch_commit by done.
  rewrite decide_False by (by intros ?).
  rewrite decide_False by (by intros ?).
  rewrite Hs1.
  destruct (playlist_swap_spliced (tx_scratch s ++ paths_added fd l)
              (off_of_bytes (imsg_data mc)) (main s1)) as (Hpl & Hcur).
  split; [exact Hpl|]. split; [exact Hcur|].
  split; [done|]. split; [done|].
  intros x. rewrite wq_notify.
  assert (notify_event IMSG_CTL_COMMIT
            (main (compose_on fd IMSG_CTL_COMMIT 0 0 (-1) P_null
               (set_control_state (set_cs_tx (-1))
                  (set_control_state (set_cs_play [])
                     (set_main
                        (playlist_swap (tx_scratch s ++ paths_added fd l)
                           (off_of_bytes (imsg_data mc))) s1)))))
          = mk_player_event IMSG_CTL_COMMIT (current_position (main s1))
              (current_duration (main s1))
              (mk_player_mode (repeat_one (main s1)) (repeat_all (main s1))
                 (consume (main s1)))) as ->.
  { unfold notify_event, playlist_swap. cbn. by repeat case_decide. }
  destruct (decide (x = fd)) as [->|Hx].
  - cbn. rewrite connbyfd_update_eq by (by intros []).
    destruct (control_connbyfd fd (ctl_conns s1)) as [c|]; cbn; [|done].
    unfold heard, conn_w. cbn. by rewrite <- app_assoc.
  - cbn. rewrite connbyfd_update_ne; [|by intros []|done].
    by destruct (control_connbyfd x (ctl_conns s1)).
Qed.

End Atomic.

(** ** Protocol errors *)

Section ProtocolErrors.
Context `{!Abi, !MainOps, !MainOpsFrame}.
Implicit Types (s : state) (m : imsg) (fd lfd : Z).




End ProtocolErrors.

(** ** The session, run *)

Section Run.
#[local] Existing Instance lp64.
#[local] Existing Instance idle_main.

Lemma idle_main_frame : MainOpsFrame.
Proof. split; repeat intro; apply ctl_same_refl. Qed.

#[local] Existing Instance idle_main_frame.

Lemma lp64_mode_codes : mode_codes_ok.
Proof. unfold mode_codes_ok. cbn. repeat split; lia. Qed.

Lemma ex_listening_reachable : reachable 3 ex_listening.
Proof. by apply (reach_listen 3 ex_main 0). Qed.

Lemma ex_two_clients_reachable : reachable 3 ex_two_clients.
Proof.
  unfold ex_two_clients.
  apply reach_step; [apply reach_step; [apply ex_listening_reachable|]|].
  - right. cbn. split; [lia|]. split; [lia|]. apply not_elem_of_nil.
  - right. vm_compute. split; [discriminate|]. split; [discriminate|].
    intros Hin. apply list_elem_of_singleton in Hin. discriminate.
Qed.

Lemma ex_in_transaction_reachable : reachable 3 ex_in_transaction.
Proof.
  unfold ex_in_transaction.
  apply reach_step; [apply ex_two_clients_reachable | by left].
Qed.

Example ex_two_clients_table :
  conn_fds ex_two_clients = [5; 6] ∧ tx_owner ex_two_clients = -1.
Proof. by vm_compute. Qed.

Example ex_in_transaction_owner :
  tx_owner ex_in_transaction = 5 ∧ tx_scratch ex_in_transaction = [] ∧
  wq 5 ex_in_transaction = Some [ack_frame IMSG_CTL_BEGIN].
Proof. by vm_compute. Qed.

(** *** The theorems at the session *)

(** Client 6 asks for a transaction while client 5 holds it. *)
Lemma transaction_single_owner_witness :
  reachable 3 ex_in_transaction ∧
  control_connbyfd 6 (ctl_conns ex_in_transaction) = Some ex_conn6 ∧
  transactional (hdr_type ex_add_x) ∧
  tx_open ex_in_transaction ∧ 6 ≠ tx_owner ex_in_transaction ∧
  wq 6 (dispatch_case 6 ex_add_x ex_in_transaction)
    = Some ([] ++ [err_frame "locked"]) ∧
  tx_owner (dispatch_case 6 ex_add_x ex_in_transaction) = 5.
Proof.
  assert (control_connbyfd 6 (ctl_conns ex_in_transaction) = Some ex_conn6)
    as Hc by reflexivity.
  assert (transactional (hdr_type ex_add_x)) as Ht by (right; left; reflexivity).
  assert (tx_open ex_in_transaction) as Ho by (vm_compute; discriminate).
  assert (6 ≠ tx_owner ex_in_transaction) as Hne by (vm_compute; discriminate).
  split; [exact ex_in_transaction_reachable|].
  split; [exact Hc|]. split; [exact Ht|]. split; [exact Ho|].
  split; [exact Hne|].
  destruct (proj2 (proj2 (transaction_single_owner 3 ex_in_transaction
                            ex_in_transaction_reachable))
              6 ex_conn6 ex_add_x Hc Ht Ho Hne) as (Hw & Hown & _).
  split; [exact Hw | exact Hown].
Defined.

(** Scenario S2 once client 5 holds the transaction: client 6 tries
    Begin, client 5 adds "/x", client 6 asks for the playlist, client 5
    adds "/y" and commits with offset -1. *)
Lemma transaction_atomic_witness :
  tx_open ex_in_transaction ∧
  tx_owner ex_in_transaction = 5 ∧
  Forall (λ xm, ¬ commits 5 xm) ex_interleaved ∧
  hdr_type ex_commit_append = IMSG_CTL_COMMIT ∧
  IMSG_DATA_SIZE ex_commit_append = sizeof_off ∧
  main (run_mixed ([(6, ex_begin)] ++ [(5, ex_add_x)]) ex_in_transaction)
    = main (run_mixed [(6, ex_begin)] ex_in_transaction) ∧
  tx_scratch (run_mixed ex_interleaved ex_in_transaction) = ["/x"; "/y"] ∧
  playlist (main (dispatch_case 5 ex_commit_append
                    (run_mixed ex_interleaved ex_in_transaction)))
    = ["/a.ogg"; "/x"; "/y"] ∧
  tx_owner (dispatch_case 5 ex_commit_append
              (run_mixed ex_interleaved ex_in_transaction)) = -1 ∧
  wq 5 (dispatch_case 5 ex_commit_append
          (run_mixed ex_interleaved ex_in_transaction))
    = Some [ack_frame IMSG_CTL_BEGIN;
            mk_out IMSG_CTL_ADD 0 0 (-1) (P_raw (imsg_data ex_add_x));
            mk_out IMSG_CTL_ADD 0 0 (-1) (P_raw (imsg_data ex_add_y));
            ack_frame IMSG_CTL_COMMIT;
            monitor_frame
              (mk_player_event IMSG_CTL_COMMIT 0 0 (mk_player_mode 0 0 0))] ∧
  wq 6 (dispatch_case 5 ex_commit_append
          (run_mixed ex_interleaved ex_in_transaction))
    = Some [err_frame "locked"].
Proof.
  assert (tx_open ex_in_transaction) as Hopen by discriminate.
  assert (Forall (λ xm, ¬ commits 5 xm) ex_interleaved) as Hl
    by (repeat constructor; intros (_ & Hty & _); discriminate Hty).
  destruct (transaction_atomic 5 ex_in_transaction ex_interleaved
              ex_commit_append Hopen eq_refl Hl eq_refl eq_refl)
    as (Hadd & _ & _ & Hscr & Hpl & _ & Hown & _ & Hwq).
  split; [exact Hopen|]. split; [reflexivity|]. split; [exact Hl|].
  split; [reflexivity|]. split; [reflexivity|].
  split; [exact (proj1 (Hadd [(6, ex_begin)] ex_add_x
                          [(6, ex_show); (5, ex_add_y)] eq_refl eq_refl))|].
  split; [exact Hscr|]. split; [exact Hpl|]. split; [exact Hown|].
  split; [exact (Hwq 5) | exact (Hwq 6)].
Defined.

(** The owner of the transaction goes away. *)
Lemma control_close_aborts_transaction_witness :
  control_connbyfd 5
    (ctl_conns (dispatch_case 5 ex_add_x ex_in_transaction))
    = Some (mk_ctl_conn 1
              (mk_imsgev 5 100
                 [ack_frame IMSG_CTL_BEGIN;
                  mk_out IMSG_CTL_ADD 0 0 (-1) (P_raw (imsg_data ex_add_x))]
                 (Z.lor POLLIN POLLOUT))) ∧
  tx_open (dispatch_case 5 ex_add_x ex_in_transaction) ∧
  tx_scratch (dispatch_case 5 ex_add_x ex_in_transaction) = ["/x"] ∧
  tx_owner (control_close 5 (dispatch_case 5 ex_add_x ex_in_transaction)) = -1 ∧
  tx_scratch (control_close 5 (dispatch_case 5 ex_add_x ex_in_transaction)) = [].
Proof.
  assert (tx_open (dispatch_case 5 ex_add_x ex_in_transaction)) as Ho
    by (vm_compute; discriminate).
  split; [reflexivity|]. split; [exact Ho|]. split; [reflexivity|].
  exact (proj1 (control_close_aborts_transaction 5 _
                  (dispatch_case 5 ex_add_x ex_in_transaction) eq_refl)
           Ho eq_refl).
Defined.



(** The owner's Commit with a one-byte payload. *)
Lemma tx_error_preserves_transaction_witness :
  control_connbyfd 5 (ctl_conns ex_in_transaction) = Some ex_owner5 ∧
  tx_fails 5 ex_commit_short ex_in_transaction "wrong size" ∧
  wq 5 (dispatch_case 5 ex_commit_short ex_in_transaction)
    = Some (conn_w ex_owner5 ++ [err_frame "wrong size"]) ∧
  tx_owner (dispatch_case 5 ex_commit_short ex_in_transaction) = 5 ∧
  tx_scratch (dispatch_case 5 ex_commit_short ex_in_transaction) = [].
Proof.
  assert (tx_fails 5 ex_commit_short ex_in_transaction "wrong size") as Hf
    by (apply commit_wrong_size; [reflexivity | reflexivity |
          vm_compute; discriminate]).
  split; [reflexivity|]. split; [exact Hf|].
  exact (tx_error_preserves_transaction 5 ex_owner5 ex_commit_short
           ex_in_transaction "wrong size" eq_refl Hf).
Defined.

(** Client 6 toggles repeat_one, sets repeat_all and leaves consume while
    client 5 monitors. *)
Lemma mode_merge_rule_witness :
  mode_codes_ok ∧
  hdr_type ex_mode = IMSG_CTL_MODE ∧
  IMSG_DATA_SIZE ex_mode = sizeof_mode ∧
  mode_of_bytes (imsg_data ex_mode)
    = mk_player_mode MODE_TOGGLE MODE_SET MODE_UNDEF ∧
  repeat_one (main (dispatch_case 6 ex_mode ex_playing_monitored))
    = new_mode 0 MODE_TOGGLE ∧
  new_mode 0 MODE_TOGGLE = 1 ∧
  wq 5 (dispatch_case 6 ex_mode ex_playing_monitored)
    = Some [ack_frame IMSG_CTL_BEGIN;
            monitor_frame
              (mk_player_event IMSG_CTL_MODE 42 180 (mk_player_mode 1 1 0))].
Proof.
  split; [exact lp64_mode_codes|]. split; [reflexivity|].
  split; [reflexivity|]. split; [reflexivity|].
  destruct (mode_merge_rule 6 ex_mode ex_playing_monitored lp64_mode_codes
              eq_refl eq_refl) as (Hrule & Hone & _ & _ & _ & Hcast).
  split; [exact Hone|]. split; [exact (proj2 (proj2 (proj2 (Hrule 0))))|].
  exact (notified_lookup _ _ _ 5 Hcast).
Defined.

(** accept4 fails with EMFILE while two clients are connected. *)
Lemma accept_backpressure_witness :
  reachable 3 ex_two_clients ∧
  ev_fds (evs (control_accept 3 (ex_accept_fails EMFILE) ex_two_clients)) !! 3
    = None ∧
  ev_tmr (evs (control_accept 3 (ex_accept_fails EMFILE) ex_two_clients))
    = Some (mk_timeval 1 0, H_enable_accept) ∧
  ctl_conns (control_accept 3 (ex_accept_fails EMFILE) ex_two_clients)
    = ctl_conns ex_two_clients.
Proof.
  split; [exact ex_two_clients_reachable|].
  destruct (proj1 (accept_backpressure 3 ex_two_clients
                     ex_two_clients_reachable)
              (ex_accept_fails EMFILE) eq_refl (or_intror eq_refl))
    as (Hdet & Htmr & Hconns & _).
  split; [exact Hdet|]. split; [exact Htmr | exact Hconns].
Defined.

(** Client 6 pauses while the daemon plays and client 5 monitors. *)
Lemma pause_only_when_playing_witness :
  hdr_type ex_pause = IMSG_CTL_PAUSE ∧
  play_state (main ex_playing_monitored) = STATE_PLAYING ∧
  play_state (main (dispatch_case 6 ex_pause ex_playing_monitored))
    = STATE_PAUSED ∧
  player_w (main (dispatch_case 6 ex_pause ex_playing_monitored))
    = player_w (main ex_playing_monitored)
      ++ [mk_out IMSG_PAUSE 0 0 (-1) P_null] ∧
  wq 5 (dispatch_case 6 ex_pause ex_playing_monitored)
    = Some [ack_frame IMSG_CTL_BEGIN;
            monitor_frame
              (mk_player_event IMSG_CTL_PAUSE 42 180 (mk_player_mode 0 1 0))] ∧
  wq 6 (dispatch_case 6 ex_pause ex_playing_monitored) = Some [].
Proof.
  split; [reflexivity|]. split; [reflexivity|].
  destruct (proj1 (pause_only_when_playing 6 ex_pause ex_playing_monitored
                     eq_refl) eq_refl) as (Hst & Hw & Hcast).
  split; [exact Hst|]. split; [exact Hw|].
  split; [exact (notified_lookup _ _ _ 5 Hcast)
         | exact (notified_lookup _ _ _ 6 Hcast)].
Defined.

(** The owner itself sends Begin again. *)
Lemma begin_not_reentrant_witness :
  control_connbyfd 5 (ctl_conns ex_in_transaction) = Some ex_owner5 ∧
  hdr_type ex_begin = IMSG_CTL_BEGIN ∧
  tx_open ex_in_transaction ∧
  tx_owner ex_in_transaction = 5 ∧
  wq 5 (dispatch_case 5 ex_begin ex_in_transaction)
    = Some (conn_w ex_owner5 ++ [err_frame "locked"]) ∧
  tx_owner (dispatch_case 5 ex_begin ex_in_transaction)
    = tx_owner ex_in_transaction.
Proof.
  assert (tx_open ex_in_transaction) as Ho by (vm_compute; discriminate).
  split; [reflexivity|]. split; [reflexivity|]. split; [exact Ho|].
  split; [reflexivity|].
  destruct (begin_not_reentrant 5 ex_owner5 ex_begin ex_in_transaction
              eq_refl eq_refl Ho) as (Hw & Hown & _).
  split; [exact Hw | exact Hown].
Defined.

(** *** Further runs *)

(** Scenario S2 of the spec: A begins, B's Begin is locked, A adds "/x",
    the live playlist does not have it; A commits with offset -1 and it
    does. *)
Example scenario_transaction_isolation :
  let s1 := step (EvReady 5 POLLIN (ex_read [Frame ex_begin])) ex_two_clients in
  let s2 := step (EvReady 6 POLLIN (ex_read [Frame ex_begin])) s1 in
  let s3 := step (EvReady 5 POLLIN (ex_read [Frame ex_add_x])) s2 in
  let s4 := step (EvReady 5 POLLIN (ex_read [Frame ex_commit_append])) s3 in
  wq 6 s2 = Some [err_frame "locked"] ∧
  playlist (main s3) = ["/a.ogg"] ∧
  playlist (main s4) = ["/a.ogg"; "/x"] ∧
  tx_owner s4 = -1.
Proof. by vm_compute. Qed.

(** Scenario S5: A begins, adds "/p" and disconnects; "/p" is nowhere and
    another client can begin. *)
Example scenario_abort_on_close :
  let s1 :=
    step (EvReady 5 POLLIN (ex_read [Frame ex_begin; Frame ex_add_x]))
      ex_two_clients in
  let s2 :=
    step (EvReady 5 POLLIN
            (mk_io (-1, None) 0 true (0, None) (0, None) 0 [])) s1 in
  let s3 := step (EvReady 6 POLLIN (ex_read [Frame ex_begin])) s2 in
  tx_scratch s1 = ["/x"] ∧
  conn_fds s2 = [6] ∧ playlist (main s2) = ["/a.ogg"] ∧ tx_scratch s2 = [] ∧
  tx_owner s3 = 6 ∧ wq 6 s3 = Some [ack_frame IMSG_CTL_BEGIN].
Proof. by vm_compute. Qed.

(** Accept is paused on EMFILE and resumes when the timer expires or a
    client goes away. *)
Example scenario_accept_pause :
  let s1 := step (EvReady 3 POLLIN (ex_accept_fails EMFILE)) ex_two_clients in
  let s2 := step (EvTimeout (ex_accept 0 0)) s1 in
  let s3 :=
    step (EvReady 5 POLLIN
            (mk_io (-1, None) 0 true (0, None) (0, None) 0 [])) s1 in
  ev_fds (evs s1) !! 3 = None ∧
  ev_fds (evs s2) !! 3 = Some (POLLIN, H_control_accept) ∧
  ev_tmr (evs s2) = None ∧
  ev_fds (evs s3) !! 3 = Some (POLLIN, H_control_accept) ∧
  ev_tmr (evs s3) = None.
Proof. by vm_compute. Qed.

(** Pause while playing, with client 5 monitoring: the state is Paused,
    the worker is sent IMSG_PAUSE and client 5, not client 6, hears of
    it. *)
Example scenario_pause :
  let s0 :=
    set_main (set_play_state STATE_PLAYING)
      (step (EvReady 5 POLLIN
               (ex_read [Frame (mk_imsg IMSG_CTL_MONITOR 100 [])]))
         ex_two_clients) in
  let s1 := step (EvReady 6 POLLIN (ex_read [Frame ex_pause])) s0 in
  let s2 := step (EvReady 6 POLLIN (ex_read [Frame ex_pause])) s1 in
  play_state (main s1) = STATE_PAUSED ∧
  player_w (main s1) = [mk_out IMSG_PAUSE 0 0 (-1) P_null] ∧
  wq 5 s1 = Some [monitor_frame
                    (mk_player_event IMSG_CTL_PAUSE 0 0 (mk_player_mode 0 0 0))] ∧
  wq 6 s1 = Some [] ∧
  s2 = s1.
Proof. by vm_compute. Qed.

(** A Mode request that toggles repeat_one, sets repeat_all and leaves
    consume; sent twice. *)
Example scenario_mode :
  let s1 := step (EvReady 5 POLLIN (ex_read [Frame ex_mode])) ex_two_clients in
  let s2 := step (EvReady 5 POLLIN (ex_read [Frame ex_mode])) s1 in
  (repeat_one (main s1), repeat_all (main s1), consume (main s1)) = (1, 1, 0) ∧
  (repeat_one (main s2), repeat_all (main s2), consume (main s2)) = (0, 1, 0).
Proof. by vm_compute. Qed.

End Run.

(** * More of the code *)

(** ** The FLAC write callback *)

Section Flac.
Implicit Types (buf : list Z) (st : pcm_out) (n i len : nat).

Lemma insert4_take buf len (a b c d : Z) :
  (len + 4 ≤ length buf)%nat →
  take (len + 4)
    (<[(len + 3)%nat := d]> (<[(len + 2)%nat := c]>
       (<[(len + 1)%nat := b]> (<[len := a]> buf))))
    = take len buf ++ [a; b; c; d].
Proof.
  revert buf. induction len as [|len IH]; intros buf Hlen.
  - destruct buf as [|x0 [|x1 [|x2 [|x3 buf]]]]; cbn in *; try lia. done.
  - destruct buf as [|x buf]; cbn in *; [lia|]. f_equal. apply IH. lia.
Qed.

Lemma store_Some i (v : Z) buf :
  (i < length buf)%nat → store i v buf = Some (<[i := v]> buf).
Proof. intros Hi. unfold store. by rewrite decide_True. Qed.

(** One turn of the loop: no store leaves [buf], and the four bytes of the
    pair are appended to what has been produced. *)
Lemma writecb_body_ok (l r : Z) st :
  (4 ≤ length (pcm_buf st))%nat →
  (pcm_len st ≤ length (pcm_buf st))%nat →
  ∃ st', writecb_body l r st = Some st' ∧
    length (pcm_buf st') = length (pcm_buf st) ∧
    pcm_stream st' = pcm_stream st ++ sample_bytes l r ∧
    ((pcm_written st' = pcm_written st ∧
      pcm_len st' = (pcm_len st + 4)%nat ∧
      (pcm_len st + 4 < length (pcm_buf st))%nat) ∨
     (pcm_written st' = pcm_written st ++ [take (pcm_len st) (pcm_buf st)] ∧
      pcm_len st' = 4%nat ∧
      (length (pcm_buf st) ≤ pcm_len st + 4)%nat)).
Proof.
  intros HB Hlen. destruct st as [buf len written]. cbn in *.
  unfold writecb_body. cbn.
  destruct (decide (length buf ≤ len + 4)%nat) as [Hfl|Hfl]; cbn.
  - rewrite store_Some by lia. cbn.
    rewrite store_Some by (rewrite length_insert; lia). cbn.
    rewrite store_Some by (rewrite !length_insert; lia). cbn.
    rewrite store_Some by (rewrite !length_insert; lia). cbn.
    eexists. split; [done|]. cbn. split; [by rewrite !length_insert|].
    split; [|right; done].
    unfold pcm_stream. cbn [pcm_written pcm_len pcm_buf].
    rewrite concat_app. cbn [concat]. rewrite app_nil_r, <- !app_assoc.
    f_equal. f_equal.
    exact (insert4_take buf 0 (Z.land l 255) (Z.land (Z.shiftr l 8) 255)
             (Z.land r 255) (Z.land (Z.shiftr r 8) 255) HB).
  - rewrite store_Some by lia. cbn.
    rewrite store_Some by (rewrite length_insert; lia). cbn.
    rewrite store_Some by (rewrite !length_insert; lia). cbn.
    rewrite store_Some by (rewrite !length_insert; lia). cbn.
    eexists. split; [done|]. cbn. split; [by rewrite !length_insert|].
    split; [|left; split; [done|]; split; [done | lia]].
    unfold pcm_stream. cbn [pcm_written pcm_len pcm_buf].
    rewrite <- app_assoc. f_equal.
    by rewrite insert4_take by lia.
Qed.

Lemma interleave_cons (l r : Z) (ch0 ch1 : list Z) :
  interleave (l :: ch0) (r :: ch1) = sample_bytes l r ++ interleave ch0 ch1.
Proof. done. Qed.

Lemma writecb_loop_ok (ch0 ch1 : list Z) n i st :
  (4 ≤ length (pcm_buf st))%nat →
  (pcm_len st ≤ length (pcm_buf st))%nat →
  (i + n ≤ length ch0)%nat → (i + n ≤ length ch1)%nat →
  ∃ st', writecb_loop ch0 ch1 n i st = Some st' ∧
    length (pcm_buf st') = length (pcm_buf st) ∧
    (pcm_len st' ≤ length (pcm_buf st'))%nat ∧
    pcm_stream st' =
      pcm_stream st ++ interleave (take n (drop i ch0)) (take n (drop i ch1)).
Proof.
  revert i st. induction n as [|n IH]; intros i st HB Hlen H0 H1.
  - exists st. cbn. by rewrite app_nil_r.
  - destruct (lookup_lt_is_Some_2 ch0 i) as [l Hl]; [lia|].
    destruct (lookup_lt_is_Some_2 ch1 i) as [r Hr]; [lia|].
    destruct (writecb_body_ok l r st HB Hlen) as (st1 & Hb & HB1 & Hs1 & Hcase).
    assert (pcm_len st1 ≤ length (pcm_buf st1))%nat as Hlen1
      by (destruct Hcase as [(_ & -> & ?)|(_ & -> & ?)]; lia).
    destruct (IH (S i) st1) as (st' & Hloop & HB' & Hlen' & Hs');
      [lia | done | lia | lia |].
    exists st'. cbn [writecb_loop]. rewrite Hl, Hr. cbn. rewrite Hb. cbn.
    split; [done|]. split; [congruence|]. split; [done|].
    rewrite Hs', Hs1, <- app_assoc. f_equal.
    rewrite (drop_S ch0 l i Hl), (drop_S ch1 r i Hr). done.
Qed.

(** The blocks handed to [sio_write] while the loop runs. *)
Lemma writecb_loop_blocks (ch0 ch1 : list Z) n i st st' :
  (4 < length (pcm_buf st))%nat →
  (pcm_len st mod 4 = 0)%nat → (pcm_len st < length (pcm_buf st))%nat →
  Forall (whole_frames (length (pcm_buf st))) (pcm_written st) →
  writecb_loop ch0 ch1 n i st = Some st' →
  length (pcm_buf st') = length (pcm_buf st) ∧
  (pcm_len st' mod 4 = 0)%nat ∧ (pcm_len st' < length (pcm_buf st))%nat ∧
  Forall (whole_frames (length (pcm_buf st))) (pcm_written st').
Proof.
  revert i st. induction n as [|n IH]; intros i st HB Hmod Hlen Hw Hloop.
  - cbn in Hloop. by injection Hloop as <-.
  - cbn [writecb_loop] in Hloop.
    destruct (ch0 !! i) as [l|]; [|done]. destruct (ch1 !! i) as [r|]; [|done].
    cbn in Hloop.
    destruct (writecb_body_ok l r st) as (st1 & Hb & HB1 & _ & Hcase);
      [lia | lia |].
    rewrite Hb in Hloop. cbn in Hloop. rewrite <- HB1 in *.
    apply (IH (S i) st1); [done | | | | done].
    + destruct Hcase as [(_ & -> & _)|(_ & -> & _)]; [|done].
      rewrite <- Nat.Div0.add_mod_idemp_l, Hmod. done.
    + destruct Hcase as [(_ & -> & ?)|(_ & -> & ?)]; lia.
    + destruct Hcase as [(-> & _)|(-> & _ & Hfl)]; [done|].
      apply Forall_app. split; [done|]. apply Forall_singleton.
      assert (length (take (pcm_len st) (pcm_buf st)) = pcm_len st) as Hlt
        by (apply length_take_le; lia).
      unfold whole_frames. rewrite Hlt. split; [|split; [done | lia]].
      intros Hnil. rewrite Hnil in Hlt. cbn in Hlt. lia.
Qed.

Lemma interleave_length (ch0 ch1 : list Z) n :
  length ch0 = n → length ch1 = n → length (interleave ch0 ch1) = (4 * n)%nat.
Proof.
  revert ch1 n. induction ch0 as [|l ch0 IH]; intros [|r ch1] n H0 H1;
    cbn in *; try lia.
  destruct n as [|n]; [lia|]. rewrite (IH ch1 n) by lia. lia.
Qed.

(** The call goes through, and what it writes is the interleaved block. *)
Lemma writecb_concat blocksize (ch0 ch1 buf : list Z) :
  (4 ≤ length buf)%nat →
  (blocksize ≤ length ch0)%nat → (blocksize ≤ length ch1)%nat →
  ∃ buf' blocks,
    writecb false blocksize ch0 ch1 buf
      = Some (WRITE_STATUS_CONTINUE, buf', blocks) ∧
    length buf' = length buf ∧
    concat blocks = interleave (take blocksize ch0) (take blocksize ch1).
Proof.
  intros HB H0 H1.
  destruct (writecb_loop_ok ch0 ch1 blocksize 0 (mk_pcm buf 0 []))
    as (st' & Hloop & HB' & Hlen' & Hs); cbn; [done | lia | done | done |].
  unfold writecb. cbn. rewrite Hloop. cbn.
  eexists _, _. split; [done|]. split; [done|].
  assert (pcm_stream st'
          = interleave (take blocksize ch0) (take blocksize ch1)) as <-
    by (rewrite Hs; done).
  unfold pcm_stream. case_decide as Hz.
  - rewrite concat_app. cbn. by rewrite app_nil_r.
  - assert (pcm_len st' = 0%nat) as -> by lia. cbn. by rewrite app_nil_r.
Qed.

(** X1: when the player is not told to stop, [writecb] never stores
    outside [buf] (whose size is at least 4) and the blocks it hands to
    [sio_write], put end to end, are the first [blocksize] sample pairs of
    channels 0 and 1, four bytes a pair: nothing is lost, repeated or
    reordered at the flushes. *)
Theorem writecb_stream blocksize (ch0 ch1 buf : list Z) :
  (4 ≤ length buf)%nat →
  (blocksize ≤ length ch0)%nat → (blocksize ≤ length ch1)%nat →
  ∃ buf' blocks,
    writecb false blocksize ch0 ch1 buf
      = Some (WRITE_STATUS_CONTINUE, buf', blocks) ∧
    length buf' = length buf ∧
    concat blocks = interleave (take blocksize ch0) (take blocksize ch1) ∧
    length (concat blocks) = (4 * blocksize)%nat.
Proof.
  intros HB H0 H1.
  destruct (writecb_loop_ok ch0 ch1 blocksize 0 (mk_pcm buf 0 []))
    as (st' & Hloop & HB' & Hlen' & Hs); cbn; [done | lia | done | done |].
  unfold writecb. cbn. rewrite Hloop. cbn.
  eexists _, _. split; [done|]. split; [done|].
  assert ((if decide (pcm_len st' ≠ 0%nat)
           then concat (pcm_written st' ++ [take (pcm_len st') (pcm_buf st')])
           else concat (pcm_written st'))
          = interleave (take blocksize ch0) (take blocksize ch1)) as Hcat.
  { assert (pcm_stream st'
            = interleave (take blocksize ch0) (take blocksize ch1)) as <-
      by (rewrite Hs; done).
    unfold pcm_stream. case_decide as Hz.
    - rewrite concat_app. cbn. by rewrite app_nil_r.
    - assert (pcm_len st' = 0%nat) as -> by lia. cbn. by rewrite app_nil_r. }
  assert (∀ (b : bool) (x y : list (list Z)),
            concat (if b then x else y) = if b then concat x else concat y)
    as Hif by (by intros []).
  split.
  - rewrite <- Hcat. by destruct (decide (pcm_len st' ≠ 0%nat)).
  - transitivity (length (interleave (take blocksize ch0) (take blocksize ch1))).
    + f_equal. rewrite <- Hcat. by destruct (decide (pcm_len st' ≠ 0%nat)).
    + apply interleave_length; by rewrite length_take_le.
Qed.

(** X2: with a [buf] of more than four bytes, every block [writecb] hands
    to [sio_write] is non-empty, holds whole sample pairs (its length is a
    multiple of 4) and is shorter than [buf]: a pair is never split between
    two writes. *)
Theorem writecb_blocks_whole_frames stop blocksize (ch0 ch1 buf : list Z)
    status buf' blocks :
  (4 < length buf)%nat →
  writecb stop blocksize ch0 ch1 buf = Some (status, buf', blocks) →
  Forall (whole_frames (length buf)) blocks.
Proof.
  intros HB. unfold writecb. destruct stop; [by intros [= _ _ <-]|].
  destruct (writecb_loop ch0 ch1 blocksize 0 (mk_pcm buf 0 []))
    as [st'|] eqn:Hloop; [|done].
  cbn. intros [= _ _ <-].
  destruct (writecb_loop_blocks ch0 ch1 blocksize 0 (mk_pcm buf 0 []) st')
    as (HB' & Hmod & Hlen & Hw); cbn; [done | done | lia | constructor | done |].
  cbn in *. case_decide as Hz; [|done].
  apply Forall_app. split; [done|]. apply Forall_singleton.
  assert (length (take (pcm_len st') (pcm_buf st')) = pcm_len st') as Hlt
    by (apply length_take_le; lia).
  unfold whole_frames. rewrite Hlt. split; [|done].
  intros Hnil. rewrite Hnil in Hlt. cbn in Hlt. lia.
Qed.

Lemma s16_of_sample (v : Z) :
  s16_of_bytes (Z.land v 255) (Z.land (Z.shiftr v 8) 255) = wrap16 v.
Proof.
  unfold s16_of_bytes, wrap16.
  change 255 with (Z.ones 8). rewrite !Z.land_ones by lia.
  rewrite Z.shiftr_div_pow2 by lia.
  change (2 ^ 8) with 256.
  replace (v mod 256 + 256 * (v / 256 mod 256)) with (v mod 65536); [done|].
  change 65536 with (256 * 256). apply Z.rem_mul_r; lia.
Qed.

Lemma wrap16_small (v : Z) : -32768 ≤ v < 32768 → wrap16 v = v.
Proof.
  intros Hv. unfold wrap16. destruct (decide (0 ≤ v)) as [Hp|Hn].
  - rewrite Z.mod_small by lia. by rewrite decide_True by lia.
  - assert (v mod 65536 = v + 65536) as ->.
    { rewrite <- (Z_mod_plus_full v 1 65536). apply Z.mod_small. lia. }
    rewrite decide_False by lia. lia.
Qed.

(** The interleaved bytes are the low 16 bits of each sample, low byte
    first. *)
Lemma interleave_samples_16bit (ch0 ch1 : list Z) :
  Forall (λ b, 0 ≤ b < 256) (interleave ch0 ch1) ∧
  s16_decode (interleave ch0 ch1) = wrap16 <$> alternate ch0 ch1 ∧
  (Forall (λ v, -32768 ≤ v < 32768) (alternate ch0 ch1) →
   s16_decode (interleave ch0 ch1) = alternate ch0 ch1).
Proof.
  assert (∀ v, 0 ≤ Z.land v 255 < 256) as Hbyte.
  { intros v. change 255 with (Z.ones 8). rewrite Z.land_ones by lia.
    apply Z.mod_pos_bound. lia. }
  assert (s16_decode (interleave ch0 ch1) = wrap16 <$> alternate ch0 ch1) as Heq.
  { revert ch1. induction ch0 as [|l ch0 IH]; intros [|r ch1]; try done.
    cbn. rewrite !s16_of_sample. by rewrite IH. }
  split; [|split; [done|]].
  - clear Heq. revert ch1.
    induction ch0 as [|l ch0 IH]; intros [|r ch1]; try constructor.
    + apply Hbyte.
    + repeat (constructor; [apply Hbyte|]). apply IH.
  - intros Hall. rewrite Heq. clear Heq.
    induction Hall as [|v vs Hv _ IH]; [done|]. cbn.
    by rewrite wrap16_small, IH.
Qed.

(** X3: what [writecb] hands to [sio_write] is 16-bit little-endian
    audio.  With a [buf] of at least 4 bytes and [blocksize] samples in
    both channels, the call goes through and every byte of the blocks it
    writes is in 0..255; put end to end and read as signed 16-bit
    little-endian samples, the blocks are the first [blocksize] samples of
    channel 0 and channel 1 in turn, each reduced to 16 bits: samples
    within the 16-bit range come back unchanged, wider ones are
    truncated. *)
Theorem writecb_samples_16bit blocksize (ch0 ch1 buf : list Z) :
  (4 ≤ length buf)%nat →
  (blocksize ≤ length ch0)%nat → (blocksize ≤ length ch1)%nat →
  ∃ buf' blocks,
    writecb false blocksize ch0 ch1 buf
      = Some (WRITE_STATUS_CONTINUE, buf', blocks) ∧
    Forall (Forall (λ b, 0 ≤ b < 256)) blocks ∧
    s16_decode (concat blocks)
      = wrap16 <$> alternate (take blocksize ch0) (take blocksize ch1) ∧
    (Forall (λ v, -32768 ≤ v < 32768)
       (alternate (take blocksize ch0) (take blocksize ch1)) →
     s16_decode (concat blocks)
       = alternate (take blocksize ch0) (take blocksize ch1)).
Proof.
  intros HB H0 H1.
  destruct (writecb_concat blocksize ch0 ch1 buf HB H0 H1)
    as (buf' & blocks & Hw & _ & Hcat).
  destruct (interleave_samples_16bit (take blocksize ch0) (take blocksize ch1))
    as (Hbytes & Hdec & Hsmall).
  exists buf', blocks. rewrite Hcat. split; [done|]. split; [|done].
  rewrite <- Hcat in Hbytes. clear - Hbytes.
  induction blocks as [|b blocks IH]; [done|].
  cbn in Hbytes. apply Forall_app in Hbytes as [Hb Hrest].
  constructor; [done | by apply IH].
Qed.

End Flac.

(** ** The Ogg Vorbis player *)

Section Ogg.
Implicit Types (reads pre rest : list Z) (calls : list ogg_call) (k : nat).

Lemma ogg_loop_prefix pre tail k (play : nat → Z) calls :
  Forall (λ r, r ≠ 0) pre →
  (∀ j, (j < length (positive_reads pre))%nat → play (k + j)%nat ≠ 0) →
  ogg_loop (pre ++ tail) k play calls
    = ogg_loop tail (k + length (positive_reads pre)) play
        (calls ++ flat_map ogg_turn pre).
Proof.
  intros Hpre. revert k calls.
  induction Hpre as [|r pre Hr _ IH]; intros k calls Hplay.
  - cbn. by rewrite Nat.add_0_r, app_nil_r.
  - cbn [app ogg_loop flat_map]. rewrite decide_False by done.
    unfold positive_reads in *. destruct (decide (0 < r)) as [Hp|Hn].
    + assert (ogg_turn r = [Og_read; Og_play r]) as ->
        by (unfold ogg_turn; by rewrite decide_True).
      rewrite filter_cons_True in * by done. cbn [length] in *.
      rewrite decide_False by (rewrite <- (Nat.add_0_r k); apply Hplay; lia).
      rewrite IH.
      * rewrite <- app_assoc. f_equal. lia.
      * intros j Hj. replace (S k + j)%nat with (k + S j)%nat by lia.
        apply Hplay. lia.
    + assert (ogg_turn r = [Og_read]) as ->
        by (unfold ogg_turn; by rewrite decide_False).
      rewrite filter_cons_False in * by done.
      rewrite IH by done. by rewrite <- app_assoc.
Qed.

Lemma ogg_loop_only_reads_and_plays reads k (play : nat → Z) calls calls' :
  ogg_loop reads k play calls = Some calls' →
  ∃ more, calls' = calls ++ more ∧
    Forall (λ c, c = Og_read ∨ ∃ n, c = Og_play n ∧ 0 < n) more.
Proof.
  revert k calls. induction reads as [|r reads IH]; intros k calls; [done|].
  cbn. repeat case_decide.
  - intros [= <-]. eexists. split; [done|]. repeat constructor.
  - intros [= <-]. eexists. split; [done|].
    constructor; [by left|]. constructor; [|done]. right. by exists r.
  - intros (more & -> & Hm)%IH. eexists. rewrite <- app_assoc.
    split; [done|]. constructor; [by left|]. constructor; [|done].
    right. by exists r.
  - intros (more & -> & Hm)%IH. eexists. rewrite <- app_assoc.
    split; [done|]. constructor; [by left | done].
Qed.

Lemma played_app calls calls' :
  played (calls ++ calls') = played calls ++ played calls'.
Proof. apply omap_app. Qed.

Lemma played_turns pre :
  played (flat_map ogg_turn pre) = positive_reads pre.
Proof.
  induction pre as [|r pre IH]; [done|]. cbn [flat_map].
  rewrite played_app, IH. unfold ogg_turn, positive_reads. case_decide.
  - by rewrite filter_cons_True.
  - by rewrite filter_cons_False.
Qed.

Lemma reads_made_app calls calls' :
  reads_made (calls ++ calls') = (reads_made calls + reads_made calls')%nat.
Proof. unfold reads_made. by rewrite filter_app, length_app. Qed.

Lemma reads_made_turns pre : reads_made (flat_map ogg_turn pre) = length pre.
Proof.
  induction pre as [|r pre IH]; [done|]. cbn [flat_map].
  rewrite reads_made_app, IH. unfold ogg_turn. by case_decide.
Qed.

(** X4: when [play_oggvorbis] returns, it returns -1 if the input is not
    an Ogg bitstream and 0 in every other case, also when [play] refused a
    block and the loop was left early (the [ret = 1] there is assigned to
    the [long ret] of the loop body, not to the function's).  The stream is
    closed exactly once, as the last call; [ov_clear] is called exactly
    when the bitstream had been opened; only blocks of positive size are
    played. *)
Theorem play_oggvorbis_return fd io ret calls :
  play_oggvorbis fd io = Some (Ogg_return ret calls) →
  ret = (if decide (og_open io < 0) then -1 else 0) ∧
  (∃ before, calls = before ++ [Og_fclose] ∧ Og_fclose ∉ before) ∧
  (Og_clear ∈ calls ↔ 0 ≤ og_open io) ∧
  Forall (λ n, 0 < n) (played calls).
Proof.
  unfold play_oggvorbis. destruct (og_fdopen io); cbn; [|done].
  case_decide as Ho.
  - intros [= <- <-]. split; [done|]. split; [|split].
    + exists [Og_fdopen fd; Og_open; Og_warnx]. split; [done|].
      intros Hin. repeat (apply elem_of_cons in Hin as [?|Hin]; [done|]).
      by apply not_elem_of_nil in Hin.
    + split; [|lia]. intros Hin.
      repeat (apply elem_of_cons in Hin as [?|Hin]; [done|]).
      by apply not_elem_of_nil in Hin.
    + constructor.
  - case_decide; [done|].
    destruct (ogg_loop _ _ _ _) as [calls'|] eqn:Hloop; [|done]. cbn.
    intros [= <- <-]. fold (ogg_prologue fd io) in Hloop.
    apply ogg_loop_only_reads_and_plays in Hloop as (more & -> & Hmore).
    assert (∀ c, c ∈ more → c ≠ Og_fclose ∧ c ≠ Og_clear) as Hnot.
    { intros c Hc. rewrite Forall_forall in Hmore.
      destruct (Hmore c Hc) as [->|(n & -> & _)]; done. }
    split; [done|]. split; [|split].
    + exists ((ogg_prologue fd io ++ more) ++ [Og_clear]).
      split; [by rewrite <- !app_assoc|].
      intros [[Hin|Hin]%elem_of_app|Hin]%elem_of_app.
      * unfold ogg_prologue in Hin.
        repeat (apply elem_of_cons in Hin as [?|Hin]; [done|]).
        by apply not_elem_of_nil in Hin.
      * by destruct (Hnot _ Hin).
      * by apply list_elem_of_singleton in Hin.
    + split; [lia|]. intros _. apply elem_of_app. right. apply list_elem_of_here.
    + rewrite !played_app. cbn. rewrite app_nil_r.
      clear Hnot. induction Hmore as [|c more Hc _ IH]; [constructor|].
      destruct Hc as [->|(n & -> & Hn)]; [done|]. by constructor.
Qed.

(** X5: if the stream opens and [play] accepts every block, the decoder
    runs to the first [ov_read] that returns 0: every positive read before
    it is played, with its size and in order, the negative ones (holes and
    read errors) are skipped without ending the loop, and nothing is read
    after the end of the stream. *)
Theorem play_oggvorbis_plays_whole_stream fd io pre rest :
  og_fdopen io = true → 0 ≤ og_open io → og_setup io ≠ -1 →
  og_reads io = pre ++ 0 :: rest →
  Forall (λ r, r ≠ 0) pre →
  (∀ j, og_play io j ≠ 0) →
  ∃ calls,
    play_oggvorbis fd io = Some (Ogg_return 0 calls) ∧
    played calls = positive_reads pre ∧
    reads_made calls = S (length pre).
Proof.
  intros Hf Ho Hs Hreads Hpre Hplay. unfold play_oggvorbis.
  rewrite Hf. cbn [negb]. rewrite decide_False by lia.
  rewrite decide_False by done. fold (ogg_prologue fd io).
  rewrite Hreads, ogg_loop_prefix by (done || (intros; apply Hplay)).
  cbn [ogg_loop]. rewrite decide_True by done. cbn [mbind option_bind].
  eexists. split; [done|].
  rewrite !played_app, !reads_made_app, played_turns, reads_made_turns.
  change (played (ogg_prologue fd io)) with (@nil Z).
  change (played [Og_read]) with (@nil Z).
  change (played [Og_clear; Og_fclose]) with (@nil Z).
  change (reads_made (ogg_prologue fd io)) with 0%nat.
  change (reads_made [Og_read]) with 1%nat.
  change (reads_made [Og_clear; Og_fclose]) with 0%nat.
  split; [by rewrite !app_nil_r | lia].
Qed.

(** X6: when [play] refuses a block, that block is the last thing
    decoded: the blocks read before it have been played, no further
    [ov_read] is made, [ov_clear] and [fclose] still run, and the function
    returns 0. *)
Theorem play_oggvorbis_stops_at_refusal fd io pre r rest :
  og_fdopen io = true → 0 ≤ og_open io → og_setup io ≠ -1 →
  og_reads io = pre ++ r :: rest →
  Forall (λ r, r ≠ 0) pre → 0 < r →
  (∀ j, (j < length (positive_reads pre))%nat → og_play io j ≠ 0) →
  og_play io (length (positive_reads pre)) = 0 →
  ∃ calls,
    play_oggvorbis fd io = Some (Ogg_return 0 calls) ∧
    played calls = positive_reads pre ++ [r] ∧
    reads_made calls = S (length pre) ∧
    (∃ before, calls = before ++ [Og_play r; Og_clear; Og_fclose]).
Proof.
  intros Hf Ho Hs Hreads Hpre Hr Hplay Hstop. unfold play_oggvorbis.
  rewrite Hf. cbn [negb]. rewrite decide_False by lia.
  rewrite decide_False by done. fold (ogg_prologue fd io).
  rewrite Hreads, ogg_loop_prefix by done.
  cbn [ogg_loop]. rewrite decide_False by lia. rewrite decide_True by done.
  rewrite decide_True by done. cbn [mbind option_bind].
  eexists. split; [done|].
  rewrite !played_app, !reads_made_app, played_turns, reads_made_turns.
  change (played (ogg_prologue fd io)) with (@nil Z).
  change (played [Og_read; Og_play r]) with [r].
  change (played [Og_clear; Og_fclose]) with (@nil Z).
  change (reads_made (ogg_prologue fd io)) with 0%nat.
  change (reads_made [Og_read; Og_play r]) with 1%nat.
  change (reads_made [Og_clear; Og_fclose]) with 0%nat.
  split; [by rewrite !app_nil_r|]. split; [lia|].
  exists ((ogg_prologue fd io ++ flat_map ogg_turn pre) ++ [Og_read]).
  by rewrite <- !app_assoc.
Qed.

End Ogg.

(** ** Creating the control socket *)

Section Init.
Implicit Types (size : nat) (path : string) (io : init_io).

Lemma substring0_length n (s : string) :
  String.length (String.substring 0 n s) = Nat.min n (String.length s).
Proof.
  revert n. induction s as [|c s IH]; intros [|n]; cbn; try done.
  by rewrite IH.
Qed.

Lemma substring0_all n (s : string) :
  (String.length s ≤ n)%nat → String.substring 0 n s = s.
Proof.
  revert n. induction s as [|c s IH]; intros [|n] Hn; cbn in *; try done.
  - lia.
  - rewrite IH by lia. done.
Qed.

Lemma substring0_prefix n (s : string) :
  String.prefix (String.substring 0 n s) s = true.
Proof.
  revert n. induction s as [|c s IH]; intros [|n]; cbn; try done.
  destruct (Ascii.ascii_dec c c); [apply IH | done].
Qed.

Lemma control_init_bind_calls size path io ret calls log :
  control_init size path io = Init_return ret calls log →
  bind_calls calls = [] ∨ bind_calls calls = [strlcpy size path].
Proof.
  unfold control_init. repeat case_decide; intros [= <- <- <-]; auto.
Qed.

(** X7: [control_init] leaks no descriptor and fails loudly.  When it
    returns -1 it has logged the reason, and unless socket() itself
    failed it has closed the socket exactly once; when it returns anything
    else, that is the descriptor socket() gave, nothing was logged and
    nothing was closed. *)
Theorem control_init_no_leak size path io ret calls log :
  control_init size path io = Init_return ret calls log →
  (ret = -1 →
     log ≠ [] ∧
     ((ii_socket io = -1 ∧ calls = [Sys_socket]) ∨
      (ii_socket io ≠ -1 ∧ close_calls calls = [ii_socket io]))) ∧
  (ret ≠ -1 →
     ret = ii_socket io ∧ log = [] ∧ close_calls calls = []).
Proof.
  unfold control_init. repeat case_decide; intros [= <- <- <-]; split;
    intros Hr; try done; (split; [done|]); first [by left | by right].
Qed.

Ltac in_calls H :=
  repeat (apply elem_of_cons in H as [H|H]; [try discriminate H|]);
  try (by apply elem_of_nil in H).

(** X8: [control_init] changes the file creation mask only around bind.
    In a run that returns, either bind and umask are not called at all,
    or the calls are: some calls without umask or bind, then umask with
    the restrictive mask, then at once bind on the socket with the name
    cut by [strlcpy], then calls among which umask comes exactly once,
    with the mask that was in force, and bind never again; when bind
    succeeded that restoring umask is the very next call, before chmod.
    When chmod fails after a successful bind, the socket file just
    created is unlinked as the last call.  When fcntl is fatal the mask is
    never touched and nothing is unlinked or bound. *)
Theorem control_init_restores_umask size path io :
  match control_init size path io with
  | Init_return ret calls log =>
      (bind_calls calls = [] ∧ umask_calls calls = []) ∨
      (∃ before after,
         calls = before ++
                 Sys_umask init_umask ::
                 Sys_bind (ii_socket io) (strlcpy size path) :: after ∧
         umask_calls before = [] ∧ bind_calls before = [] ∧
         umask_calls after = [ii_umask io] ∧ bind_calls after = [] ∧
         (ii_bind io ≠ -1 → head after = Some (Sys_umask (ii_umask io))) ∧
         (ret = -1 → ii_bind io ≠ -1 → last calls = Some (Sys_unlink path)))
  | Init_fatal msg calls =>
      bind_calls calls = [] ∧ umask_calls calls = [] ∧
      Forall (λ c, ∀ p, c ≠ Sys_unlink p) calls ∧
      (ii_getfl io = -1 ∨ ii_setfl io = -1 ∨ ii_setfd io = -1)
  end.
Proof.
  unfold control_init. repeat case_decide; cbn.
  - by left.
  - split; [done|]. split; [done|]. split; [by repeat constructor | auto].
  - split; [done|]. split; [done|]. split; [by repeat constructor | auto].
  - split; [done|]. split; [done|]. split; [by repeat constructor | auto].
  - by left.
  - right.
    exists [Sys_socket; Sys_getfl (ii_socket io);
            Sys_setfl (ii_socket io) (Z.lor (ii_getfl io) O_NONBLOCK);
            Sys_setfd (ii_socket io) FD_CLOEXEC; Sys_unlink path],
           [Sys_close (ii_socket io); Sys_umask (ii_umask io)].
    do 5 (split; [done|]). split; [intros ?; congruence | intros _ ?; congruence].
  - right.
    exists [Sys_socket; Sys_getfl (ii_socket io);
            Sys_setfl (ii_socket io) (Z.lor (ii_getfl io) O_NONBLOCK);
            Sys_setfd (ii_socket io) FD_CLOEXEC; Sys_unlink path],
           [Sys_umask (ii_umask io); Sys_chmod path init_mode;
            Sys_close (ii_socket io); Sys_unlink path].
    do 5 (split; [done|]). done.
  - right.
    exists [Sys_socket; Sys_getfl (ii_socket io);
            Sys_setfl (ii_socket io) (Z.lor (ii_getfl io) O_NONBLOCK);
            Sys_setfd (ii_socket io) FD_CLOEXEC; Sys_unlink path],
           [Sys_umask (ii_umask io); Sys_chmod path init_mode].
    do 5 (split; [done|]). split; [done|]. intros ?. lia.
Qed.

(** X9: the name [control_init] binds is the path cut to what fits in
    [sun_path] ([strlcpy]), while unlink and chmod are given the whole
    path.  In a run that reaches bind, the name bound is a prefix of the
    path of at most [size - 1] characters, the path itself if that fits
    and another name if it does not; the stale entry was unlinked under
    the whole path; whenever bind succeeded chmod was called on the whole
    path with mode rw-rw----; and no unlink and no chmod of the run names
    anything but the whole path.  So when the path does not fit, the
    socket is bound under a strict prefix of the path and chmod and
    unlink are applied to another name. *)
Theorem control_init_bound_path size path io ret calls log :
  control_init size path io = Init_return ret calls log →
  ∀ name, name ∈ bind_calls calls →
    (String.length name ≤ size - 1)%nat ∧
    String.prefix name path = true ∧
    ((String.length path < size)%nat → name = path) ∧
    ((0 < size ≤ String.length path)%nat → name ≠ path) ∧
    (ret ≠ -1 → Sys_chmod path init_mode ∈ calls) ∧
    Sys_unlink path ∈ calls ∧
    (ii_bind io ≠ -1 → Sys_chmod path init_mode ∈ calls) ∧
    (∀ p, Sys_unlink p ∈ calls → p = path) ∧
    (∀ p mode, Sys_chmod p mode ∈ calls → p = path ∧ mode = init_mode).
Proof.
  intros Hret name Hin.
  assert (name = strlcpy size path) as Hname.
  { destruct (control_init_bind_calls _ _ _ _ _ _ Hret) as [Hb|Hb];
      rewrite Hb in Hin.
    - by apply not_elem_of_nil in Hin.
    - by apply list_elem_of_singleton in Hin. }
  unfold strlcpy in Hname. split; [|split; [|split; [|split]]].
  - rewrite Hname, substring0_length. lia.
  - rewrite Hname. apply substring0_prefix.
  - intros Hlt. rewrite Hname. apply substring0_all. lia.
  - intros Hge Heq. rewrite Hname in Heq.
    apply (f_equal String.length) in Heq.
    rewrite substring0_length in Heq. lia.
  - clear Hname. revert Hret Hin. unfold control_init.
    repeat case_decide; intros [= <- <- <-]; cbn;
      try (by intros ?%not_elem_of_nil); intros _.
    + split; [done|]. split; [rewrite !elem_of_cons; auto 12|].
      split; [done|]. split.
      * intros p Hp. in_calls Hp. by injection Hp.
      * intros p mode Hp. in_calls Hp.
    + split; [done|]. split; [rewrite !elem_of_cons; auto 12|].
      split; [intros _; rewrite !elem_of_cons; auto 12|]. split.
      * intros p Hp. in_calls Hp; by injection Hp.
      * intros p mode Hp. in_calls Hp. by injection Hp as -> ->.
    + split; [intros _; rewrite !elem_of_cons; auto 12|].
      split; [rewrite !elem_of_cons; auto 12|].
      split; [intros _; rewrite !elem_of_cons; auto 12|]. split.
      * intros p Hp. in_calls Hp. by injection Hp.
      * intros p mode Hp. in_calls Hp. by injection Hp as -> ->.
Qed.

End Init.

(** ** The connection table: lookup, accept, close *)

Section Clients.
Context `{!Abi, !MainOps, !MainOpsFrame}.
Implicit Types (s : state) (m : imsg) (fd lfd : Z) (l : list ctl_conn).

Lemma connbyfd_app_l fd l l' :
  fd ∈ map conn_fd l →
  control_connbyfd fd (l ++ l') = control_connbyfd fd l.
Proof.
  induction l as [|c l IH]; cbn; [by intros ?%not_elem_of_nil|].
  intros Hin. case_decide as Hc; [done|].
  apply IH. apply elem_of_cons in Hin as [?|?]; [congruence | done].
Qed.

Lemma connbyfd_app_r fd l l' :
  fd ∉ map conn_fd l →
  control_connbyfd fd (l ++ l') = control_connbyfd fd l'.
Proof.
  induction l as [|c l IH]; cbn; [done|].
  intros Hin. apply not_elem_of_cons in Hin as [Hne Hin].
  by rewrite decide_False, IH by congruence.
Qed.

Lemma conn_remove_app fd l1 c l2 :
  conn_fd c = fd → fd ∉ map conn_fd l1 →
  conn_remove fd (l1 ++ c :: l2) = l1 ++ l2.
Proof.
  intros Hc. induction l1 as [|x l1 IH]; cbn.
  - intros _. by rewrite decide_True.
  - intros [Hne Hin]%not_elem_of_cons.
    by rewrite decide_False, IH by congruence.
Qed.

(** X10: [control_connbyfd] returns the first connection of the queue
    with the fd asked for, and NULL exactly when no connection has it. *)
Theorem control_connbyfd_first fd l :
  match control_connbyfd fd l with
  | Some c =>
      ∃ l1 l2, l = l1 ++ c :: l2 ∧ conn_fd c = fd ∧ fd ∉ map conn_fd l1
  | None => fd ∉ map conn_fd l
  end.
Proof.
  induction l as [|x l IH]; cbn; [apply not_elem_of_nil|].
  case_decide as Hx.
  - exists [], l. split; [done|]. split; [done | apply not_elem_of_nil].
  - destruct (control_connbyfd fd l) as [c|].
    + destruct IH as (l1 & l2 & -> & Hc & Hnot).
      exists (x :: l1), l2. split; [done|]. split; [done|].
      cbn. apply not_elem_of_cons. split; [congruence | done].
    + apply not_elem_of_cons. split; [congruence | done].
Qed.

Lemma connbypid_first pid (f : ctl_conn → ctl_conn) l :
  match control_connbypid pid l with
  | Some c =>
      ∃ l1 l2, l = l1 ++ c :: l2 ∧ ibuf_pid (iev c) = pid ∧
        Forall (λ c', ibuf_pid (iev c') ≠ pid) l1 ∧
        conn_update_pid pid f l = l1 ++ f c :: l2
  | None => Forall (λ c', ibuf_pid (iev c') ≠ pid) l
  end.
Proof.
  induction l as [|x l IH]; cbn; [done|].
  case_decide as Hx.
  - exists [], l. by repeat split.
  - destruct (control_connbypid pid l) as [c|].
    + destruct IH as (l1 & l2 & -> & Hc & Hnot & Hup).
      exists (x :: l1), l2. split; [done|]. split; [done|].
      split; [by constructor|]. cbn. by rewrite Hup.
    + by constructor.
Qed.

(** X11: [control_imsg_relay] hands the message, with its type, pid and
    payload, to the first connection of the queue whose pid is the one in
    the header, and to that one only; when no connection has that pid it
    changes nothing. *)
Theorem control_imsg_relay_first_pid m s :
  match control_connbypid (hdr_pid m) (ctl_conns s) with
  | Some c =>
      ∃ l1 l2,
        ctl_conns s = l1 ++ c :: l2 ∧
        ibuf_pid (iev c) = hdr_pid m ∧
        Forall (λ c', ibuf_pid (iev c') ≠ hdr_pid m) l1 ∧
        ctl_conns (control_imsg_relay m s)
          = l1 ++
            mk_ctl_conn (monitor c)
              (mk_imsgev (ibuf_fd (iev c)) (ibuf_pid (iev c))
                 (ibuf_w (iev c) ++
                  [mk_out (hdr_type m) 0 (hdr_pid m) (-1)
                     (P_raw (imsg_data m))])
                 (iev_events (iev c))) :: l2
  | None =>
      Forall (λ c', ibuf_pid (iev c') ≠ hdr_pid m) (ctl_conns s) ∧
      control_imsg_relay m s = s
  end.
Proof.
  pose proof (connbypid_first (hdr_pid m)
                (set_iev (imsg_compose_event (hdr_type m) 0 (hdr_pid m) (-1)
                            (P_raw (imsg_data m)))) (ctl_conns s)) as Hl.
  unfold control_imsg_relay.
  destruct (control_connbypid (hdr_pid m) (ctl_conns s)) as [c|].
  - destruct Hl as (l1 & l2 & Hsplit & Hc & Hnot & Hup).
    exists l1, l2. split; [done|]. split; [done|]. split; [done|].
    cbn. by rewrite Hup.
  - by split.
Qed.

(** X12: a successful accept adds one connection, at the tail of the
    queue: not monitoring, with an empty output queue, registered for
    reading with [control_dispatch_imsg]; the connections already there,
    the transaction, the timer and main are untouched.  If the descriptor
    is new to the table the connection is found under it, and every other
    lookup answers as before. *)
Theorem control_accept_new_client listenfd io s :
  (io_accept io).1 ≠ -1 → io_calloc io = true →
  ctl_conns (control_accept listenfd io s)
    = ctl_conns s ++
      [mk_ctl_conn 0
         (mk_imsgev (io_accept io).1 (io_peer_pid io) [] POLLIN)] ∧
  ev_fds (evs (control_accept listenfd io s)) !! (io_accept io).1
    = Some (POLLIN, H_control_dispatch_imsg) ∧
  control_state (control_accept listenfd io s) = control_state s ∧
  main (control_accept listenfd io s) = main s ∧
  ev_tmr (evs (control_accept listenfd io s)) = ev_tmr (evs s) ∧
  ((io_accept io).1 ∉ conn_fds s →
     control_connbyfd (io_accept io).1 (ctl_conns (control_accept listenfd io s))
       = Some (mk_ctl_conn 0
                 (mk_imsgev (io_accept io).1 (io_peer_pid io) [] POLLIN))) ∧
  (∀ fd, fd ∈ conn_fds s →
     control_connbyfd fd (ctl_conns (control_accept listenfd io s))
       = control_connbyfd fd (ctl_conns s)).
Proof.
  intros Hfd Hc. unfold control_accept.
  rewrite decide_False by done. rewrite Hc. cbn.
  split; [done|]. split; [apply lookup_insert_eq|].
  split; [done|]. split; [done|]. split; [done|]. split.
  - intros Hnew. rewrite connbyfd_app_r by done. cbn.
    by rewrite decide_True.
  - intros fd Hin. by apply connbyfd_app_l.
Qed.

(** X13: an accept that fails, or whose connection record cannot be
    allocated, never changes the connection table, the transaction or
    main.  Unless the failure is ENFILE or EMFILE the event core is left
    as it was too, and for EWOULDBLOCK, EINTR and ECONNABORTED nothing is
    logged. *)
Theorem control_accept_failure_keeps_clients listenfd io s :
  (io_accept io).1 = -1 ∨ io_calloc io = false →
  ctl_conns (control_accept listenfd io s) = ctl_conns s ∧
  control_state (control_accept listenfd io s) = control_state s ∧
  main (control_accept listenfd io s) = main s ∧
  (errno (sets_errno (io_accept io) s) ≠ ENFILE →
   errno (sets_errno (io_accept io) s) ≠ EMFILE →
   evs (control_accept listenfd io s) = evs s) ∧
  ((io_accept io).1 = -1 →
   errno (sets_errno (io_accept io) s) = EWOULDBLOCK ∨
   errno (sets_errno (io_accept io) s) = EINTR ∨
   errno (sets_errno (io_accept io) s) = ECONNABORTED →
   logged (control_accept listenfd io s) = logged s).
Proof.
  intros Hfail. unfold control_accept.
  assert (∀ A (f : state → A),
            (∀ s e, f (set_errno e s) = f s) →
            f (sets_errno (io_accept io) s) = f s) as Herr.
  { intros A f Hf. unfold sets_errno. by destruct (io_accept io).2. }
  destruct (decide ((io_accept io).1 = -1)) as [Hm1|Hm1].
  - repeat case_decide; cbn;
      rewrite ?(Herr _ ctl_conns), ?(Herr _ control_state), ?(Herr _ main),
        ?(Herr _ evs), ?(Herr _ logged) by done;
      repeat split; try done; try (intros; exfalso; tauto).
  - destruct Hfail as [?|Hc]; [done|]. rewrite Hc. by cbn.
Qed.

(** X14: [control_close] takes exactly one connection out of the queue,
    the first with that fd, and keeps the others in their order; main is
    not touched and the registrations of the other descriptors stay,
    the listening socket apart. *)
Theorem control_close_removes_first fd s l1 c l2 :
  ctl_conns s = l1 ++ c :: l2 →
  conn_fd c = fd → fd ∉ map conn_fd l1 →
  ctl_conns (control_close fd s) = l1 ++ l2 ∧
  main (control_close fd s) = main s ∧
  ev_fds (evs (control_close fd s)) !! fd
    = (if decide (fd = cs_fd (control_state s) ∧ is_Some (ev_tmr (evs s)))
       then Some (POLLIN, H_control_accept) else None) ∧
  (∀ x, x ≠ fd → x ≠ cs_fd (control_state s) →
        ev_fds (evs (control_close fd s)) !! x = ev_fds (evs s) !! x).
Proof.
  intros Hl Hc Hnot.
  assert (control_connbyfd fd (ctl_conns s) = Some c) as Hfound.
  { rewrite Hl, connbyfd_app_r by done. cbn. by rewrite decide_True. }
  rewrite (control_close_conns fd c s Hfound), (control_close_evs fd c s Hfound),
    control_close_main, Hl, conn_remove_app by done.
  split; [done|]. split; [done|]. split.
  - destruct (ev_tmr (evs s)) as [t|]; cbn.
    + case_decide as Hd.
      * destruct Hd as [-> _]. apply lookup_insert_eq.
      * rewrite lookup_insert_ne; [apply lookup_delete_eq|].
        intros Heq. apply Hd. split; [done | by eexists].
    + rewrite decide_False by (by intros [_ [? ?]]). apply lookup_delete_eq.
  - intros x Hx Hlx. destruct (ev_tmr (evs s)); cbn.
    + rewrite lookup_insert_ne by done. by rewrite lookup_delete_ne.
    + by rewrite lookup_delete_ne.
Qed.

(** X15: closing a connection while accept is paused ends the pause at
    once: the timer is disarmed and the listening socket is back in the
    readable set, without waiting for the second to pass.  With no pause
    pending no timer appears. *)
Theorem control_close_resumes_accept fd c s :
  control_connbyfd fd (ctl_conns s) = Some c →
  ev_tmr (evs (control_close fd s)) = None ∧
  (is_Some (ev_tmr (evs s)) → listener_attached (control_close fd s)).
Proof.
  intros Hc. unfold listener_attached.
  rewrite (control_close_evs fd c s Hc), (control_close_control_state fd c s Hc).
  split; [by destruct (ev_tmr (evs s))|].
  intros [t ->]. cbn.
  assert (cs_fd (if decide (tx_open s ∧ fd = tx_owner s)
                 then mk_control_state (cs_fd (control_state s)) [] (-1)
                 else control_state s) = cs_fd (control_state s)) as ->
    by by case_decide.
  apply lookup_insert_eq.
Qed.

(** X16: accept followed by the close of the descriptor it returned
    leaves the daemon exactly as it was, when accept was not paused and
    the descriptor was not registered before. *)
Theorem accept_then_close_identity lfd listenfd io s :
  reachable lfd s →
  accept_fresh s io → (io_accept io).1 ≠ -1 → io_calloc io = true →
  ev_fds (evs s) !! (io_accept io).1 = None →
  ev_tmr (evs s) = None →
  control_close (io_accept io).1 (control_accept listenfd io s) = s.
Proof.
  intros Hi%reachable_inv Hfresh Hfd Hcal Hreg Htmr.
  destruct Hfresh as [?|(Hpos & Hne & Hnew)]; [done|].
  assert (tx_owner s ≠ (io_accept io).1) as Htx.
  { destruct (inv_owner _ _ Hi) as [Ho|Ho]; [rewrite Ho; lia|].
    intros Heq. by rewrite Heq in Ho. }
  unfold control_accept. rewrite decide_False by done. rewrite Hcal. cbn.
  unfold control_close. cbn. rewrite connbyfd_app_r by done. cbn.
  rewrite decide_True by done.
  rewrite decide_False by (intros [_ ?]; by apply Htx).
  cbn. unfold ev_timer_pending. cbn. rewrite Htmr.
  rewrite bool_decide_eq_false_2 by (by intros [? ?]).
  unfold conn_fds in Hnew.
  unfold ev_del, ev_add, set_evs, set_ctl_conns. cbn.
  rewrite (conn_remove_app _ (ctl_conns s) _ []) by done.
  rewrite app_nil_r, delete_insert_eq, delete_id by done.
  destruct s as [cs conns ms [fds tmr] e lg]. cbn in *. by subst tmr.
Qed.

End Clients.

(** ** A turn of the dispatcher *)

Section Turn.
Context `{!Abi, !MainOps, !MainOpsFrame}.
Implicit Types (s : state) (m : imsg) (fd lfd : Z) (l : list ctl_conn).

Lemma conn_remove_elem_ne fd x l :
  x ≠ fd → x ∈ map conn_fd (conn_remove fd l) ↔ x ∈ map conn_fd l.
Proof.
  intros Hne. induction l as [|c l IH]; cbn; [done|].
  case_decide as Hc; cbn.
  - rewrite elem_of_cons. split; [by right|]. intros [?|?]; [congruence|done].
  - by rewrite !elem_of_cons, IH.
Qed.

Lemma control_close_other_fds fd x s :
  x ≠ fd → x ∈ conn_fds (control_close fd s) ↔ x ∈ conn_fds s.
Proof.
  intros Hne. destruct (control_connbyfd fd (ctl_conns s)) as [c|] eqn:Hc.
  - unfold conn_fds. rewrite (control_close_conns fd c s Hc).
    by apply conn_remove_elem_ne.
  - unfold control_close. by rewrite Hc.
Qed.

Lemma imsg_event_add_fds fd s : conn_fds (imsg_event_add fd s) = conn_fds s.
Proof.
  unfold imsg_event_add. destruct (control_connbyfd fd (ctl_conns s)); [|done].
  unfold conn_fds. cbn. apply conn_fds_update. by intros [].
Qed.

Lemma dispatch_loop_other_fds fd x frames s :
  x ≠ fd → x ∈ conn_fds (dispatch_loop fd frames s) ↔ x ∈ conn_fds s.
Proof.
  intros Hne. revert s. induction frames as [|[m|] frames IH]; intros s; cbn.
  - by rewrite imsg_event_add_fds.
  - rewrite IH. by destruct (dispatch_case_ev_same fd m s) as (_ & -> & _).
  - by apply control_close_other_fds.
Qed.

(** X17: the frames of a turn are dispatched in the order [imsg_get]
    yields them, and then the connection is re-registered; a frame that
    cannot be parsed ends the turn: the frames before it have taken
    effect, the connection is closed and what follows it is dropped
    without being dispatched. *)
Theorem dispatch_loop_in_order fd (ms : list imsg) s :
  dispatch_loop fd (Frame <$> ms) s = imsg_event_add fd (run_cases fd ms s) ∧
  ∀ rest,
    dispatch_loop fd ((Frame <$> ms) ++ Corrupt :: rest) s
      = control_close fd (run_cases fd ms s).
Proof.
  revert s. induction ms as [|m ms IH]; intros s; [done|].
  cbn. destruct (IH (dispatch_case fd m s)) as [He Hc]. split; [done|].
  intros rest. apply Hc.
Qed.

(** X18: on end of file, or on a read error other than EAGAIN, the
    connection is closed and none of the frames still buffered is
    dispatched: main is untouched and the table only loses that
    connection.  A read that fails with EAGAIN closes nothing: the turn
    goes on with the frames at hand. *)
Theorem control_dispatch_imsg_read fd c event io s :
  control_connbyfd fd (ctl_conns s) = Some c →
  Z.land event POLLIN ≠ 0 →
  ((io_read io).1 = 0 ∨
   ((io_read io).1 = -1 ∧ errno (sets_errno (io_read io) s) ≠ EAGAIN) →
   control_dispatch_imsg fd event io s
     = control_close fd (sets_errno (io_read io) s) ∧
   main (control_dispatch_imsg fd event io s) = main s ∧
   ctl_conns (control_dispatch_imsg fd event io s)
     = conn_remove fd (ctl_conns s)) ∧
  ((io_read io).1 = -1 → errno (sets_errno (io_read io) s) = EAGAIN →
   Z.land event POLLOUT = 0 →
   control_dispatch_imsg fd event io s
     = dispatch_loop fd (io_frames io) (sets_errno (io_read io) s)).
Proof.
  intros Hc Hin. unfold control_dispatch_imsg. rewrite Hc.
  rewrite (bool_decide_eq_true_2 (Z.land event POLLIN ≠ 0)) by done.
  assert (∀ A (f : state → A),
            (∀ s e, f (set_errno e s) = f s) →
            f (sets_errno (io_read io) s) = f s) as Herr.
  { intros A f Hf. unfold sets_errno. by destruct (io_read io).2. }
  split.
  - intros Hfail. rewrite bool_decide_eq_true_2 by tauto. cbn [andb].
    split; [done|]. rewrite control_close_main, (Herr _ main) by done.
    split; [done|].
    assert (control_connbyfd fd (ctl_conns (sets_errno (io_read io) s)) = Some c)
      as Hc' by (by rewrite (Herr _ ctl_conns)).
    by rewrite (control_close_conns fd c _ Hc'), (Herr _ ctl_conns).
  - intros Hm1 Hag Hout. rewrite bool_decide_eq_false_2 by (intros [[_ ?]|?]; [done | lia]).
    cbn [andb]. by rewrite (bool_decide_eq_false_2 (Z.land event POLLOUT ≠ 0)) by tauto.
Qed.

(** X19: whatever a turn for one connection does, it closes no other
    connection and opens none: a descriptor other than the one served is
    in the table after the turn if and only if it was before. *)
Theorem control_dispatch_imsg_keeps_other_clients fd event io s x :
  x ≠ fd →
  x ∈ conn_fds (control_dispatch_imsg fd event io s) ↔ x ∈ conn_fds s.
Proof.
  intros Hne. unfold control_dispatch_imsg.
  destruct (control_connbyfd fd (ctl_conns s)) as [c|]; [|done].
  set (s1 := if bool_decide (Z.land event POLLIN ≠ 0)
             then sets_errno (io_read io) s else s).
  assert (conn_fds s1 = conn_fds s) as Hs1.
  { subst s1. case_bool_decide; [|done].
    by destruct (sets_errno_same s (io_read io)) as (_ & -> & _). }
  destruct (_ && _); [by rewrite control_close_other_fds, Hs1|].
  set (s2 := if bool_decide (Z.land event POLLOUT ≠ 0)
             then msgbuf_sent fd io (sets_errno (io_write io) s1) else s1).
  assert (conn_fds s2 = conn_fds s) as Hs2.
  { subst s2. case_bool_decide; [|done].
    destruct (msgbuf_sent_same fd io (sets_errno (io_write io) s1))
      as (_ & -> & _).
    by destruct (sets_errno_same s1 (io_write io)) as (_ & -> & _). }
  destruct (_ && _); [by rewrite control_close_other_fds, Hs2|].
  by rewrite dispatch_loop_other_fds, Hs2.
Qed.

(** X20: commands other than Begin, Add and Commit never touch the
    transaction: after any run of them the owner, the scratch playlist
    and the listening fd are what they were, the same connections are in
    the table, and the timer and the registration of the listening socket
    are unchanged. *)
Theorem commands_outside_transaction fd (ms : list imsg) s :
  Forall (λ m, ¬ transactional (hdr_type m)) ms →
  control_state (run_cases fd ms s) = control_state s ∧
  conn_fds (run_cases fd ms s) = conn_fds s ∧
  ev_tmr (evs (run_cases fd ms s)) = ev_tmr (evs s) ∧
  ev_fds (evs (run_cases fd ms s)) !! cs_fd (control_state s)
    = ev_fds (evs s) !! cs_fd (control_state s).
Proof.
  intros Hms. change (ctl_same s (run_cases fd ms s)). revert s.
  induction Hms as [|m ms Hm _ IH]; intros s; [apply ctl_same_refl|].
  rewrite run_cases_cons. eapply ctl_same_trans; [|apply IH].
  by apply dispatch_case_same.
Qed.

(** X21: in every state of a running daemon the descriptors of the
    connections are pairwise distinct, non-negative and different from
    the listening socket, the scratch playlist is empty whenever no
    transaction is open, and the timer is either idle or armed for one
    second with [enable_accept]. *)
Theorem reachable_table_invariant lfd s :
  reachable lfd s →
  cs_fd (control_state s) = lfd ∧
  NoDup (conn_fds s) ∧
  Forall (λ fd, 0 ≤ fd ∧ fd ≠ lfd) (conn_fds s) ∧
  (¬ tx_open s → tx_scratch s = []) ∧
  (ev_tmr (evs s) = None ∨
   ev_tmr (evs s) = Some (mk_timeval 1 0, H_enable_accept)).
Proof.
  intros [Hl Hf Hn Ho Hs Ht Hli]%reachable_inv.
  split; [done|]. split; [done|]. split; [done|]. split; [|done].
  intros Hc. apply Hs. unfold tx_open in Hc. lia.
Qed.

(** X22: a Commit when no transaction is open is refused like a Commit
    of a stranger: the sender gets the error "locked" whatever the
    payload, and the live playlist, the scratch playlist and the owner
    are unchanged. *)
Theorem commit_without_transaction lfd fd c m s :
  reachable lfd s →
  control_connbyfd fd (ctl_conns s) = Some c →
  ¬ tx_open s →
  hdr_type m = IMSG_CTL_COMMIT →
  dispatch_case fd m s = main_senderr fd "locked" s ∧
  wq fd (dispatch_case fd m s) = Some (conn_w c ++ [err_frame "locked"]) ∧
  main (dispatch_case fd m s) = main s ∧
  control_state (dispatch_case fd m s) = control_state s.
Proof.
  intros Hi%reachable_inv Hc Hclosed Hm.
  assert (tx_owner s ≠ fd) as Hne.
  { destruct (connbyfd_Some _ _ _ Hc) as [<- Hin].
    assert (conn_fd c ∈ conn_fds s) as Hin'
      by (unfold conn_fds; apply list_elem_of_fmap; by exists c).
    destruct (control_inv_fd_ne lfd _ s Hi Hin').
    unfold tx_open in Hclosed. lia. }
  rewrite (tx_fails_senderr fd m s "locked") by (by apply commit_locked).
  split; [done|]. split; [by apply wq_senderr | done].
Qed.

End Turn.

(** ** Playback commands, monitors and modes *)

Section Playback.
Context `{!Abi, !MainOps}.
Implicit Types (s : state) (m : imsg) (fd : Z) (l : list ctl_conn).

Lemma control_notify_notified ev l :
  Forall2 (notified ev) l (map (notify_conn ev) l).
Proof.
  induction l as [|c l IH]; cbn; constructor; [|done].
  apply notify_conn_notified.
Qed.

Lemma heard_notify_conn ev ev' c : heard ev (notify_conn ev' c) = heard ev c.
Proof.
  unfold heard, notify_conn. destruct (decide (monitor c = 0)) as [Hm|Hm].
  - by rewrite decide_True.
  - cbn. by rewrite decide_False.
Qed.

Lemma toggle_once fd m s :
  hdr_type m = IMSG_CTL_TOGGLE_PLAY →
  play_state (main s) ≠ STATE_STOPPED →
  dispatch_case fd m s
    = main_send_player (toggle_order (play_state (main s))) (-1) P_null
        (set_main (set_play_state (toggled (play_state (main s))))
           (control_notify (toggle_event (play_state (main s))) s)).
Proof.
  intros Hm Hp. unfold dispatch_case. rewrite Hm.
  by destruct (play_state (main s)).
Qed.

Lemma conn_update_idemp fd (f : ctl_conn → ctl_conn) l :
  (∀ c, conn_fd (f c) = conn_fd c) → (∀ c, f (f c) = f c) →
  conn_update fd f (conn_update fd f l) = conn_update fd f l.
Proof.
  intros Hfd Hf. induction l as [|c l IH]; cbn; [done|].
  case_decide as Hc; cbn.
  - by rewrite Hfd, decide_True, Hf.
  - by rewrite decide_False, IH.
Qed.

(** X23: Stop acts if and only if the daemon is not stopped.  When
    playing or paused the play state becomes Stopped, one Stop order is
    queued for the player worker and every monitoring connection gets one
    Monitor frame whose event is Stop with the current position, duration
    and modes; when already stopped the state is not changed at all:
    nothing is sent to the worker and nothing is broadcast. *)
Theorem stop_only_when_not_stopped fd m s :
  hdr_type m = IMSG_CTL_STOP →
  (play_state (main s) ≠ STATE_STOPPED →
     play_state (main (dispatch_case fd m s)) = STATE_STOPPED ∧
     player_w (main (dispatch_case fd m s))
       = player_w (main s) ++ [mk_out IMSG_STOP 0 0 (-1) P_null] ∧
     Forall2
       (notified
          (mk_player_event IMSG_CTL_STOP (current_position (main s))
            (current_duration (main s))
            (mk_player_mode (repeat_one (main s)) (repeat_all (main s))
               (consume (main s)))))
       (ctl_conns s) (ctl_conns (dispatch_case fd m s)) ∧
     control_state (dispatch_case fd m s) = control_state s) ∧
  (play_state (main s) = STATE_STOPPED → dispatch_case fd m s = s).
Proof.
  intros Hm. unfold dispatch_case. rewrite Hm. split; intros Hp.
  - rewrite decide_False by done.
    split; [done|]. split; [done|]. split; [|done].
    apply control_notify_notified.
  - by rewrite decide_True.
Qed.

(** X24: Play when the daemon is not stopped: the play state is Playing
    afterwards; a Resume order is queued for the player worker only if
    the daemon was paused, none if it was already playing; in both cases
    every monitoring connection gets one Monitor frame whose event is Play
    with the current position, duration and modes. *)
Theorem play_when_not_stopped fd m s :
  hdr_type m = IMSG_CTL_PLAY →
  play_state (main s) ≠ STATE_STOPPED →
  play_state (main (dispatch_case fd m s)) = STATE_PLAYING ∧
  player_w (main (dispatch_case fd m s))
    = player_w (main s) ++
        (if decide (play_state (main s) = STATE_PAUSED)
         then [mk_out IMSG_RESUME 0 0 (-1) P_null] else []) ∧
  Forall2
    (notified
       (mk_player_event IMSG_CTL_PLAY (current_position (main s))
          (current_duration (main s))
          (mk_player_mode (repeat_one (main s)) (repeat_all (main s))
             (consume (main s)))))
    (ctl_conns s) (ctl_conns (dispatch_case fd m s)) ∧
  control_state (dispatch_case fd m s) = control_state s.
Proof.
  intros Hm Hp. unfold dispatch_case. rewrite Hm.
  destruct (play_state (main s)) eqn:Hps; [done| |].
  - cbn. rewrite app_nil_r. split; [done|]. split; [done|]. split; [|done].
    apply control_notify_notified.
  - cbn. split; [done|]. split; [done|]. split; [|done].
    apply control_notify_notified.
Qed.

(** X25: TogglePlay when the daemon is not stopped flips between Playing
    and Paused, and a second TogglePlay, from any connection, flips back:
    after the two the play state is what it was, the player worker has
    been sent the two opposite orders in turn (Pause then Resume when it
    was playing, Resume then Pause when it was paused), and every
    monitoring connection has got two Monitor frames, in that order: the
    event of the first is Pause when the daemon was playing and Play when
    it was paused, the event of the second is the other one, and both
    carry the current position, duration and modes. *)
Theorem toggle_play_twice fd fd' m m' s x :
  hdr_type m = IMSG_CTL_TOGGLE_PLAY →
  hdr_type m' = IMSG_CTL_TOGGLE_PLAY →
  play_state (main s) ≠ STATE_STOPPED →
  play_state (main (dispatch_case fd m s)) = toggled (play_state (main s)) ∧
  play_state (main (dispatch_case fd' m' (dispatch_case fd m s)))
    = play_state (main s) ∧
  player_w (main (dispatch_case fd' m' (dispatch_case fd m s)))
    = player_w (main s) ++
        [mk_out (toggle_order (play_state (main s))) 0 0 (-1) P_null;
         mk_out (toggle_order (toggled (play_state (main s)))) 0 0 (-1) P_null] ∧
  wq x (dispatch_case fd' m' (dispatch_case fd m s))
    = (λ c, conn_w c ++
            heard
              (mk_player_event (toggle_event (play_state (main s)))
                 (current_position (main s)) (current_duration (main s))
                 (mk_player_mode (repeat_one (main s)) (repeat_all (main s))
                    (consume (main s)))) c ++
            heard
              (mk_player_event (toggle_event (toggled (play_state (main s))))
                 (current_position (main s)) (current_duration (main s))
                 (mk_player_mode (repeat_one (main s)) (repeat_all (main s))
                    (consume (main s)))) c)
        <$> control_connbyfd x (ctl_conns s).
Proof.
  intros Hm Hm' Hp.
  assert (play_state (main (dispatch_case fd m s))
            = toggled (play_state (main s))) as H1
    by (by rewrite toggle_once).
  assert (play_state (main (dispatch_case fd m s)) ≠ STATE_STOPPED) as Hp'
    by (rewrite H1; by destruct (play_state (main s))).
  split; [done|].
  rewrite (toggle_once fd' m' _ Hm' Hp'), H1.
  rewrite (toggle_once fd m s Hm Hp).
  split; [by destruct (play_state (main s))|].
  split; [cbn; by rewrite <- app_assoc|].
  unfold wq. cbn. rewrite !connbyfd_map by apply notify_conn_fd.
  destruct (control_connbyfd x (ctl_conns s)) as [c|]; cbn; [|done].
  by rewrite !conn_w_notify, heard_notify_conn, <- app_assoc.
Qed.

(** X26: Monitor sets the monitor flag of the sender and of nobody else,
    sends no reply and changes nothing besides; asking twice is the same
    as asking once; and from then on a broadcast puts one Monitor frame
    with the event on the sender's queue. *)
Theorem monitor_subscribes fd c m s type :
  control_connbyfd fd (ctl_conns s) = Some c →
  hdr_type m = IMSG_CTL_MONITOR →
  control_connbyfd fd (ctl_conns (dispatch_case fd m s))
    = Some (mk_ctl_conn 1 (iev c)) ∧
  (∀ x, x ≠ fd →
     control_connbyfd x (ctl_conns (dispatch_case fd m s))
       = control_connbyfd x (ctl_conns s)) ∧
  main (dispatch_case fd m s) = main s ∧
  control_state (dispatch_case fd m s) = control_state s ∧
  dispatch_case fd m (dispatch_case fd m s) = dispatch_case fd m s ∧
  wq fd (control_notify type (dispatch_case fd m s))
    = Some (conn_w c ++
            [monitor_frame
               (mk_player_event type (current_position (main s))
                  (current_duration (main s))
                  (mk_player_mode (repeat_one (main s)) (repeat_all (main s))
                     (consume (main s))))]).
Proof.
  intros Hc Hm. unfold dispatch_case. rewrite Hm. cbn.
  rewrite connbyfd_update_eq, Hc by done.
  split; [done|]. split.
  { intros x Hx. by rewrite connbyfd_update_ne. }
  split; [done|]. split; [done|]. split.
  { unfold set_ctl_conns. cbn. by rewrite conn_update_idemp. }
  rewrite connbyfd_map by apply notify_conn_fd.
  rewrite connbyfd_update_eq, Hc by done. cbn.
  by rewrite conn_w_notify.
Qed.

(** X27: the laws of [new_mode].  A request other than "leave" always
    yields a C truth value; a request other than "toggle" is idempotent
    and, unless it is "leave", does not depend on the value before; two
    toggles in a row normalise the value to a truth value and keep it
    when it was one. *)
Theorem new_mode_laws v v' w :
  MODE_TOGGLE ≠ MODE_UNDEF →
  (w ≠ MODE_UNDEF → new_mode v w = 0 ∨ new_mode v w = 1) ∧
  (w ≠ MODE_TOGGLE → new_mode (new_mode v w) w = new_mode v w) ∧
  (w ≠ MODE_UNDEF → w ≠ MODE_TOGGLE → new_mode v w = new_mode v' w) ∧
  new_mode (new_mode v MODE_TOGGLE) MODE_TOGGLE = lnot (lnot v) ∧
  (v = 0 ∨ v = 1 → new_mode (new_mode v MODE_TOGGLE) MODE_TOGGLE = v).
Proof.
  intros Hne. split; [apply new_mode_bool|]. split.
  { intros Hw. destruct (decide (w = MODE_UNDEF)) as [->|Hu].
    - by rewrite !new_mode_leave.
    - by rewrite !new_mode_other. }
  split; [intros; by rewrite !new_mode_other|].
  rewrite !new_mode_toggle by done. split; [done|].
  unfold lnot. intros [->| ->]; by repeat case_decide.
Qed.

(** X28: a Mode command keeps the three modes truth values: if each of
    repeat-one, repeat-all and consume is 0 or 1 before, it is after,
    whatever bytes the request carries and whatever its size; nothing of
    main but the three modes changes. *)
Theorem mode_keeps_boolean fd m s :
  hdr_type m = IMSG_CTL_MODE →
  boolean_modes (main s) →
  boolean_modes (main (dispatch_case fd m s)) ∧
  playlist (main (dispatch_case fd m s)) = playlist (main s) ∧
  play_state (main (dispatch_case fd m s)) = play_state (main s) ∧
  player_w (main (dispatch_case fd m s)) = player_w (main s).
Proof.
  intros Hm (H1 & Ha & Hc). unfold dispatch_case. rewrite Hm.
  case_decide; [done|]. cbn. split; [|done].
  assert (∀ v w, v = 0 ∨ v = 1 → new_mode v w = 0 ∨ new_mode v w = 1) as Hb.
  { intros v w Hv. destruct (decide (w = MODE_UNDEF)) as [->|Hw].
    - by rewrite new_mode_leave.
    - by apply new_mode_bool. }
  unfold boolean_modes. cbn. auto.
Qed.

(** X29: the listening socket is handed over once.  A first
    [control_listen] records the fd and, when listen(2) succeeds,
    returns 0 with the socket registered for accepting; when listen(2)
    fails it returns -1, logs and registers nothing.  Either way the fd
    is recorded, so a second [control_listen] is fatal. *)
Theorem control_listen_once fd r fd' r' s ret s' :
  fd ≠ -1 →
  control_listen fd r s = Running ret s' →
  cs_fd (control_state s) = -1 ∧
  cs_fd (control_state s') = fd ∧
  (r ≠ -1 ∧ ret = 0 ∧ listener_attached s' ∧ logged s' = logged s ∨
   r = -1 ∧ ret = -1 ∧ evs s' = evs s ∧
     logged s' = logged s ++ ["control_listen: listen"]) ∧
  control_listen fd' r' s'
    = Fatal "control_listen: received unexpected controlsock".
Proof.
  intros Hfd. unfold control_listen. case_decide as Hcs; [done|].
  assert (cs_fd (control_state s) = -1) as Hz by (destruct (decide (cs_fd (control_state s) = -1)); [done | tauto]).
  case_decide as Hr; intros [= <- <-]; cbn.
  - split; [done|]. split; [done|]. split; [right; by repeat split|].
    by rewrite decide_True.
  - split; [done|]. split; [done|]. split.
    + left. split; [done|]. split; [done|]. split; [|done].
      unfold listener_attached. cbn. by rewrite lookup_insert_eq.
    + by rewrite decide_True.
Qed.

End Playback.

(** ** The theorems above at the example runs *)

Section MoreRuns.
#[local] Existing Instance lp64.
#[local] Existing Instance idle_main.
#[local] Existing Instance idle_main_frame.

(** Three sample pairs through a buffer of eight bytes. *)
Lemma writecb_stream_witness :
  (4 ≤ length ex_pcm_buf)%nat ∧
  (3 ≤ length ex_left)%nat ∧ (3 ≤ length ex_right)%nat ∧
  ∃ buf' blocks,
    writecb false 3 ex_left ex_right ex_pcm_buf
      = Some (WRITE_STATUS_CONTINUE, buf', blocks) ∧
    length buf' = length ex_pcm_buf ∧
    concat blocks = interleave (take 3 ex_left) (take 3 ex_right) ∧
    length (concat blocks) = (4 * 3)%nat.
Proof.
  assert (4 ≤ length ex_pcm_buf)%nat as Hb by (cbn; lia).
  assert (3 ≤ length ex_left)%nat as Hl by (cbn; lia).
  assert (3 ≤ length ex_right)%nat as Hr by (cbn; lia).
  split; [exact Hb|]. split; [exact Hl|]. split; [exact Hr|].
  exact (writecb_stream 3 ex_left ex_right ex_pcm_buf Hb Hl Hr).
Defined.

Lemma writecb_blocks_whole_frames_witness :
  (4 < length ex_pcm_buf)%nat ∧
  writecb false 3 ex_left ex_right ex_pcm_buf
    = Some (WRITE_STATUS_CONTINUE, [44; 1; 0; 128; 0; 0; 0; 0],
            [[1; 0; 255; 255]; [254; 255; 255; 127]; [44; 1; 0; 128]]) ∧
  Forall (whole_frames (length ex_pcm_buf))
    [[1; 0; 255; 255]; [254; 255; 255; 127]; [44; 1; 0; 128]].
Proof.
  assert (4 < length ex_pcm_buf)%nat as Hb by (cbn; lia).
  split; [exact Hb|]. split; [reflexivity|].
  exact (writecb_blocks_whole_frames false 3 ex_left ex_right ex_pcm_buf
           _ _ _ Hb eq_refl).
Defined.

Lemma writecb_samples_16bit_witness :
  (4 ≤ length ex_pcm_buf)%nat ∧
  (3 ≤ length ex_left)%nat ∧ (3 ≤ length ex_right)%nat ∧
  ∃ buf' blocks,
    writecb false 3 ex_left ex_right ex_pcm_buf
      = Some (WRITE_STATUS_CONTINUE, buf', blocks) ∧
    Forall (Forall (λ b, 0 ≤ b < 256)) blocks ∧
    s16_decode (concat blocks)
      = wrap16 <$> alternate (take 3 ex_left) (take 3 ex_right) ∧
    (Forall (λ v, -32768 ≤ v < 32768)
       (alternate (take 3 ex_left) (take 3 ex_right)) →
     s16_decode (concat blocks) = [1; -1; -2; 32767; 300; -32768]).
Proof.
  assert (4 ≤ length ex_pcm_buf)%nat as Hb by (cbn; lia).
  assert (3 ≤ length ex_left)%nat as Hl by (cbn; lia).
  assert (3 ≤ length ex_right)%nat as Hr by (cbn; lia).
  split; [exact Hb|]. split; [exact Hl|]. split; [exact Hr|].
  exact (writecb_samples_16bit 3 ex_left ex_right ex_pcm_buf Hb Hl Hr).
Defined.

(** A stream that libvorbisfile refuses. *)
Lemma play_oggvorbis_return_witness :
  play_oggvorbis 7 ex_ogg_unopened
    = Some (Ogg_return (-1) [Og_fdopen 7; Og_open; Og_warnx; Og_fclose]) ∧
  (Og_clear ∈ [Og_fdopen 7; Og_open; Og_warnx; Og_fclose]
     ↔ 0 ≤ og_open ex_ogg_unopened).
Proof.
  split; [reflexivity|].
  exact (proj1 (proj2 (proj2
           (play_oggvorbis_return 7 ex_ogg_unopened _ _ eq_refl)))).
Defined.

Lemma play_oggvorbis_plays_whole_stream_witness :
  og_reads ex_ogg = [4096; -3; 2048] ++ 0 :: [] ∧
  Forall (λ r, r ≠ 0) [4096; -3; 2048] ∧
  (∀ j, og_play ex_ogg j ≠ 0) ∧
  ∃ calls,
    play_oggvorbis 7 ex_ogg = Some (Ogg_return 0 calls) ∧
    played calls = positive_reads [4096; -3; 2048] ∧
    reads_made calls = 4%nat.
Proof.
  assert (Forall (λ r, r ≠ 0) [4096; -3; 2048]) as Hpre
    by (repeat constructor; discriminate).
  assert (∀ j, og_play ex_ogg j ≠ 0) as Hplay by (intros j; discriminate).
  assert (0 ≤ og_open ex_ogg) as Hopen by (cbn; lia).
  assert (og_setup ex_ogg ≠ -1) as Hsetup by discriminate.
  split; [reflexivity|]. split; [exact Hpre|]. split; [exact Hplay|].
  exact (play_oggvorbis_plays_whole_stream 7 ex_ogg [4096; -3; 2048] []
           eq_refl Hopen Hsetup eq_refl Hpre Hplay).
Defined.

Lemma play_oggvorbis_stops_at_refusal_witness :
  og_reads ex_ogg_refused = [4096; -3] ++ 2048 :: [512; 0] ∧
  og_play ex_ogg_refused (length (positive_reads [4096; -3])) = 0 ∧
  ∃ calls,
    play_oggvorbis 7 ex_ogg_refused = Some (Ogg_return 0 calls) ∧
    played calls = positive_reads [4096; -3] ++ [2048] ∧
    reads_made calls = 3%nat ∧
    (∃ before, calls = before ++ [Og_play 2048; Og_clear; Og_fclose]).
Proof.
  assert (Forall (λ r, r ≠ 0) [4096; -3]) as Hpre
    by (repeat constructor; discriminate).
  assert (0 ≤ og_open ex_ogg_refused) as Hopen by (cbn; lia).
  assert (og_setup ex_ogg_refused ≠ -1) as Hsetup by discriminate.
  assert (0 < 2048) as Hr by lia.
  assert (∀ j, (j < length (positive_reads [4096; -3]%Z))%nat →
               og_play ex_ogg_refused j ≠ 0) as Hplay.
  { intros [|j] Hj; [discriminate|]. exfalso. vm_compute in Hj. lia. }
  split; [reflexivity|]. split; [reflexivity|].
  exact (play_oggvorbis_stops_at_refusal 7 ex_ogg_refused [4096; -3] 2048
           [512; 0] eq_refl Hopen Hsetup eq_refl Hpre Hr Hplay eq_refl).
Defined.

(** bind fails: the socket is closed again. *)
Lemma control_init_no_leak_witness :
  control_init 104 ex_sock ex_init_bind_fails
    = Init_return (-1)
        [Sys_socket; Sys_getfl 3; Sys_setfl 3 6; Sys_setfd 3 1;
         Sys_unlink ex_sock; Sys_umask 79; Sys_bind 3 ex_sock;
         Sys_close 3; Sys_umask 18]
        ["control_init: bind"] ∧
  close_calls
    [Sys_socket; Sys_getfl 3; Sys_setfl 3 6; Sys_setfd 3 1;
     Sys_unlink ex_sock; Sys_umask 79; Sys_bind 3 ex_sock;
     Sys_close 3; Sys_umask 18] = [3].
Proof.
  split; [reflexivity|].
  destruct (proj1 (control_init_no_leak 104 ex_sock ex_init_bind_fails
                     _ _ _ eq_refl) eq_refl)
    as [_ [[Hs _]|[_ Hc]]]; [discriminate Hs | exact Hc].
Defined.

(** A [sun_path] of eight bytes: the socket is bound to a truncated
    name, the stale entry is unlinked and the mode is set under the whole
    path. *)
Lemma control_init_bound_path_witness :
  control_init 8 ex_sock ex_init_ok
    = Init_return 3
        [Sys_socket; Sys_getfl 3; Sys_setfl 3 6; Sys_setfd 3 1;
         Sys_unlink ex_sock; Sys_umask 79; Sys_bind 3 "/tmp/am";
         Sys_umask 18; Sys_chmod ex_sock 432] [] ∧
  "/tmp/am" ∈ bind_calls
    [Sys_socket; Sys_getfl 3; Sys_setfl 3 6; Sys_setfd 3 1;
     Sys_unlink ex_sock; Sys_umask 79; Sys_bind 3 "/tmp/am";
     Sys_umask 18; Sys_chmod ex_sock 432] ∧
  String.prefix "/tmp/am" ex_sock = true ∧
  "/tmp/am" ≠ ex_sock ∧
  (∀ p, Sys_unlink p ∈
          [Sys_socket; Sys_getfl 3; Sys_setfl 3 6; Sys_setfd 3 1;
           Sys_unlink ex_sock; Sys_umask 79; Sys_bind 3 "/tmp/am";
           Sys_umask 18; Sys_chmod ex_sock 432] → p = ex_sock) ∧
  (∀ p mode, Sys_chmod p mode ∈
          [Sys_socket; Sys_getfl 3; Sys_setfl 3 6; Sys_setfd 3 1;
           Sys_unlink ex_sock; Sys_umask 79; Sys_bind 3 "/tmp/am";
           Sys_umask 18; Sys_chmod ex_sock 432] →
     p = ex_sock ∧ mode = init_mode).
Proof.
  assert ("/tmp/am" ∈ bind_calls
            [Sys_socket; Sys_getfl 3; Sys_setfl 3 6; Sys_setfd 3 1;
             Sys_unlink ex_sock; Sys_umask 79; Sys_bind 3 "/tmp/am";
             Sys_umask 18; Sys_chmod ex_sock 432]) as Hin
    by apply list_elem_of_here.
  assert (0 < 8 ≤ String.length ex_sock)%nat as Hlong by (cbn; lia).
  destruct (control_init_bound_path 8 ex_sock ex_init_ok _ _ _ eq_refl
              "/tmp/am" Hin)
    as (_ & Hpre & _ & Hne & _ & _ & _ & Hunl & Hchm).
  split; [reflexivity|]. split; [exact Hin|]. split; [exact Hpre|].
  split; [exact (Hne Hlong)|]. split; [exact Hunl | exact Hchm].
Defined.

(** A third client connects on fd 7. *)
Lemma control_accept_new_client_witness :
  (io_accept (ex_accept 7 102)).1 ≠ -1 ∧
  ctl_conns (control_accept 3 (ex_accept 7 102) ex_two_clients)
    = ctl_conns ex_two_clients ++
      [mk_ctl_conn 0 (mk_imsgev 7 102 [] POLLIN)].
Proof.
  assert ((io_accept (ex_accept 7 102)).1 ≠ -1) as Hfd by discriminate.
  split; [exact Hfd|].
  exact (proj1 (control_accept_new_client 3 (ex_accept 7 102) ex_two_clients
                  Hfd eq_refl)).
Defined.

(** accept4 is interrupted. *)
Lemma control_accept_failure_keeps_clients_witness :
  (io_accept (ex_accept_fails EINTR)).1 = -1 ∧
  ctl_conns (control_accept 3 (ex_accept_fails EINTR) ex_two_clients)
    = ctl_conns ex_two_clients.
Proof.
  split; [reflexivity|].
  exact (proj1 (control_accept_failure_keeps_clients 3 (ex_accept_fails EINTR)
                  ex_two_clients (or_introl eq_refl))).
Defined.

(** Client 5 goes. *)
Lemma control_close_removes_first_witness :
  ctl_conns ex_two_clients = [] ++ ex_conn5 :: [ex_conn6] ∧
  (5 ∉ map conn_fd []) ∧
  ctl_conns (control_close 5 ex_two_clients) = [] ++ [ex_conn6].
Proof.
  assert (5 ∉ map conn_fd []) as Hnot by apply not_elem_of_nil.
  split; [reflexivity|]. split; [exact Hnot|].
  exact (proj1 (control_close_removes_first 5 ex_two_clients [] ex_conn5
                  [ex_conn6] eq_refl eq_refl Hnot)).
Defined.

(** Client 5 goes while accepting is paused. *)
Lemma control_close_resumes_accept_witness :
  control_connbyfd 5 (ctl_conns ex_paused_accept) = Some ex_conn5 ∧
  is_Some (ev_tmr (evs ex_paused_accept)) ∧
  ev_tmr (evs (control_close 5 ex_paused_accept)) = None ∧
  listener_attached (control_close 5 ex_paused_accept).
Proof.
  assert (is_Some (ev_tmr (evs ex_paused_accept))) as Htmr
    by (eexists; reflexivity).
  split; [reflexivity|]. split; [exact Htmr|].
  destruct (control_close_resumes_accept 5 ex_conn5 ex_paused_accept eq_refl)
    as [Hnone Hatt].
  split; [exact Hnone | exact (Hatt Htmr)].
Defined.

(** A third client connects on fd 7 and goes at once. *)
Lemma accept_then_close_identity_witness :
  reachable 3 ex_two_clients ∧
  accept_fresh ex_two_clients (ex_accept 7 102) ∧
  control_close 7 (control_accept 3 (ex_accept 7 102) ex_two_clients)
    = ex_two_clients.
Proof.
  assert (accept_fresh ex_two_clients (ex_accept 7 102)) as Hfresh.
  { right. split; [cbn; lia|]. split; [discriminate|].
    intros Hin. vm_compute in Hin.
    inversion Hin as [|? ? ? Hin']; subst.
    apply list_elem_of_singleton in Hin'. discriminate. }
  assert ((io_accept (ex_accept 7 102)).1 ≠ -1) as Hfd by discriminate.
  split; [exact ex_two_clients_reachable|]. split; [exact Hfresh|].
  exact (accept_then_close_identity 3 3 (ex_accept 7 102) ex_two_clients
           ex_two_clients_reachable Hfresh Hfd eq_refl eq_refl eq_refl).
Defined.

(** End of file on client 5 with a Begin still buffered. *)
Lemma control_dispatch_imsg_read_witness :
  control_connbyfd 5 (ctl_conns ex_two_clients) = Some ex_conn5 ∧
  Z.land POLLIN POLLIN ≠ 0 ∧
  (io_read ex_eof).1 = 0 ∧
  ctl_conns (control_dispatch_imsg 5 POLLIN ex_eof ex_two_clients)
    = conn_remove 5 (ctl_conns ex_two_clients) ∧
  main (control_dispatch_imsg 5 POLLIN ex_eof ex_two_clients)
    = main ex_two_clients.
Proof.
  assert (Z.land POLLIN POLLIN ≠ 0) as Hin by discriminate.
  split; [reflexivity|]. split; [exact Hin|]. split; [reflexivity|].
  destruct (proj1 (control_dispatch_imsg_read 5 ex_conn5 POLLIN ex_eof
                     ex_two_clients eq_refl Hin) (or_introl eq_refl))
    as (_ & Hmain & Hconns).
  split; [exact Hconns | exact Hmain].
Defined.

(** Client 5 sends a Begin and then garbage: client 6 stays. *)
Lemma control_dispatch_imsg_keeps_other_clients_witness :
  6 ≠ 5 ∧
  (6 ∈ conn_fds (control_dispatch_imsg 5 POLLIN
                   (ex_read [Frame ex_begin; Corrupt]) ex_two_clients)
   ↔ 6 ∈ conn_fds ex_two_clients).
Proof.
  assert (6 ≠ 5) as Hne by discriminate.
  split; [exact Hne|].
  exact (control_dispatch_imsg_keeps_other_clients 5 POLLIN
           (ex_read [Frame ex_begin; Corrupt]) ex_two_clients 6 Hne).
Defined.

(** Client 6 sends Pause, Mode and an unknown command while client 5
    holds the transaction. *)
Lemma commands_outside_transaction_witness :
  Forall (λ m, ¬ transactional (hdr_type m)) [ex_pause; ex_mode; ex_unknown] ∧
  control_state (run_cases 6 [ex_pause; ex_mode; ex_unknown] ex_in_transaction)
    = control_state ex_in_transaction.
Proof.
  assert (Forall (λ m, ¬ transactional (hdr_type m))
            [ex_pause; ex_mode; ex_unknown]) as Hms
    by (repeat constructor; intros [?|[?|?]]; discriminate).
  split; [exact Hms|].
  exact (proj1 (commands_outside_transaction 6 [ex_pause; ex_mode; ex_unknown]
                  ex_in_transaction Hms)).
Defined.

Lemma reachable_table_invariant_witness :
  reachable 3 ex_in_transaction ∧
  NoDup (conn_fds ex_in_transaction) ∧
  Forall (λ fd, 0 ≤ fd ∧ fd ≠ 3) (conn_fds ex_in_transaction).
Proof.
  split; [exact ex_in_transaction_reachable|].
  destruct (reachable_table_invariant 3 ex_in_transaction
              ex_in_transaction_reachable) as (_ & Hnd & Hfds & _).
  split; [exact Hnd | exact Hfds].
Defined.

(** Client 6 commits although nobody has begun. *)
Lemma commit_without_transaction_witness :
  reachable 3 ex_two_clients ∧
  control_connbyfd 6 (ctl_conns ex_two_clients) = Some ex_conn6 ∧
  ¬ tx_open ex_two_clients ∧
  hdr_type ex_commit_append = IMSG_CTL_COMMIT ∧
  wq 6 (dispatch_case 6 ex_commit_append ex_two_clients)
    = Some (conn_w ex_conn6 ++ [err_frame "locked"]).
Proof.
  assert (¬ tx_open ex_two_clients) as Hclosed by (intros Ho; by apply Ho).
  split; [exact ex_two_clients_reachable|]. split; [reflexivity|].
  split; [exact Hclosed|]. split; [reflexivity|].
  exact (proj1 (proj2
           (commit_without_transaction 3 6 ex_conn6 ex_commit_append
              ex_two_clients ex_two_clients_reachable eq_refl Hclosed
              eq_refl))).
Defined.

(** Client 6 stops the daemon while it plays and client 5 monitors. *)
Lemma stop_only_when_not_stopped_witness :
  hdr_type ex_stop = IMSG_CTL_STOP ∧
  play_state (main ex_playing_monitored) ≠ STATE_STOPPED ∧
  play_state (main (dispatch_case 6 ex_stop ex_playing_monitored))
    = STATE_STOPPED ∧
  player_w (main (dispatch_case 6 ex_stop ex_playing_monitored))
    = player_w (main ex_playing_monitored)
      ++ [mk_out IMSG_STOP 0 0 (-1) P_null] ∧
  wq 5 (dispatch_case 6 ex_stop ex_playing_monitored)
    = Some [ack_frame IMSG_CTL_BEGIN;
            monitor_frame
              (mk_player_event IMSG_CTL_STOP 42 180 (mk_player_mode 0 1 0))] ∧
  wq 6 (dispatch_case 6 ex_stop ex_playing_monitored) = Some [].
Proof.
  assert (play_state (main ex_playing_monitored) ≠ STATE_STOPPED) as Hp
    by discriminate.
  split; [reflexivity|]. split; [exact Hp|].
  destruct (proj1 (stop_only_when_not_stopped 6 ex_stop ex_playing_monitored
                     eq_refl) Hp) as (Hst & Hw & Hcast & _).
  split; [exact Hst|]. split; [exact Hw|].
  split; [exact (notified_lookup _ _ _ 5 Hcast)
         | exact (notified_lookup _ _ _ 6 Hcast)].
Defined.

(** Play while playing: no order for the player, and the monitor hears
    Play. *)
Lemma play_when_not_stopped_witness :
  hdr_type ex_play = IMSG_CTL_PLAY ∧
  play_state (main ex_playing_monitored) ≠ STATE_STOPPED ∧
  player_w (main (dispatch_case 6 ex_play ex_playing_monitored))
    = player_w (main ex_playing_monitored) ++
        (if decide (play_state (main ex_playing_monitored) = STATE_PAUSED)
         then [mk_out IMSG_RESUME 0 0 (-1) P_null] else []) ∧
  wq 5 (dispatch_case 6 ex_play ex_playing_monitored)
    = Some [ack_frame IMSG_CTL_BEGIN;
            monitor_frame
              (mk_player_event IMSG_CTL_PLAY 42 180 (mk_player_mode 0 1 0))].
Proof.
  assert (play_state (main ex_playing_monitored) ≠ STATE_STOPPED) as Hp
    by discriminate.
  split; [reflexivity|]. split; [exact Hp|].
  destruct (play_when_not_stopped 6 ex_play ex_playing_monitored eq_refl Hp)
    as (_ & Hw & Hcast & _).
  split; [exact Hw | exact (notified_lookup _ _ _ 5 Hcast)].
Defined.

(** Client 6 toggles, then client 5, which monitors. *)
Lemma toggle_play_twice_witness :
  hdr_type ex_toggle = IMSG_CTL_TOGGLE_PLAY ∧
  play_state (main ex_playing_monitored) ≠ STATE_STOPPED ∧
  play_state (main (dispatch_case 6 ex_toggle ex_playing_monitored))
    = STATE_PAUSED ∧
  play_state (main (dispatch_case 5 ex_toggle
                      (dispatch_case 6 ex_toggle ex_playing_monitored)))
    = STATE_PLAYING ∧
  player_w (main (dispatch_case 5 ex_toggle
                    (dispatch_case 6 ex_toggle ex_playing_monitored)))
    = [mk_out IMSG_PAUSE 0 0 (-1) P_null; mk_out IMSG_RESUME 0 0 (-1) P_null] ∧
  wq 5 (dispatch_case 5 ex_toggle
          (dispatch_case 6 ex_toggle ex_playing_monitored))
    = Some [ack_frame IMSG_CTL_BEGIN;
            monitor_frame
              (mk_player_event IMSG_CTL_PAUSE 42 180 (mk_player_mode 0 1 0));
            monitor_frame
              (mk_player_event IMSG_CTL_PLAY 42 180 (mk_player_mode 0 1 0))].
Proof.
  assert (play_state (main ex_playing_monitored) ≠ STATE_STOPPED) as Hp
    by discriminate.
  split; [reflexivity|]. split; [exact Hp|].
  destruct (toggle_play_twice 6 5 ex_toggle ex_toggle ex_playing_monitored 5
              eq_refl eq_refl Hp) as (H1 & H2 & Hw & Hq).
  split; [exact H1|]. split; [exact H2|]. split; [exact Hw | exact Hq].
Defined.

(** Client 6 asks to monitor and then hears a Stop event. *)
Lemma monitor_subscribes_witness :
  control_connbyfd 6 (ctl_conns ex_two_clients) = Some ex_conn6 ∧
  hdr_type ex_monitor = IMSG_CTL_MONITOR ∧
  wq 6 (control_notify IMSG_CTL_STOP (dispatch_case 6 ex_monitor ex_two_clients))
    = Some [monitor_frame
              (mk_player_event IMSG_CTL_STOP 0 0 (mk_player_mode 0 0 0))].
Proof.
  split; [reflexivity|]. split; [reflexivity|].
  exact (proj2 (proj2 (proj2 (proj2 (proj2
           (monitor_subscribes 6 ex_conn6 ex_monitor ex_two_clients
              IMSG_CTL_STOP eq_refl eq_refl)))))).
Defined.

(** On LP64: setting a mode that is off, whatever it was. *)
Lemma new_mode_laws_witness :
  MODE_TOGGLE ≠ MODE_UNDEF ∧
  new_mode (new_mode 0 MODE_TOGGLE) MODE_TOGGLE = lnot (lnot 0).
Proof.
  assert (MODE_TOGGLE ≠ MODE_UNDEF) as Hne by discriminate.
  split; [exact Hne|].
  exact (proj1 (proj2 (proj2 (proj2 (new_mode_laws 0 1 1 Hne))))).
Defined.

Lemma mode_keeps_boolean_witness :
  hdr_type ex_mode = IMSG_CTL_MODE ∧
  boolean_modes (main ex_two_clients) ∧
  boolean_modes (main (dispatch_case 6 ex_mode ex_two_clients)).
Proof.
  assert (boolean_modes (main ex_two_clients)) as Hb
    by (split; [|split]; left; reflexivity).
  split; [reflexivity|]. split; [exact Hb|].
  exact (proj1 (mode_keeps_boolean 6 ex_mode ex_two_clients eq_refl Hb)).
Defined.

(** The daemon is handed fd 3, and then fd 4. *)
Lemma control_listen_once_witness :
  3 ≠ -1 ∧
  control_listen 3 0 (boot ex_main) = Running 0 ex_listening ∧
  control_listen 4 0 ex_listening
    = Fatal "control_listen: received unexpected controlsock".
Proof.
  assert (3 ≠ -1) as Hfd by discriminate.
  split; [exact Hfd|]. split; [reflexivity|].
  exact (proj2 (proj2 (proj2
           (control_listen_once 3 0 4 0 (boot ex_main) 0 ex_listening
              Hfd eq_refl)))).
Defined.

End MoreRuns.
